(** * Buffered ranges of the rx-player ([src/core/ranges.js])

    A shallow embedding of the buffered-interval tracker and the proofs of
    its specification.

    Numbers.  Timestamps are JavaScript numbers, that is, doubles.  They
    are modelled by the rationals [Q]: every comparison of the source
    ([<], [<=], [===]) is the comparison of [Q], and [Math.min] and
    [Math.max] select one of their arguments.  The sum
    [startTime + duration] of [hasRange] is rounded to the nearest double,
    as the addition of the source is ([round64] below).  The differences
    are taken exactly: [a - b] in the tolerance tests, and [end - ts] and
    the like in the queries, where the source returns the double nearest
    to the number given here.  [Infinity] only occurs as the initial value
    of a loop variable and as a returned sentinel; both places have a type
    of their own.  Bitrates are opaque tokens compared with [===]; they
    are integers here.

    Arrays.  A JavaScript array is a [list]; [ranges[i]] is stdpp's lookup
    [ranges !! i], a field assignment on [ranges[i]] is the list insert
    [<[i:=_]>], and [Array.prototype.splice] is [splice] below.  The [for]
    loops of the source move their index by hand while they splice: each
    loop is a function of the array and the index, with the index of the
    next iteration written out in every branch. *)

From Stdlib Require Import QArith Qabs Qminmax Lqa ZArith Bool Lia.
From stdpp Require Import base list.

Open Scope Q_scope.

(** ** Numbers and tolerance *)

Definition Qltb (a b : Q) : bool := negb (Qle_bool b a).

(** [var EPSILON = 0.00001;] *)
Definition EPSILON : Q := 1 # 100000.

(** [Math.abs(a - b) < EPSILON] *)
Definition nearlyEqual (a b : Q) : bool := Qltb (Qabs (a - b)) EPSILON.

(** [a - b <= EPSILON] *)
Definition nearlyLt (a b : Q) : bool := Qle_bool (a - b) EPSILON.

(** ** Doubles *)

(** [n / d >= 2^k], for [n] and [d] positive. *)
Definition atLeastPow2 (n d k : Z) : bool :=
  if (0 <=? k)%Z then (d * 2 ^ k <=? n)%Z else (d <=? n * 2 ^ (- k))%Z.

(** The exponent of [n / d]: the [k] with [2^k <= n / d < 2^(k+1)]. *)
Definition exponent (n d : Z) : Z :=
  let k := (Z.log2 n - Z.log2 d)%Z in
  if atLeastPow2 n d k then k else (k - 1)%Z.

(** [n / d] rounded to the nearest integer, a tie to the even one. *)
Definition nearestEven (n d : Z) : Z :=
  let q := (n / d)%Z in
  let r := (n mod d)%Z in
  match (2 * r ?= d)%Z with
  | Lt => q
  | Gt => (q + 1)%Z
  | Eq => if Z.even q then q else (q + 1)%Z
  end.

(** The double nearest to [q], a tie to the one with an even
    significand: 53 bits from the exponent of [q] down, and no bit below
    [2^-1074]; [None] where the nearest double is an infinity, from
    [2^1024 - 2^970] on. *)
Definition round64 (q : Q) : option Q :=
  match Qnum q with
  | Z0 => Some 0
  | _ =>
      let n := Z.abs (Qnum q) in
      let d := Zpos (Qden q) in
      let p := Z.max (exponent n d - 52) (-1074) in
      let m := if (0 <=? p)%Z then nearestEven n (d * 2 ^ p)
               else nearestEven (n * 2 ^ (- p)) d in
      let s := Z.sgn (Qnum q) in
      if (0 <=? p)%Z
      then if (2 ^ 1024 <=? m * 2 ^ p)%Z then None
           else Some (inject_Z (s * m * 2 ^ p))
      else Some (Qred ((s * m) # Z.to_pos (2 ^ (- p))))
  end.

(** [a + b] on doubles. *)
Definition add64 (a b : Q) : option Q := round64 (a + b).

(** ** Ranges *)

(** [{ start, end, bitrate }]; [end] is a keyword of Rocq. *)
Record Range : Type := mkRange { start : Q; end_ : Q; bitrate : Z }.

Definition set_start (r : Range) (x : Q) : Range :=
  {| start := x; end_ := end_ r; bitrate := bitrate r |}.

Definition set_end (r : Range) (x : Q) : Range :=
  {| start := start r; end_ := x; bitrate := bitrate r |}.

(** [r.start <= point && point < r.end] *)
Definition isPointInRange (r : Range) (point : Q) : bool :=
  Qle_bool (start r) point && Qltb point (end_ r).

Definition areOverlappingRanges (r1 r2 : Range) : bool :=
  isPointInRange r1 (start r2) || isPointInRange r1 (end_ r2)
  || isPointInRange r2 (start r1).

Fixpoint findOverlappingRange (range : Range) (others : list Range)
  : option Range :=
  match others with
  | [] => None
  | o :: others' =>
      if areOverlappingRanges range o then Some o
      else findOverlappingRange range others'
  end.

Definition isContainedInto (r1 r2 : Range) : bool :=
  isPointInRange r1 (start r2) && isPointInRange r1 (end_ r2).

Definition areContiguousWithRanges (r1 r2 : Range) : bool :=
  nearlyEqual (start r2) (end_ r1) || nearlyEqual (end_ r2) (start r1).

Definition unionWithOverlappingOrContiguousRange
  (r1 r2 : Range) (b : Z) : Range :=
  {| start := Qmin (start r1) (start r2);
     end_ := Qmax (end_ r1) (end_ r2);
     bitrate := b |}.

Definition isOrdered (r1 r2 : Range) : bool := Qle_bool (end_ r1) (start r2).

Definition sameBitrate (r1 r2 : Range) : bool :=
  Z.eqb (bitrate r1) (bitrate r2).

(** ** Arrays *)

(** [l.splice(i, del, ...ins)] as the array it leaves in [l].  A start past
    the end of the array is clamped to its length, as [take] and [drop]
    do. *)
Definition splice {A : Type} (i del : nat) (ins : list A) (l : list A)
  : list A :=
  take i l ++ ins ++ drop (i + del) l.

(** ** The clean-up passes *)

(** [for (index = 0; index < ranges.length; index++)] with
    [ranges.splice(index++, 1)] on an empty range: the element at [index]
    is removed, the post-increment and the loop's own increment then move
    the index by two in the shortened array. *)
Fixpoint removeEmptyRanges_loop (fuel : nat) (ranges : list Range)
  (index : nat) : list Range :=
  match fuel with
  | O => ranges
  | S fuel' =>
      match ranges !! index with
      | None => ranges
      | Some range =>
          if Qeq_bool (start range) (end_ range)
          then removeEmptyRanges_loop fuel' (splice index 1 [] ranges)
                 (index + 2)
          else removeEmptyRanges_loop fuel' ranges (index + 1)
      end
  end.

Definition removeEmptyRanges (ranges : list Range) : list Range :=
  removeEmptyRanges_loop (length ranges) ranges 0.

(** [for (index = 1; index < ranges.length; index++)] with
    [ranges.splice(--index, 2, unionRange)]: the union takes the place of
    the pair at [index - 1]; the pre-decrement and the loop's increment
    leave the index where it was, so that the union is compared with its
    new right neighbour. *)
Fixpoint mergeContiguousRanges_loop (fuel : nat) (ranges : list Range)
  (index : nat) : list Range :=
  match fuel with
  | O => ranges
  | S fuel' =>
      match ranges !! (index - 1)%nat, ranges !! index with
      | Some prevRange, Some currRange =>
          if sameBitrate prevRange currRange
             && areContiguousWithRanges prevRange currRange
          then
            let unionRange :=
              unionWithOverlappingOrContiguousRange prevRange currRange
                (bitrate currRange) in
            mergeContiguousRanges_loop fuel'
              (splice (index - 1) 2 [unionRange] ranges) index
          else mergeContiguousRanges_loop fuel' ranges (index + 1)
      | _, _ => ranges
      end
  end.

Definition mergeContiguousRanges (ranges : list Range) : list Range :=
  mergeContiguousRanges_loop (length ranges) ranges 1.

(** ** Insertion *)

(** The scan of [insertInto].  It returns the array, the index and the
    added range with which the loop is left (by [break] or by its
    condition).  Each recursive call carries the index of the next
    iteration: [splice(index--, 1)] and the loop's [index++] leave it
    unchanged, [splice(++index, 0, _)] and [index++] add two. *)
Fixpoint insertInto_loop (fuel : nat) (ranges : list Range) (index : nat)
  (addedRange : Range) : list Range * nat * Range :=
  match fuel with
  | O => (ranges, index, addedRange)
  | S fuel' =>
      match ranges !! index with
      | None => (ranges, index, addedRange)
      | Some currentRange =>
          let overlapping := areOverlappingRanges addedRange currentRange in
          let contiguous := areContiguousWithRanges addedRange currentRange in
          if overlapping || contiguous then
            if sameBitrate addedRange currentRange then
              insertInto_loop fuel' (splice index 1 [] ranges) index
                (unionWithOverlappingOrContiguousRange addedRange
                   currentRange (bitrate currentRange))
            else if overlapping then
              if isContainedInto currentRange addedRange then
                insertInto_loop fuel'
                  (<[index := set_end currentRange (start addedRange)]>
                     (splice (index + 1) 0 [addedRange] ranges))
                  (index + 2)
                  {| start := end_ addedRange;
                     end_ := end_ currentRange;
                     bitrate := bitrate currentRange |}
              else if isContainedInto addedRange currentRange then
                insertInto_loop fuel' (splice index 1 [] ranges) index
                  addedRange
              else if Qltb (start currentRange) (start addedRange) then
                insertInto_loop fuel'
                  (<[index := set_end currentRange (start addedRange)]>
                     ranges)
                  (index + 1) addedRange
              else
                (<[index := set_start currentRange (end_ addedRange)]> ranges,
                 index, addedRange)
            else (ranges, index, addedRange)
          else
            if (index =? 0)%nat then
              match ranges !! 0%nat with
              | Some first =>
                  if isOrdered addedRange first
                  then (ranges, index, addedRange)
                  else insertInto_loop fuel' ranges (index + 1) addedRange
              | None => (ranges, index, addedRange)
              end
            else
              match ranges !! (index - 1)%nat with
              | Some previous =>
                  if isOrdered previous addedRange
                     && isOrdered addedRange currentRange
                  then (ranges, index, addedRange)
                  else insertInto_loop fuel' ranges (index + 1) addedRange
              | None => (ranges, index, addedRange)
              end
      end
  end.

(** What a call leaves: a value, or the exception it throws. *)
Inductive error : Type := AssertionError | TypeError.

Inductive result (A : Type) : Type :=
| Ok (a : A)
| Throw (e : error).
Arguments Ok {A} a.
Arguments Throw {A} e.

Definition bind {A B : Type} (m : result A) (k : A -> result B) : result B :=
  match m with
  | Ok a => k a
  | Throw e => Throw e
  end.

Notation "x <- m ;; k" := (bind m (fun x => k))
  (at level 100, m at next level, right associativity).

(** Modelled from the spec: [assert] of [canal-js-utils/assert] is not
    part of the source; a violated precondition is reported by an
    assertion failure that aborts the current operation: [assert(cond)]
    throws when [cond] is false. *)
Definition assert (cond : bool) : result unit :=
  if cond then Ok tt else Throw AssertionError.

(** [insertInto(ranges, bitrate, start, end)]: how the call ends, and the
    array it leaves in [ranges].  The assertion comes before any change
    to the array, and the early [return] leaves it untouched. *)
Definition insertInto (ranges : list Range) (b : Z) (s e : Q)
  : result unit * list Range :=
  match assert (Qle_bool s e) with
  | Throw err => (Throw err, ranges)
  | Ok _ =>
      if Qeq_bool s e then (Ok tt, ranges)
      else
        let '(ranges1, index, addedRange) :=
          insertInto_loop (S (length ranges)) ranges 0
            {| start := s; end_ := e; bitrate := b |} in
        (Ok tt,
         mergeContiguousRanges
           (removeEmptyRanges (splice index 0 [addedRange] ranges1)))
  end.

(** ** Intersection *)

(** [intersect(ranges, others)]: [others] is an array of records of which
    only [start] and [end] are read.  [splice(i--, 1); continue] and the
    loop's [i++] leave the index where it was. *)
Fixpoint intersect_loop (fuel : nat) (ranges others : list Range) (i : nat)
  : list Range :=
  match fuel with
  | O => ranges
  | S fuel' =>
      match ranges !! i with
      | None => ranges
      | Some range =>
          match findOverlappingRange range others with
          | None => intersect_loop fuel' (splice i 1 [] ranges) others i
          | Some overlappingRange =>
              let range1 :=
                if Qltb (start range) (start overlappingRange)
                then set_start range (start overlappingRange) else range in
              let range2 :=
                if Qltb (end_ overlappingRange) (end_ range1)
                then set_end range1 (end_ overlappingRange) else range1 in
              intersect_loop fuel' (<[i := range2]> ranges) others (i + 1)
          end
      end
  end.

Definition intersect (ranges others : list Range) : list Range :=
  intersect_loop (length ranges) ranges others 0.

(** ** The ranges capability and the queries *)

(** [{ start, end }], as the free [getRange] and [bufferedToArray] build
    it. *)
Record StartEnd : Type := mkStartEnd { se_start : Q; se_end : Q }.

(** Any value with a numeric [length] and the accessors [start(i)] and
    [end(i)]; an accessor may throw. *)
Module Ranges.
Class t (C : Type) : Type := {
  length : C -> nat;
  start : C -> nat -> result Q;
  end_ : C -> nat -> result Q
}.
End Ranges.

(** A foreign collection (a platform's report of what is buffered): a
    length and two accessors defined everywhere. *)
Record TimeRanges : Type := mkTimeRanges {
  tr_length : nat;
  tr_start : nat -> Q;
  tr_end : nat -> Q
}.

#[export] Instance TimeRanges_ranges : Ranges.t TimeRanges := {|
  Ranges.length := tr_length;
  Ranges.start := fun c i => Ok (tr_start c i);
  Ranges.end_ := fun c i => Ok (tr_end c i)
|}.

(** The loop variables [start] and [end] of the free [getRange]: they
    hold [(Infinity, -Infinity)] until the first range is read. *)
Inductive cursor : Type :=
| Unread
| Read (s e : Q).

(** [ts < start] *)
Definition before_cursor (ts : Q) (c : cursor) : bool :=
  match c with
  | Unread => true
  | Read s _ => Qltb ts s
  end.

(** [while (--i >= 0 && ts < start)]: [i] is the value of the index
    before the decrement. *)
Fixpoint getRange_loop {C : Type} `{Ranges.t C} (ts : Q) (ranges : C)
  (i : nat) (c : cursor) : result cursor :=
  match i with
  | O => Ok c
  | S i' =>
      if before_cursor ts c then
        s <- Ranges.start ranges i' ;;
        e <- Ranges.end_ ranges i' ;;
        getRange_loop ts ranges i' (Read s e)
      else Ok c
  end.

(** [getRange(ts, ranges)]; [None] is [null]. *)
Definition getRange {C : Type} `{Ranges.t C} (ts : Q) (ranges : C)
  : result (option StartEnd) :=
  c <- getRange_loop ts ranges (Ranges.length ranges) Unread ;;
  Ok (match c with
      | Unread => None
      | Read s e =>
          if Qle_bool s ts then Some {| se_start := s; se_end := e |}
          else None
      end).

(** [getNextRangeGap] and [getGap] return a number or [Infinity]. *)
Inductive number : Type :=
| Finite (q : Q)
| Infinity.

(** [while (++i < ranges.length)], for the indices [i], ..., [i + n - 1]:
    the first range that starts after [ts]. *)
Fixpoint getNextRangeGap_loop {C : Type} `{Ranges.t C} (ts : Q) (ranges : C)
  (i n : nat) : result number :=
  match n with
  | O => Ok Infinity
  | S n' =>
      s <- Ranges.start ranges i ;;
      if Qltb ts s then Ok (Finite (s - ts))
      else getNextRangeGap_loop ts ranges (S i) n'
  end.

Definition getNextRangeGap {C : Type} `{Ranges.t C} (ts : Q) (ranges : C)
  : result number :=
  getNextRangeGap_loop ts ranges 0 (Ranges.length ranges).

(** The argument of [getGap], [getLoaded] and [getSize]: a collection
    ([isRanges] holds) or an already resolved range, possibly [null]. *)
Inductive rangesOrRange (C : Type) : Type :=
| IsRanges (ranges : C)
| IsRange (range : option StartEnd).
Arguments IsRanges {C} ranges.
Arguments IsRange {C} range.

Definition resolve {C : Type} `{Ranges.t C} (ts : Q) (x : rangesOrRange C)
  : result (option StartEnd) :=
  match x with
  | IsRanges ranges => getRange ts ranges
  | IsRange range => Ok range
  end.

Definition getGap {C : Type} `{Ranges.t C} (ts : Q) (x : rangesOrRange C)
  : result number :=
  range <- resolve ts x ;;
  Ok (match range with
      | Some r => Finite (se_end r - ts)
      | None => Infinity
      end).

Definition getLoaded {C : Type} `{Ranges.t C} (ts : Q) (x : rangesOrRange C)
  : result Q :=
  range <- resolve ts x ;;
  Ok (match range with
      | Some r => ts - se_start r
      | None => 0
      end).

Definition getSize {C : Type} `{Ranges.t C} (ts : Q) (x : rangesOrRange C)
  : result Q :=
  range <- resolve ts x ;;
  Ok (match range with
      | Some r => se_end r - se_start r
      | None => 0
      end).

(** ** The engine *)

Module BufferedRanges.

(** [this.ranges] and [this.length] *)
Record t : Type := mk { ranges : list Range; length : nat }.

(** [new BufferedRanges()] *)
Definition new : t := {| ranges := []; length := 0 |}.

Fixpoint hasRange_loop (rs : list Range) (startTime endTime : Q)
  : option Range :=
  match rs with
  | [] => None
  | r :: rs' =>
      if (nearlyLt (start r) startTime
          && nearlyLt startTime (end_ r))
         && (nearlyLt (start r) endTime
             && nearlyLt endTime (end_ r))
      then Some r
      else hasRange_loop rs' startTime endTime
  end.

(** [var endTime = startTime + duration;] is a sum of doubles.  Where
    it is an infinity no range passes the tests of the loop
    ([Infinity - end <= EPSILON] and [start - (-Infinity) <= EPSILON] are
    false), and the loop ends with [null]. *)
Definition hasRange (this : t) (startTime duration : Q) : option Range :=
  match add64 startTime duration with
  | Some endTime => hasRange_loop (ranges this) startTime endTime
  | None => None
  end.

Fixpoint getRange_loop (rs : list Range) (time : Q) : option Range :=
  match rs with
  | [] => None
  | r :: rs' =>
      if isPointInRange r time then Some r else getRange_loop rs' time
  end.

Definition getRange (this : t) (time : Q) : option Range :=
  getRange_loop (ranges this) time.

(** [insert(bitrate, start, end)]; [dev] is the build flag [__DEV__].
    How the call ends and the engine it leaves: an exception leaves the
    engine as it is when it is thrown, with [this.length] not yet
    updated. *)
Definition insert (dev : bool) (this : t) (b : Z) (s e : Q)
  : result (list Range) * t :=
  match
    (if dev
     then (_ <- assert (Qle_bool 0 s) ;; assert (Qltb 0 (e - s)))
     else Ok tt)
  with
  | Throw err => (Throw err, this)
  | Ok _ =>
      let '(outcome, rs) := insertInto (ranges this) b s e in
      match outcome with
      | Throw err => (Throw err, {| ranges := rs; length := length this |})
      | Ok _ => (Ok rs, {| ranges := rs; length := List.length rs |})
      end
  end.

Definition intersect (this : t) (others : list Range)
  : list Range * t :=
  let rs := intersect (ranges this) others in
  (rs, {| ranges := rs; length := List.length rs |}).

(** The accessors [start(i)] and [end(i)] come last, where they no
    longer hide the fields of a range: [this.ranges[i].start] is a
    [TypeError] when [ranges[i]] is [undefined]. *)
Definition end_ (this : t) (i : nat) : result Q :=
  match ranges this !! i with
  | Some r => Ok (end_ r)
  | None => Throw TypeError
  end.

Definition start (this : t) (i : nat) : result Q :=
  match ranges this !! i with
  | Some r => Ok (start r)
  | None => Throw TypeError
  end.

End BufferedRanges.

#[export] Instance BufferedRanges_ranges : Ranges.t BufferedRanges.t := {|
  Ranges.length := BufferedRanges.length;
  Ranges.start := BufferedRanges.start;
  Ranges.end_ := BufferedRanges.end_
|}.

(** ** The adapter *)

(** An element of the array [bufferedToArray] returns: a record built as
    [{ start, end }], or a range record of the engine. *)
Inductive item : Type :=
| Plain (p : StartEnd)
| Tagged (r : Range).

(** Modelled from the spec: [cloneArray] of [canal-js-utils/misc] is not
    part of the source; the spec calls its result a copy of the engine's
    collection: an array of the same length with the same records at the
    same positions. *)
Definition cloneArray {A : Type} (a : list A) : list A := a.

(** [while (++i < l) a[i] = { start: ranges.start(i), end: ranges.end(i) }],
    for the indices [i], [i + 1], ..., [i + n - 1]. *)
Fixpoint bufferedToArray_loop {C : Type} `{Ranges.t C} (ranges : C)
  (i n : nat) : result (list item) :=
  match n with
  | O => Ok []
  | S n' =>
      s <- Ranges.start ranges i ;;
      e <- Ranges.end_ ranges i ;;
      a <- bufferedToArray_loop ranges (S i) n' ;;
      Ok (Plain {| se_start := s; se_end := e |} :: a)
  end.

(** The argument of [bufferedToArray]: [ranges instanceof BufferedRanges]
    or not. *)
Inductive buffered (C : Type) : Type :=
| Own (ranges : BufferedRanges.t)
| Foreign (ranges : C).
Arguments Own {C} ranges.
Arguments Foreign {C} ranges.

Definition bufferedToArray {C : Type} `{Ranges.t C} (x : buffered C)
  : result (list item) :=
  match x with
  | Own ranges => Ok (map Tagged (cloneArray (BufferedRanges.ranges ranges)))
  | Foreign ranges =>
      bufferedToArray_loop ranges 0 (Ranges.length ranges)
  end.

(** ** The loops, by recursion on the part of the array not yet visited

    While a loop of the source runs, the array is [pre ++ suf] with
    [index = length pre]: [pre] holds the elements the loop has left
    behind and [suf] those it has still to visit.  The functions of this
    section compute what each loop does to [suf]; the lemmas [*_loop_from]
    below show that they agree with the loops on indices, for any fuel not
    less than the number of elements to visit. *)

Fixpoint removeEmptyRanges_from (suf : list Range) : list Range :=
  match suf with
  | [] => []
  | range :: rest =>
      if Qeq_bool (start range) (end_ range) then
        match rest with
        | r1 :: r2 :: rest' => r1 :: r2 :: removeEmptyRanges_from rest'
        | _ => rest
        end
      else range :: removeEmptyRanges_from rest
  end.

Fixpoint mergeContiguousRanges_from (prevRange : Range) (suf : list Range)
  : list Range :=
  match suf with
  | [] => [prevRange]
  | currRange :: rest =>
      if sameBitrate prevRange currRange
         && areContiguousWithRanges prevRange currRange
      then
        mergeContiguousRanges_from
          (unionWithOverlappingOrContiguousRange prevRange currRange
             (bitrate currRange)) rest
      else prevRange :: mergeContiguousRanges_from currRange rest
  end.

(** The scan of [insertInto] from [pre ++ suf] at [length pre]: the array
    it ends with, given as the part before the final index and the part
    from it on, and the added range. *)
Fixpoint insertInto_from (pre suf : list Range) (addedRange : Range)
  : list Range * list Range * Range :=
  match suf with
  | [] => (pre, [], addedRange)
  | currentRange :: rest =>
      let overlapping := areOverlappingRanges addedRange currentRange in
      let contiguous := areContiguousWithRanges addedRange currentRange in
      if overlapping || contiguous then
        if sameBitrate addedRange currentRange then
          insertInto_from pre rest
            (unionWithOverlappingOrContiguousRange addedRange currentRange
               (bitrate currentRange))
        else if overlapping then
          if isContainedInto currentRange addedRange then
            insertInto_from
              (pre ++ [set_end currentRange (start addedRange); addedRange])
              rest
              {| start := end_ addedRange;
                 end_ := end_ currentRange;
                 bitrate := bitrate currentRange |}
          else if isContainedInto addedRange currentRange then
            insertInto_from pre rest addedRange
          else if Qltb (start currentRange) (start addedRange) then
            insertInto_from
              (pre ++ [set_end currentRange (start addedRange)]) rest
              addedRange
          else
            (pre, set_start currentRange (end_ addedRange) :: rest,
             addedRange)
        else (pre, suf, addedRange)
      else
        match last pre with
        | None =>
            if isOrdered addedRange currentRange
            then (pre, suf, addedRange)
            else insertInto_from (pre ++ [currentRange]) rest addedRange
        | Some previous =>
            if isOrdered previous addedRange
               && isOrdered addedRange currentRange
            then (pre, suf, addedRange)
            else insertInto_from (pre ++ [currentRange]) rest addedRange
        end
  end.

Fixpoint intersect_from (suf others : list Range) : list Range :=
  match suf with
  | [] => []
  | range :: rest =>
      match findOverlappingRange range others with
      | None => intersect_from rest others
      | Some overlappingRange =>
          let range1 :=
            if Qltb (start range) (start overlappingRange)
            then set_start range (start overlappingRange) else range in
          let range2 :=
            if Qltb (end_ overlappingRange) (end_ range1)
            then set_end range1 (end_ overlappingRange) else range1 in
          range2 :: intersect_from rest others
      end
  end.


(** ** What the specification speaks of *)

(** A range is the half-open interval [[start, end)]. *)
Definition inRange (r : Range) (t : Q) : Prop := start r <= t /\ t < end_ r.

(** The timestamps some range of the array holds. *)
Definition covered (ranges : list Range) (t : Q) : Prop :=
  Exists (fun r => inRange r t) ranges.

(** [start < end], strictly. *)
Definition nonEmpty (r : Range) : Prop := start r < end_ r.

(** [a] is at or before [b], within the tolerance. *)
Definition nearlyLe (a b : Q) : Prop := a - b <= EPSILON.

(** The range tolerance-contains the interval [[a, b]]: each of
    [start <= a <= end] and [start <= b <= end] holds within the
    tolerance. *)
Definition toleranceContains (r : Range) (a b : Q) : Prop :=
  (nearlyLe (start r) a /\ nearlyLe a (end_ r))
  /\ (nearlyLe (start r) b /\ nearlyLe b (end_ r)).

(** The engines that valid calls of [insert] build from the empty one. *)
Inductive inserted : BufferedRanges.t -> Prop :=
| inserted_new : inserted BufferedRanges.new
| inserted_insert dev this b s e :
    inserted this -> 0 <= s -> s < e ->
    inserted (snd (BufferedRanges.insert dev this b s e)).

(** A collection whose accessors answer below its length: [st i] and
    [en i] are what [start(i)] and [end(i)] return. *)
Definition answers {C : Type} `{Ranges.t C} (ranges : C) (st en : nat -> Q)
  : Prop :=
  forall i, (i < Ranges.length ranges)%nat ->
    Ranges.start ranges i = Ok (st i) /\ Ranges.end_ ranges i = Ok (en i).

(** What the specification says [intersect] leaves of a range whose
    first overlapping range in [others] is [other]: the start clamped up
    to [other]'s start when that is later, the end clamped down to
    [other]'s end when that is earlier, the bitrate kept. *)
Definition clamped (range other : Range) : Range :=
  {| start := if Qltb (start range) (start other)
              then start other else start range;
     end_ := if Qltb (end_ other) (end_ range)
             then end_ other else end_ range;
     bitrate := bitrate range |}.

(** The loop of [intersect] range by range: a range for which
    [findOverlappingRange] finds nothing is dropped, the others are
    clamped to what it finds. *)
Definition intersect_clamped (ranges others : list Range) : list Range :=
  omap (fun range => clamped range <$> findOverlappingRange range others)
    ranges.

(** Two ranges overlap, as the specification means it: the intervals
    [[start, end)] share a timestamp, that is, the later start is before
    the earlier end. *)
Definition sharesTimestamp (r o : Range) : bool :=
  Qltb (Qmax (start r) (start o)) (Qmin (end_ r) (end_ o)).

(** What the specification says [intersect] leaves of the whole array:
    the ranges that overlap no range of [others] are dropped, the others
    are clamped to the first range of [others] that overlaps them. *)
Definition intersect_spec (ranges others : list Range) : list Range :=
  omap (fun range => clamped range <$> List.find (sharesTimestamp range) others)
    ranges.

(** [P] holds of every pair of neighbours of the array. *)
Fixpoint adjacent (P : Range -> Range -> Prop) (ranges : list Range) : Prop :=
  match ranges with
  | a :: (b :: _) as rest => P a b /\ adjacent P rest
  | _ => True
  end.

(** Ordered without overlap: [end(i) <= start(i+1)]. *)
Definition ordered : list Range -> Prop :=
  adjacent (fun a b => end_ a <= start b).

(** The first invariant of the specification: [end(i) <= start(i+1)]
    within the tolerance. *)
Definition nearlyOrdered : list Range -> Prop :=
  adjacent (fun a b => end_ a <= start b + EPSILON).

(** The second one, maximal merge: no two neighbours have the same
    bitrate and are contiguous. *)
Definition unmergeable : list Range -> Prop :=
  adjacent (fun a b =>
              sameBitrate a b && areContiguousWithRanges a b = false).

(** An array with at most one zero-length range, the others having
    [start < end]. *)
Definition oneEmptyAtMost (ranges : list Range) : Prop :=
  Forall nonEmpty ranges
  \/ exists l1 z l2,
       ranges = l1 ++ z :: l2
       /\ start z == end_ z /\ Forall nonEmpty l1 /\ Forall nonEmpty l2.

(** The array, the index and the added range of the scan of
    [insertInto], from the two parts of the array. *)
Definition scan_state (r : list Range * list Range * Range)
  : list Range * nat * Range :=
  let '(pre, suf, addedRange) := r in (pre ++ suf, length pre, addedRange).

(** ** More of what the code keeps *)

(** The engines that calls of [insert] and [intersect] build from the
    empty one, whatever their arguments and however they end. *)
Inductive reachable : BufferedRanges.t -> Prop :=
| reachable_new : reachable BufferedRanges.new
| reachable_insert dev this b s e :
    reachable this ->
    reachable (snd (BufferedRanges.insert dev this b s e))
| reachable_intersect this others :
    reachable this ->
    reachable (snd (BufferedRanges.intersect this others)).

(** The range holds the whole of [[s, e]]. *)
Definition holds (r : Range) (s e : Q) : Prop := start r <= s /\ e <= end_ r.

(** [start <= end]. *)
Definition weak (r : Range) : Prop := start r <= end_ r.

(** No range of a bitrate other than [b] ends less than the tolerance
    before [s]. *)
Definition noneEndsJustBefore (b : Z) (s : Q) (ranges : list Range) : Prop :=
  Forall (fun r => bitrate r = b \/ end_ r <= s - EPSILON \/ s <= end_ r)
    ranges.

(** The ranges that are not of zero length, by the test of
    [removeEmptyRanges]. *)
Definition nonZero (r : Range) : bool := negb (Qeq_bool (start r) (end_ r)).

(** The last range of the array, if any, ends at or before [x]. *)
Definition lastEndsBefore (ranges : list Range) (x : Q) : Prop :=
  match last ranges with
  | Some p => end_ p <= x
  | None => True
  end.

(** The first range of the array, if any, starts at or after [x]. *)
Definition firstStartsAfter (x : Q) (ranges : list Range) : Prop :=
  match head ranges with
  | Some q => x <= start q
  | None => True
  end.

(** Both bounds of the range satisfy [B]. *)
Definition bounds (B : Q -> Prop) (r : Range) : Prop :=
  B (start r) /\ B (end_ r).

(** [q] is the start or the end of a range of the array. *)
Definition boundOf (ranges : list Range) (q : Q) : Prop :=
  Exists (fun r => q = start r \/ q = end_ r) ranges.

(** The engines that calls of [insert] with [0 <= s < e] and bounds that
    satisfy [B] build from the empty one. *)
Inductive insertedOn (B : Q -> Prop) : BufferedRanges.t -> Prop :=
| insertedOn_new : insertedOn B BufferedRanges.new
| insertedOn_insert dev this b s e :
    insertedOn B this -> B s -> B e -> 0 <= s -> s < e ->
    insertedOn B (snd (BufferedRanges.insert dev this b s e)).

(** A whole number of seconds. *)
Definition wholeSeconds (q : Q) : Prop := exists z : Z, q = inject_Z z.

(** What [insertInto] does to the array once its scan is over: the two
    clean-up passes. *)
Definition cleanUp (ranges : list Range) : list Range :=
  match removeEmptyRanges_from ranges with
  | [] => []
  | first :: rest => mergeContiguousRanges_from first rest
  end.



(** Two numbers of the set are the same or at least the tolerance
    apart. *)
Definition apart (B : Q -> Prop) : Prop :=
  forall a b, B a -> B b -> a = b \/ a + EPSILON <= b \/ b + EPSILON <= a.
(** ** Comparisons as propositions *)

Lemma Qle_bool_true a b : Qle_bool a b = true <-> a <= b.
Proof. apply Qle_bool_iff. Qed.

Lemma Qle_bool_false a b : Qle_bool a b = false <-> b < a.
Proof.
  rewrite <- not_true_iff_false, Qle_bool_iff. split.
  - apply Qnot_le_lt.
  - apply Qlt_not_le.
Qed.

Lemma Qltb_true a b : Qltb a b = true <-> a < b.
Proof. unfold Qltb. rewrite negb_true_iff. apply Qle_bool_false. Qed.

Lemma Qltb_false a b : Qltb a b = false <-> b <= a.
Proof. unfold Qltb. rewrite negb_false_iff. apply Qle_bool_true. Qed.

Lemma Qeq_bool_true a b : Qeq_bool a b = true <-> a == b.
Proof. apply Qeq_bool_iff. Qed.

Lemma Qeq_bool_false a b : Qeq_bool a b = false <-> ~ a == b.
Proof. rewrite <- not_true_iff_false, Qeq_bool_iff. reflexivity. Qed.

Lemma nearlyEqual_true a b :
  nearlyEqual a b = true <-> - EPSILON < a - b /\ a - b < EPSILON.
Proof. unfold nearlyEqual. rewrite Qltb_true. apply Qabs_Qlt_condition. Qed.

Lemma nearlyEqual_false a b :
  nearlyEqual a b = false <-> a - b <= - EPSILON \/ EPSILON <= a - b.
Proof.
  rewrite <- not_true_iff_false, nearlyEqual_true. split.
  - intros H. destruct (Qlt_le_dec (- EPSILON) (a - b)) as [H1 | H1].
    + destruct (Qlt_le_dec (a - b) EPSILON) as [H2 | H2].
      * exfalso. apply H. split; assumption.
      * right. assumption.
    + left. assumption.
  - intros [H | H] [H1 H2]; lra.
Qed.

Lemma nearlyLt_true a b : nearlyLt a b = true <-> a - b <= EPSILON.
Proof. apply Qle_bool_true. Qed.

Lemma nearlyLt_false a b : nearlyLt a b = false <-> EPSILON < a - b.
Proof. apply Qle_bool_false. Qed.


Lemma Qmin_cases a b : (a <= b /\ Qmin a b = a) \/ (b < a /\ Qmin a b = b).
Proof.
  unfold Qmin, GenericMinMax.gmin.
  destruct (Qcompare_spec a b) as [H | H | H].
  - left. split; [rewrite H; apply Qle_refl | reflexivity].
  - left. split; [apply Qlt_le_weak; assumption | reflexivity].
  - right. split; [assumption | reflexivity].
Qed.

Lemma Qmax_cases a b : (a < b /\ Qmax a b = b) \/ (b <= a /\ Qmax a b = a).
Proof.
  unfold Qmax, GenericMinMax.gmax.
  destruct (Qcompare_spec a b) as [H | H | H].
  - right. split; [rewrite H; apply Qle_refl | reflexivity].
  - left. split; [assumption | reflexivity].
  - right. split; [apply Qlt_le_weak; assumption | reflexivity].
Qed.

(** The tests on ranges, unfolded to comparisons. *)
Ltac unfold_tests :=
  unfold isContainedInto, areOverlappingRanges, areContiguousWithRanges,
    isOrdered, isPointInRange, sameBitrate in *.

(** Turns the boolean tests of a hypothesis into inequalities on [Q]. *)
Ltac reflect_in H :=
  repeat
    (progress
       rewrite ?andb_true_iff, ?andb_false_iff, ?orb_true_iff,
         ?orb_false_iff, ?Qle_bool_true, ?Qle_bool_false, ?Qltb_true,
         ?Qltb_false, ?Qeq_bool_true, ?Qeq_bool_false, ?nearlyEqual_true,
         ?nearlyEqual_false, ?nearlyLt_true, ?nearlyLt_false, ?Z.eqb_eq,
         ?Z.eqb_neq in H).

Ltac reflect_tests :=
  unfold_tests;
  repeat match goal with
    | H : _ = true |- _ => progress reflect_in H
    | H : _ = false |- _ => progress reflect_in H
    end.

(** Closes a goal that follows from the tests of the context by linear
    arithmetic. *)
Ltac solve_tests :=
  reflect_tests; unfold EPSILON, inRange, nonEmpty in *; simpl in *;
  intuition (try lra).
(** ** Arrays: splicing at the end of a prefix *)

Section Splice.
Context {A : Type}.
Implicit Types (pre suf ins : list A) (x y : A).

Lemma splice_app_length pre suf del ins :
  splice (length pre) del ins (pre ++ suf) = pre ++ ins ++ drop del suf.
Proof.
  unfold splice.
  rewrite take_app_length, drop_app_add'; [reflexivity | lia].
Qed.

Lemma splice_remove pre x suf :
  splice (length pre) 1 [] (pre ++ x :: suf) = pre ++ suf.
Proof. rewrite splice_app_length. reflexivity. Qed.

Lemma splice_insert_after pre x y suf :
  splice (length pre + 1) 0 [y] (pre ++ x :: suf) = pre ++ x :: y :: suf.
Proof.
  replace (length pre + 1)%nat with (length (pre ++ [x]))
    by (rewrite length_app; reflexivity).
  replace (pre ++ x :: suf) with ((pre ++ [x]) ++ suf)
    by (rewrite <- app_assoc; reflexivity).
  rewrite splice_app_length, <- app_assoc. reflexivity.
Qed.

Lemma splice_insert_at pre y suf :
  splice (length pre) 0 [y] (pre ++ suf) = pre ++ y :: suf.
Proof. rewrite splice_app_length. reflexivity. Qed.


Lemma lookup_at_length pre x suf : (pre ++ x :: suf) !! length pre = Some x.
Proof. apply list_lookup_middle. reflexivity. Qed.

Lemma lookup_past_length pre : pre !! length pre = None.
Proof. apply lookup_ge_None. lia. Qed.

Lemma insert_at_length pre x y suf :
  <[length pre := y]> (pre ++ x :: suf) = pre ++ y :: suf.
Proof.
  rewrite insert_app_r_alt by lia.
  rewrite Nat.sub_diag. reflexivity.
Qed.

Lemma lookup_before_length pre suf :
  pre <> [] -> (pre ++ suf) !! (length pre - 1)%nat = last pre.
Proof.
  intros Hne. rewrite last_lookup.
  replace (length pre - 1)%nat with (pred (length pre)) by lia.
  rewrite lookup_app_l; [reflexivity |].
  destruct pre; [congruence | simpl; lia].
Qed.
End Splice.

(** ** The loops on indices and the recursive ones agree *)

Lemma removeEmptyRanges_loop_from fuel : forall pre suf,
  (length suf <= fuel)%nat ->
  removeEmptyRanges_loop fuel (pre ++ suf) (length pre)
  = pre ++ removeEmptyRanges_from suf.
Proof.
  induction fuel as [| fuel IH]; intros pre suf Hfuel.
  - destruct suf; [| simpl in Hfuel; lia].
    simpl. reflexivity.
  - destruct suf as [| range rest]; simpl.
    + rewrite app_nil_r, lookup_past_length. reflexivity.
    + rewrite lookup_at_length, splice_remove.
      simpl in Hfuel.
      destruct (Qeq_bool (start range) (end_ range)).
      * destruct rest as [| r1 [| r2 rest']].
        -- rewrite app_nil_r. destruct fuel; [reflexivity |].
           simpl. rewrite (proj2 (lookup_ge_None _ _)) by lia. reflexivity.
        -- destruct fuel; [reflexivity |].
           simpl.
           rewrite (proj2 (lookup_ge_None _ _))
             by (rewrite length_app; simpl; lia).
           reflexivity.
        -- replace (length pre + 2)%nat with (length (pre ++ [r1; r2]))
             by (rewrite length_app; reflexivity).
           replace (pre ++ r1 :: r2 :: rest') with ((pre ++ [r1; r2]) ++ rest')
             by (rewrite <- app_assoc; reflexivity).
           rewrite IH by (simpl in Hfuel; lia).
           rewrite <- app_assoc. reflexivity.
      * replace (length pre + 1)%nat with (length (pre ++ [range]))
          by (rewrite length_app; reflexivity).
        replace (pre ++ range :: rest) with ((pre ++ [range]) ++ rest)
          by (rewrite <- app_assoc; reflexivity).
        rewrite IH by lia.
        rewrite <- app_assoc. reflexivity.
Qed.

Lemma removeEmptyRanges_eq ranges :
  removeEmptyRanges ranges = removeEmptyRanges_from ranges.
Proof.
  unfold removeEmptyRanges.
  apply (removeEmptyRanges_loop_from (length ranges) [] ranges). lia.
Qed.

Lemma mergeContiguousRanges_loop_from fuel : forall pre prevRange suf,
  (length suf <= fuel)%nat ->
  mergeContiguousRanges_loop fuel (pre ++ prevRange :: suf) (length pre + 1)
  = pre ++ mergeContiguousRanges_from prevRange suf.
Proof.
  induction fuel as [| fuel IH]; intros pre prevRange suf Hfuel.
  - destruct suf; [| simpl in Hfuel; lia].
    reflexivity.
  - simpl mergeContiguousRanges_loop.
    replace (length pre + 1 - 1)%nat with (length pre) by lia.
    rewrite lookup_at_length.
    destruct suf as [| currRange rest].
    + rewrite (proj2 (lookup_ge_None _ _))
        by (rewrite length_app; simpl; lia).
      reflexivity.
    + replace ((pre ++ prevRange :: currRange :: rest) !! (length pre + 1)%nat)
        with (Some currRange).
      2:{ replace (pre ++ prevRange :: currRange :: rest)
            with ((pre ++ [prevRange]) ++ currRange :: rest)
            by (rewrite <- app_assoc; reflexivity).
          symmetry. apply list_lookup_middle.
          rewrite length_app. reflexivity. }
      simpl in Hfuel. simpl mergeContiguousRanges_from.
      destruct (sameBitrate prevRange currRange
                && areContiguousWithRanges prevRange currRange).
      * rewrite splice_app_length. simpl.
        apply IH. lia.
      * replace (pre ++ prevRange :: currRange :: rest)
          with ((pre ++ [prevRange]) ++ currRange :: rest)
          by (rewrite <- app_assoc; reflexivity).
        replace (length pre + 1 + 1)%nat
          with (length (pre ++ [prevRange]) + 1)%nat
          by (rewrite length_app; reflexivity).
        rewrite IH by lia.
        rewrite <- app_assoc. reflexivity.
Qed.

Lemma mergeContiguousRanges_eq ranges :
  mergeContiguousRanges ranges
  = match ranges with
    | [] => []
    | first :: rest => mergeContiguousRanges_from first rest
    end.
Proof.
  unfold mergeContiguousRanges. destruct ranges as [| first rest].
  - reflexivity.
  - apply (mergeContiguousRanges_loop_from _ [] first rest). simpl. lia.
Qed.

Lemma insertInto_loop_from fuel : forall pre suf addedRange,
  (length suf < fuel)%nat ->
  insertInto_loop fuel (pre ++ suf) (length pre) addedRange
  = scan_state (insertInto_from pre suf addedRange).
Proof.
  induction fuel as [| fuel IH]; intros pre suf addedRange Hfuel; [lia |].
  destruct suf as [| currentRange rest].
  { simpl. rewrite app_nil_r, lookup_past_length. reflexivity. }
  simpl in Hfuel.
  assert (Hnext : forall x,
    insertInto_loop fuel (pre ++ x :: rest) (length pre + 1) addedRange
    = scan_state (insertInto_from (pre ++ [x]) rest addedRange)).
  { intros x.
    replace (pre ++ x :: rest) with ((pre ++ [x]) ++ rest)
      by (rewrite <- app_assoc; reflexivity).
    replace (length pre + 1)%nat with (length (pre ++ [x]))
      by (rewrite length_app; reflexivity).
    apply IH. lia. }
  simpl insertInto_loop. rewrite lookup_at_length. simpl insertInto_from.
  destruct (areOverlappingRanges addedRange currentRange
            || areContiguousWithRanges addedRange currentRange).
  - destruct (sameBitrate addedRange currentRange).
    { rewrite splice_remove. apply IH. lia. }
    destruct (areOverlappingRanges addedRange currentRange);
      [| reflexivity].
    destruct (isContainedInto currentRange addedRange).
    { rewrite splice_insert_after, insert_at_length.
      replace (pre ++ set_end currentRange (start addedRange)
                 :: addedRange :: rest)
        with ((pre ++ [set_end currentRange (start addedRange); addedRange])
                ++ rest)
        by (rewrite <- app_assoc; reflexivity).
      replace (length pre + 2)%nat
        with (length
                (pre ++ [set_end currentRange (start addedRange); addedRange]))
        by (rewrite length_app; reflexivity).
      apply IH. lia. }
    destruct (isContainedInto addedRange currentRange).
    { rewrite splice_remove. apply IH. lia. }
    destruct (Qltb (start currentRange) (start addedRange)).
    { rewrite insert_at_length. apply Hnext. }
    rewrite insert_at_length. reflexivity.
  - destruct pre as [| p pre'].
    + simpl. destruct (isOrdered addedRange currentRange); [reflexivity |].
      apply (Hnext currentRange).
    + replace (length (p :: pre') =? 0)%nat with false by reflexivity.
      rewrite lookup_before_length by discriminate.
      destruct (last (p :: pre')) as [previous |] eqn:Hlast.
      * destruct (isOrdered previous addedRange
                  && isOrdered addedRange currentRange); [reflexivity |].
        apply (Hnext currentRange).
      * apply last_None in Hlast. discriminate.
Qed.

Lemma intersect_loop_from others fuel : forall pre suf,
  (length suf <= fuel)%nat ->
  intersect_loop fuel (pre ++ suf) others (length pre)
  = pre ++ intersect_from suf others.
Proof.
  induction fuel as [| fuel IH]; intros pre suf Hfuel.
  - destruct suf; [| simpl in Hfuel; lia].
    reflexivity.
  - destruct suf as [| range rest]; simpl.
    + rewrite app_nil_r, lookup_past_length. reflexivity.
    + rewrite lookup_at_length. simpl in Hfuel.
      destruct (findOverlappingRange range others) as [o |].
      * rewrite insert_at_length.
        match goal with
        | |- context [pre ++ ?x :: rest] =>
            replace (pre ++ x :: rest) with ((pre ++ [x]) ++ rest)
              by (rewrite <- app_assoc; reflexivity);
            replace (length pre + 1)%nat with (length (pre ++ [x]))
              by (rewrite length_app; reflexivity)
        end.
        rewrite IH by lia. rewrite <- app_assoc. reflexivity.
      * rewrite splice_remove. apply IH. lia.
Qed.

Lemma intersect_eq ranges others :
  intersect ranges others = intersect_from ranges others.
Proof.
  unfold intersect.
  apply (intersect_loop_from others (length ranges) [] ranges). lia.
Qed.

(** [insertInto] in terms of the recursive passes: the call never runs
    out of fuel. *)
Lemma insertInto_eq ranges b s e :
  insertInto ranges b s e
  = if negb (Qle_bool s e) then (Throw AssertionError, ranges)
    else if Qeq_bool s e then (Ok tt, ranges)
    else
      let '(pre, suf, addedRange) :=
        insertInto_from [] ranges
          {| start := s; end_ := e; bitrate := b |} in
      (Ok tt,
       match removeEmptyRanges_from (pre ++ addedRange :: suf) with
       | [] => []
       | first :: rest => mergeContiguousRanges_from first rest
       end).
Proof.
  unfold insertInto, assert. destruct (Qle_bool s e); [| reflexivity].
  unfold negb. destruct (Qeq_bool s e); [reflexivity |].
  assert (Hloop :
    insertInto_loop (S (length ranges)) ranges 0
      {| start := s; end_ := e; bitrate := b |}
    = scan_state
        (insertInto_from [] ranges
           {| start := s; end_ := e; bitrate := b |})).
  { apply (insertInto_loop_from (S (length ranges)) [] ranges). lia. }
  rewrite Hloop.
  destruct (insertInto_from [] ranges _) as [[pre suf] addedRange].
  unfold scan_state. cbv beta iota.
  rewrite splice_insert_at, removeEmptyRanges_eq, mergeContiguousRanges_eq.
  reflexivity.
Qed.

(** ** Coverage *)

Lemma covered_app l1 l2 t : covered (l1 ++ l2) t <-> covered l1 t \/ covered l2 t.
Proof. apply Exists_app. Qed.

Lemma covered_cons r l t : covered (r :: l) t <-> inRange r t \/ covered l t.
Proof. apply Exists_cons. Qed.


Lemma union_nonEmpty r1 r2 b :
  nonEmpty r1 -> nonEmpty (unionWithOverlappingOrContiguousRange r1 r2 b).
Proof.
  unfold nonEmpty. simpl. intros H.
  destruct (Qmin_cases (start r1) (start r2)) as [[? ->] | [? ->]];
    destruct (Qmax_cases (end_ r1) (end_ r2)) as [[? ->] | [? ->]]; lra.
Qed.

Lemma union_inRange r1 r2 b t :
  inRange r1 t \/ inRange r2 t ->
  inRange (unionWithOverlappingOrContiguousRange r1 r2 b) t.
Proof.
  unfold inRange. simpl. intros H.
  destruct (Qmin_cases (start r1) (start r2)) as [[? ->] | [? ->]];
    destruct (Qmax_cases (end_ r1) (end_ r2)) as [[? ->] | [? ->]];
    destruct H as [[? ?] | [? ?]]; split; lra.
Qed.

(** The pass over zero-length ranges only ever drops a range that holds
    no timestamp. *)
Lemma removeEmptyRanges_from_covered t : forall n suf,
  (length suf <= n)%nat ->
  covered suf t -> covered (removeEmptyRanges_from suf) t.
Proof.
  induction n as [| n IH]; intros suf Hlen Hcov.
  - destruct suf; [exact Hcov | simpl in Hlen; lia].
  - destruct suf as [| range rest]; [exact Hcov |].
    simpl in Hlen. simpl.
    destruct (Qeq_bool (start range) (end_ range)) eqn:Hempty.
    + apply covered_cons in Hcov. destruct Hcov as [[H1 H2] | Hcov].
      { apply Qeq_bool_true in Hempty. lra. }
      destruct rest as [| r1 [| r2 rest']]; try exact Hcov.
      apply covered_cons in Hcov. destruct Hcov as [H | Hcov].
      { apply covered_cons. left. exact H. }
      apply covered_cons in Hcov. destruct Hcov as [H | Hcov].
      { apply covered_cons. right. apply covered_cons. left. exact H. }
      apply covered_cons. right. apply covered_cons. right.
      apply IH; [simpl in Hlen; lia | exact Hcov].
    + apply covered_cons in Hcov. apply covered_cons.
      destruct Hcov as [H | Hcov]; [left; exact H | right].
      apply IH; [lia | exact Hcov].
Qed.

Lemma mergeContiguousRanges_from_covered t : forall suf prevRange,
  covered (prevRange :: suf) t ->
  covered (mergeContiguousRanges_from prevRange suf) t.
Proof.
  induction suf as [| currRange rest IH]; intros prevRange Hcov;
    [exact Hcov |].
  simpl.
  destruct (sameBitrate prevRange currRange
            && areContiguousWithRanges prevRange currRange).
  - apply IH. apply covered_cons in Hcov. apply covered_cons.
    destruct Hcov as [H | Hcov].
    { left. apply union_inRange. left. exact H. }
    apply covered_cons in Hcov. destruct Hcov as [H | Hcov].
    { left. apply union_inRange. right. exact H. }
    right. exact Hcov.
  - apply covered_cons in Hcov. apply covered_cons.
    destruct Hcov as [H | Hcov]; [left; exact H | right].
    apply IH. exact Hcov.
Qed.

(** The four ways in which the scan changes the range it visits; none
    loses a timestamp. *)
Lemma split_nonEmpty currentRange addedRange :
  isContainedInto currentRange addedRange = true ->
  nonEmpty {| start := end_ addedRange;
              end_ := end_ currentRange;
              bitrate := bitrate currentRange |}.
Proof. intros H. solve_tests. Qed.

Lemma split_inRange currentRange addedRange t :
  inRange currentRange t ->
  inRange (set_end currentRange (start addedRange)) t
  \/ inRange addedRange t
  \/ inRange {| start := end_ addedRange;
                end_ := end_ currentRange;
                bitrate := bitrate currentRange |} t.
Proof.
  intros H. unfold inRange in *. simpl.
  destruct (Qlt_le_dec t (start addedRange));
    destruct (Qlt_le_dec t (end_ addedRange)); lra.
Qed.

Lemma superseded_inRange currentRange addedRange t :
  isContainedInto addedRange currentRange = true ->
  inRange currentRange t -> inRange addedRange t.
Proof. intros H1 H2. solve_tests. Qed.

Lemma trim_end_inRange currentRange addedRange t :
  nonEmpty addedRange ->
  areOverlappingRanges addedRange currentRange = true ->
  isContainedInto currentRange addedRange = false ->
  Qltb (start currentRange) (start addedRange) = true ->
  inRange currentRange t ->
  inRange (set_end currentRange (start addedRange)) t
  \/ inRange addedRange t.
Proof.
  intros Hne H1 H2 H3 H4.
  destruct (Qlt_le_dec t (start addedRange)); solve_tests.
Qed.

Lemma trim_start_inRange currentRange addedRange t :
  Qltb (start currentRange) (start addedRange) = false ->
  inRange currentRange t ->
  inRange (set_start currentRange (end_ addedRange)) t
  \/ inRange addedRange t.
Proof.
  intros H1 H2.
  destruct (Qlt_le_dec t (end_ addedRange)); solve_tests.
Qed.

(** The scan: what the array or the added range held before a step, the
    array with the added range spliced in holds at the end. *)
Lemma insertInto_from_covered t : forall suf pre addedRange,
  nonEmpty addedRange ->
  covered (pre ++ suf) t \/ inRange addedRange t ->
  let '(pre', suf', addedRange') := insertInto_from pre suf addedRange in
  covered (pre' ++ addedRange' :: suf') t.
Proof.
  induction suf as [| currentRange rest IH]; intros pre addedRange Hne Hcov.
  { simpl. apply covered_app. rewrite app_nil_r in Hcov.
    destruct Hcov as [H | H]; [left; exact H |].
    right. apply covered_cons. left. exact H. }
  assert (Hsplit :
    covered pre t \/ inRange currentRange t \/ covered rest t
    \/ inRange addedRange t).
  { destruct Hcov as [H | H]; [| tauto].
    apply covered_app in H. destruct H as [H | H]; [tauto |].
    apply covered_cons in H. tauto. }
  clear Hcov.
  assert (Hstep : forall x,
    (inRange currentRange t -> inRange x t \/ inRange addedRange t) ->
    let '(pre', suf', addedRange') :=
      insertInto_from (pre ++ [x]) rest addedRange in
    covered (pre' ++ addedRange' :: suf') t).
  { intros x Hx. apply IH; [exact Hne |].
    rewrite <- app_assoc. simpl.
    rewrite covered_app, covered_cons. tauto. }
  assert (Hmerge :
    let '(pre', suf', addedRange') :=
      insertInto_from pre rest
        (unionWithOverlappingOrContiguousRange addedRange currentRange
           (bitrate currentRange)) in
    covered (pre' ++ addedRange' :: suf') t).
  { apply IH; [apply union_nonEmpty; exact Hne |].
    rewrite covered_app.
    pose proof (union_inRange addedRange currentRange (bitrate currentRange) t).
    tauto. }
  assert (Hbreak : covered (pre ++ addedRange :: currentRange :: rest) t).
  { rewrite covered_app, !covered_cons. tauto. }
  simpl insertInto_from.
  destruct (areOverlappingRanges addedRange currentRange) eqn:Hover.
  - cbn [orb].
    destruct (sameBitrate addedRange currentRange); [exact Hmerge |].
    destruct (isContainedInto currentRange addedRange) eqn:Hin1.
    { apply IH; [apply split_nonEmpty; exact Hin1 |].
      rewrite <- app_assoc. simpl.
      rewrite covered_app, !covered_cons.
      pose proof (split_inRange currentRange addedRange t). tauto. }
    destruct (isContainedInto addedRange currentRange) eqn:Hin2.
    { apply IH; [exact Hne |].
      rewrite covered_app.
      pose proof (superseded_inRange currentRange addedRange t Hin2).
      tauto. }
    destruct (Qltb (start currentRange) (start addedRange)) eqn:Hlt.
    { apply Hstep.
      apply (trim_end_inRange _ _ _ Hne Hover Hin1 Hlt). }
    rewrite covered_app, !covered_cons.
    pose proof (trim_start_inRange currentRange addedRange t Hlt). tauto.
  - cbn [orb].
    destruct (areContiguousWithRanges addedRange currentRange).
    { destruct (sameBitrate addedRange currentRange);
        [exact Hmerge | exact Hbreak]. }
    assert (Hcontinue :
      let '(pre', suf', addedRange') :=
        insertInto_from (pre ++ [currentRange]) rest addedRange in
      covered (pre' ++ addedRange' :: suf') t).
    { apply Hstep. tauto. }
    destruct (last pre) as [previous |].
    + destruct (isOrdered previous addedRange
                && isOrdered addedRange currentRange); assumption.
    + destruct (isOrdered addedRange currentRange); assumption.
Qed.

Lemma insertInto_covered ranges b s e :
  s < e ->
  exists rs,
    insertInto ranges b s e = (Ok tt, rs)
    /\ forall t, covered ranges t \/ s <= t < e -> covered rs t.
Proof.
  intros Hlt. rewrite insertInto_eq.
  rewrite (proj2 (Qle_bool_true s e)) by lra.
  replace (Qeq_bool s e) with false
    by (symmetry; apply Qeq_bool_false; lra).
  cbn [negb].
  destruct (insertInto_from [] ranges {| start := s; end_ := e; bitrate := b |})
    as [[pre suf] addedRange] eqn:Hscan.
  eexists. split; [reflexivity |].
  intros t Ht.
  assert (Hcov : covered (pre ++ addedRange :: suf) t).
  { pose proof (insertInto_from_covered t ranges []
                  {| start := s; end_ := e; bitrate := b |}) as H.
    rewrite Hscan in H. apply H; [exact Hlt | exact Ht]. }
  apply (removeEmptyRanges_from_covered t _ _ (Nat.le_refl _)) in Hcov.
  destruct (removeEmptyRanges_from (pre ++ addedRange :: suf))
    as [| first rest].
  - exact Hcov.
  - apply mergeContiguousRanges_from_covered. exact Hcov.
Qed.

(** ** The free [getRange] and [getGap] *)

Section GetRange.
Context {C : Type} `{Ranges.t C}.
Variables (ranges : C) (st en : nat -> Q) (ts : Q).
Hypothesis Hanswers : answers ranges st en.

(** The loop from the index [i] down, entered with the cursor [c]. *)
Lemma getRange_loop_spec : forall i c,
  (i <= Ranges.length ranges)%nat ->
  exists c',
    getRange_loop ts ranges i c = Ok c'
    /\ (before_cursor ts c = false -> c' = c)
    /\ (before_cursor ts c = true ->
        (forall k, (k < i)%nat -> st k <= ts ->
           (forall j, (k < j < i)%nat -> ts < st j) ->
           c' = Read (st k) (en k))
        /\ ((forall k, (k < i)%nat -> ts < st k) ->
            before_cursor ts c' = true)).
Proof.
  induction i as [| i IH]; intros c Hi.
  - exists c. simpl. split; [reflexivity |]. split; [reflexivity |].
    intros Hc. split; [intros k Hk; lia | intros _; exact Hc].
  - simpl. destruct (before_cursor ts c) eqn:Hc.
    + destruct (Hanswers i) as [-> ->]; [lia |]. simpl.
      destruct (IH (Read (st i) (en i))) as (c' & Hrun & Hstop & Hgo);
        [lia |].
      exists c'. split; [exact Hrun |]. split; [discriminate |].
      intros _. simpl in Hstop, Hgo.
      destruct (Qltb ts (st i)) eqn:Hlt.
      * destruct (Hgo eq_refl) as [Hfound Hnone]. split.
        -- intros k Hk Hle Hhigh.
           assert (k <> i).
           { intros ->. apply Qltb_true in Hlt. lra. }
           apply Hfound; [lia | exact Hle |].
           intros j Hj. apply Hhigh. lia.
        -- intros Hall. apply Hnone. intros k Hk. apply Hall. lia.
      * rewrite (Hstop eq_refl). apply Qltb_false in Hlt. split.
        -- intros k Hk Hle Hhigh.
           destruct (Nat.eq_dec k i) as [-> | Hne]; [reflexivity |].
           assert (ts < st i) by (apply Hhigh; lia). lra.
        -- intros Hall. assert (ts < st i) by (apply Hall; lia). lra.
    + exists c. split; [reflexivity |]. split; [reflexivity | discriminate].
Qed.

(** [getRange] returns the highest-indexed range that starts at or
    before [ts], whatever its end. *)
Lemma getRange_found k :
  (k < Ranges.length ranges)%nat ->
  st k <= ts ->
  (forall j, (k < j < Ranges.length ranges)%nat -> ts < st j) ->
  getRange ts ranges = Ok (Some {| se_start := st k; se_end := en k |}).
Proof.
  intros Hk Hle Hhigh. unfold getRange.
  destruct (getRange_loop_spec (Ranges.length ranges) Unread)
    as (c' & -> & _ & Hgo); [lia |].
  destruct (Hgo eq_refl) as [Hfound _].
  rewrite (Hfound k Hk Hle Hhigh). simpl.
  rewrite (proj2 (Qle_bool_true _ _) Hle). reflexivity.
Qed.

Lemma getRange_null :
  (forall k, (k < Ranges.length ranges)%nat -> ts < st k) ->
  getRange ts ranges = Ok None.
Proof.
  intros Hall. unfold getRange.
  destruct (getRange_loop_spec (Ranges.length ranges) Unread)
    as (c' & -> & _ & Hgo); [lia |].
  destruct (Hgo eq_refl) as [_ Hnone]. specialize (Hnone Hall).
  simpl. destruct c' as [| s e]; [reflexivity |].
  simpl in Hnone. unfold Qltb in Hnone.
  apply negb_true_iff in Hnone. rewrite Hnone. reflexivity.
Qed.

(** Some range starts at or before [ts], or none does. *)
Lemma highest_start : forall n,
  (exists k, (k < n)%nat /\ st k <= ts
             /\ forall j, (k < j < n)%nat -> ts < st j)
  \/ (forall k, (k < n)%nat -> ts < st k).
Proof.
  induction n as [| n IH].
  - right. intros k Hk. lia.
  - destruct (Qlt_le_dec ts (st n)) as [Hlt | Hle].
    + destruct IH as [(k & Hk & Hle & Hhigh) | Hall].
      * left. exists k. split; [lia |]. split; [exact Hle |].
        intros j Hj. destruct (Nat.eq_dec j n) as [-> | Hne];
          [exact Hlt | apply Hhigh; lia].
      * right. intros k Hk. destruct (Nat.eq_dec k n) as [-> | Hne];
          [exact Hlt | apply Hall; lia].
    + left. exists n. split; [lia |]. split; [exact Hle |].
      intros j Hj. lia.
Qed.
End GetRange.


(** C5.  On a collection whose accessors answer below its length, the
    free [getRange(ts, ranges)] returns the [{start, end}] pair of the
    highest-indexed range whose start is at or before [ts], without
    looking at its end, and [getGap] is then [end - ts]; [getRange]
    returns [null] exactly when no range starts at or before [ts], and
    [getGap] is then [Infinity].  On the engine that holds the single
    range [{0, 10, bitrate = 1}]: [getGap(5) = 5], [getGap(15) = -5],
    [getGap(-1) = Infinity]. *)
Theorem getRange_highest_start {C : Type} `{Ranges.t C}
  (ranges : C) (st en : nat -> Q) (ts : Q) :
  answers ranges st en ->
  (forall k, (k < Ranges.length ranges)%nat ->
     st k <= ts ->
     (forall j, (k < j < Ranges.length ranges)%nat -> ts < st j) ->
     getRange ts ranges = Ok (Some {| se_start := st k; se_end := en k |})
     /\ getGap ts (IsRanges ranges) = Ok (Finite (en k - ts)))
  /\ (getRange ts ranges = Ok None
      <-> forall k, (k < Ranges.length ranges)%nat -> ts < st k)
  /\ ((forall k, (k < Ranges.length ranges)%nat -> ts < st k) ->
      getGap ts (IsRanges ranges) = Ok Infinity)
  /\ (let one := snd (BufferedRanges.insert false BufferedRanges.new 1 0 10) in
      getGap 5 (IsRanges one) = Ok (Finite 5)
      /\ getGap 15 (IsRanges one) = Ok (Finite (-5))
      /\ getGap (-1) (IsRanges one) = Ok Infinity).
Proof.
  intros Hanswers.
  split; [| split; [split |]; [| | split; [| repeat split]]].
  - intros k Hk Hle Hhigh. split.
    + apply (getRange_found ranges st en ts Hanswers); assumption.
    + unfold getGap, resolve.
      rewrite (getRange_found ranges st en ts Hanswers k) by assumption.
      reflexivity.
  - intros Hnull.
    destruct (highest_start st ts (Ranges.length ranges))
      as [(k & Hk & Hle & Hhigh) | Hall]; [| exact Hall].
    rewrite (getRange_found ranges st en ts Hanswers k Hk Hle Hhigh) in Hnull.
    discriminate.
  - apply (getRange_null ranges st en ts Hanswers).
  - intros Hall. unfold getGap, resolve.
    rewrite (getRange_null ranges st en ts Hanswers Hall). reflexivity.
Qed.

Lemma getRange_highest_start_witness :
  getGap 15
    (IsRanges (snd (BufferedRanges.insert false BufferedRanges.new 1 0 10)))
  = Ok (Finite (10 - 15)).
Proof.
  refine (proj2
            (proj1
               (getRange_highest_start
                  (snd (BufferedRanges.insert false BufferedRanges.new 1 0 10))
                  (fun _ => 0) (fun _ => 10) 15 _)
               0%nat _ _ _)).
  - intros i Hi. simpl in Hi.
    destruct i as [| i]; [split; reflexivity | lia].
  - simpl. lia.
  - discriminate.
  - intros j Hj. simpl in Hj. lia.
Defined.

(** ** [hasRange] *)

Lemma hasRange_test r a b :
  (nearlyLt (start r) a && nearlyLt a (end_ r))
  && (nearlyLt (start r) b && nearlyLt b (end_ r)) = true
  <-> toleranceContains r a b.
Proof.
  unfold toleranceContains, nearlyLe.
  rewrite !andb_true_iff, !nearlyLt_true. reflexivity.
Qed.



Lemma hasRange_loop_None rs a b :
  BufferedRanges.hasRange_loop rs a b = None
  <-> forall r, In r rs -> ~ toleranceContains r a b.
Proof.
  induction rs as [| r0 rs IH]; simpl.
  - split; [intros _ r [] | reflexivity].
  - destruct (_ && _) eqn:Htest.
    + split; [discriminate |]. intros Hall. exfalso.
      apply (Hall r0); [left; reflexivity |].
      apply hasRange_test. exact Htest.
    + rewrite IH. split.
      * intros Hall r [<- | Hin]; [| apply Hall; exact Hin].
        rewrite <- hasRange_test, Htest. discriminate.
      * intros Hall r Hin. apply Hall. right. exact Hin.
Qed.




(** ** Rejected and empty insertions *)

(** C9.  [insert] called with [start > end] throws an assertion failure
    and leaves the engine as it was, in validating builds and in the
    others; called with [start == end] outside validating builds, it
    returns with the range list unchanged. *)
Theorem insert_rejected_or_noop
  (dev : bool) (this : BufferedRanges.t) (b : Z) (s e : Q) :
  (e < s -> BufferedRanges.insert dev this b s e = (Throw AssertionError, this))
  /\ (s == e ->
      BufferedRanges.insert false this b s e
      = (Ok (BufferedRanges.ranges this),
         {| BufferedRanges.ranges := BufferedRanges.ranges this;
            BufferedRanges.length :=
              length (BufferedRanges.ranges this) |})).
Proof.
  split.
  - intros Hgt. unfold BufferedRanges.insert, insertInto, assert.
    assert (Hle : Qle_bool s e = false) by (apply Qle_bool_false; lra).
    assert (Hpos : Qltb 0 (e - s) = false) by (apply Qltb_false; lra).
    rewrite Hle, Hpos. destruct this as [rs n].
    destruct dev; [destruct (Qle_bool 0 s) |]; reflexivity.
  - intros Heq. unfold BufferedRanges.insert, insertInto, assert.
    rewrite (proj2 (Qle_bool_true s e)) by lra.
    rewrite (proj2 (Qeq_bool_true s e) Heq). reflexivity.
Qed.

Lemma insert_rejected_or_noop_witness :
  BufferedRanges.insert true
    {| BufferedRanges.ranges := [{| start := 0; end_ := 10; bitrate := 1 |}];
       BufferedRanges.length := 1 |} 2 5 3
  = (Throw AssertionError,
     {| BufferedRanges.ranges := [{| start := 0; end_ := 10; bitrate := 1 |}];
        BufferedRanges.length := 1 |})
  /\ BufferedRanges.insert false
       {| BufferedRanges.ranges := [{| start := 0; end_ := 10; bitrate := 1 |}];
          BufferedRanges.length := 1 |} 2 5 5
     = (Ok [{| start := 0; end_ := 10; bitrate := 1 |}],
        {| BufferedRanges.ranges :=
             [{| start := 0; end_ := 10; bitrate := 1 |}];
           BufferedRanges.length := 1 |}).
Proof.
  split.
  - exact (proj1 (insert_rejected_or_noop true
                    {| BufferedRanges.ranges :=
                         [{| start := 0; end_ := 10; bitrate := 1 |}];
                       BufferedRanges.length := 1 |} 2 5 3) eq_refl).
  - exact (proj2 (insert_rejected_or_noop false
                    {| BufferedRanges.ranges :=
                         [{| start := 0; end_ := 10; bitrate := 1 |}];
                       BufferedRanges.length := 1 |} 2 5 5) eq_refl).
Defined.

(** ** [bufferedToArray] *)

Lemma bufferedToArray_loop_spec {C : Type} `{Ranges.t C}
  (ranges : C) (st en : nat -> Q) :
  answers ranges st en ->
  forall n i, (i + n <= Ranges.length ranges)%nat ->
    bufferedToArray_loop ranges i n
    = Ok (map (fun k => Plain {| se_start := st k; se_end := en k |})
            (seq i n)).
Proof.
  intros Hanswers. induction n as [| n IH]; intros i Hi; [reflexivity |].
  simpl. destruct (Hanswers i) as [-> ->]; [lia |]. simpl.
  rewrite IH by lia. reflexivity.
Qed.

(** C8, as amended.  For a foreign collection whose accessors answer
    below its length, [bufferedToArray] returns exactly [length] records,
    the [i]-th being the plain [{start: start(i), end: end(i)}].  For the
    engine's own collection it returns the copy [cloneArray] makes of the
    engine's array: as many records as the engine holds, the [i]-th being
    the engine's [i]-th range with its bitrate. *)
Theorem bufferedToArray_records {C : Type} `{Ranges.t C}
  (ranges : C) (st en : nat -> Q) (own : BufferedRanges.t) :
  (answers ranges st en ->
   exists a,
     bufferedToArray (Foreign ranges) = Ok a
     /\ length a = Ranges.length ranges
     /\ forall i, (i < Ranges.length ranges)%nat ->
          a !! i = Some (Plain {| se_start := st i; se_end := en i |}))
  /\ (exists a,
        bufferedToArray (C := C) (Own own) = Ok a
        /\ length a = length (BufferedRanges.ranges own)
        /\ forall i r, BufferedRanges.ranges own !! i = Some r ->
             a !! i = Some (Tagged r)).
Proof.
  split.
  - intros Hanswers. eexists. split; [| split].
    + simpl. apply (bufferedToArray_loop_spec ranges st en Hanswers). lia.
    + rewrite length_map, length_seq. reflexivity.
    + intros i Hi. rewrite list_lookup_fmap, lookup_seq_lt by exact Hi.
      reflexivity.
  - eexists. split; [reflexivity | split].
    + unfold cloneArray. apply length_map.
    + intros i r Hr. unfold cloneArray.
      rewrite list_lookup_fmap, Hr. reflexivity.
Qed.

Lemma bufferedToArray_records_witness :
  exists a,
    bufferedToArray
      (Foreign {| tr_length := 2;
                  tr_start := fun i => inject_Z (Z.of_nat i);
                  tr_end := fun i => inject_Z (Z.of_nat i) + (1 # 2) |})
    = Ok a
    /\ length a = 2%nat
    /\ forall i, (i < 2)%nat ->
         a !! i = Some (Plain {| se_start := inject_Z (Z.of_nat i);
                                 se_end := inject_Z (Z.of_nat i) + (1 # 2) |}).
Proof.
  refine (proj1 (bufferedToArray_records
                   {| tr_length := 2;
                      tr_start := fun i => inject_Z (Z.of_nat i);
                      tr_end := fun i => inject_Z (Z.of_nat i) + (1 # 2) |}
                   (fun i => inject_Z (Z.of_nat i))
                   (fun i => inject_Z (Z.of_nat i) + (1 # 2))
                   BufferedRanges.new) _).
  intros i Hi. split; reflexivity.
Defined.

(** C8 as stated fails on the engine's own collection: the record that
    [bufferedToArray] returns for the engine holding [{0, 10, bitrate = 1}]
    is the engine's range with its bitrate, not the plain
    [{start: 0, end: 10}]. *)
Lemma bufferedToArray_own_keeps_bitrate :
  let one := snd (BufferedRanges.insert false BufferedRanges.new 1 0 10) in
  Ranges.length one = 1%nat
  /\ Ranges.start one 0 = Ok 0
  /\ Ranges.end_ one 0 = Ok 10
  /\ bufferedToArray (C := TimeRanges) (Own one)
     = Ok [Tagged {| start := 0; end_ := 10; bitrate := 1 |}]
  /\ bufferedToArray (C := TimeRanges) (Own one)
     <> Ok [Plain {| se_start := 0; se_end := 10 |}].
Proof. repeat split. discriminate. Qed.

(** ** [intersect] *)

(** The two assignments of the loop make the clamped range. *)
Lemma intersect_from_clamped others : forall ranges,
  intersect_from ranges others = intersect_clamped ranges others.
Proof.
  unfold intersect_clamped.
  induction ranges as [| range rest IH]; [reflexivity |].
  simpl. destruct (findOverlappingRange range others) as [o |]; simpl.
  - rewrite IH. f_equal. unfold clamped.
    destruct range as [s e b]. simpl.
    destruct (Qltb s (start o)); simpl;
      destruct (Qltb (end_ o) e); reflexivity.
  - exact IH.
Qed.

Lemma findOverlappingRange_Some range others o :
  findOverlappingRange range others = Some o ->
  In o others /\ areOverlappingRanges range o = true.
Proof.
  induction others as [| o' others IH]; simpl; [discriminate |].
  destruct (areOverlappingRanges range o') eqn:Hover.
  - intros [= <-]. split; [left; reflexivity | exact Hover].
  - intros Hfound. destruct (IH Hfound). split; [right |]; assumption.
Qed.

Lemma findOverlappingRange_None range others o :
  findOverlappingRange range others = None ->
  In o others -> areOverlappingRanges range o = false.
Proof.
  induction others as [| o' others IH]; simpl; [intros _ [] |].
  destruct (areOverlappingRanges range o') eqn:Hover; [discriminate |].
  intros Hnone [<- | Hin]; [exact Hover | apply IH; assumption].
Qed.

Lemma clamped_inRange range other t :
  inRange (clamped range other) t <-> inRange range t /\ inRange other t.
Proof.
  unfold inRange, clamped. simpl.
  destruct (Qltb (start range) (start other)) eqn:H1;
    destruct (Qltb (end_ other) (end_ range)) eqn:H2;
    reflect_tests; intuition lra.
Qed.

(** Two ranges that hold a common timestamp overlap. *)
Lemma inRange_overlapping r1 r2 t :
  inRange r1 t -> inRange r2 t -> areOverlappingRanges r1 r2 = true.
Proof.
  unfold inRange. intros H1 H2. unfold_tests.
  rewrite !orb_true_iff, !andb_true_iff, !Qle_bool_true, !Qltb_true.
  destruct (Qlt_le_dec (start r2) (start r1)); intuition lra.
Qed.

Lemma covered_In ranges t :
  covered ranges t <-> exists r, In r ranges /\ inRange r t.
Proof.
  unfold covered. rewrite Exists_exists.
  split; intros (r & Hin & Hr); exists r; split; try assumption;
    apply list_elem_of_In; assumption.
Qed.

Lemma intersect_clamped_covered ranges others t :
  covered (intersect_clamped ranges others) t ->
  covered ranges t /\ covered others t.
Proof.
  rewrite !covered_In. unfold intersect_clamped.
  intros (c & Hin & Hc).
  apply list_elem_of_In, list_elem_of_omap in Hin.
  destruct Hin as (r & Hr & Hfound).
  destruct (findOverlappingRange r others) as [o |] eqn:Ho; [| discriminate].
  injection Hfound as <-.
  apply clamped_inRange in Hc. destruct Hc as [Hrt Hot].
  apply findOverlappingRange_Some in Ho. destruct Ho as [Hino _].
  split; [exists r | exists o]; split; try assumption.
  apply list_elem_of_In. exact Hr.
Qed.

Lemma intersect_clamped_covers ranges others t :
  (forall r o1 o2, In r ranges -> In o1 others -> In o2 others ->
     areOverlappingRanges r o1 = true -> areOverlappingRanges r o2 = true ->
     o1 = o2) ->
  covered ranges t -> covered others t ->
  covered (intersect_clamped ranges others) t.
Proof.
  rewrite !covered_In. unfold intersect_clamped.
  intros Hone (r & Hr & Hrt) (o & Ho & Hot).
  pose proof (inRange_overlapping r o t Hrt Hot) as Hover.
  destruct (findOverlappingRange r others) as [o' |] eqn:Hfound.
  - destruct (findOverlappingRange_Some _ _ _ Hfound) as [Ho' Hover'].
    assert (o' = o) as -> by (apply (Hone r); assumption).
    exists (clamped r o). split.
    + apply list_elem_of_In, list_elem_of_omap. exists r.
      split; [apply list_elem_of_In; exact Hr |].
      rewrite Hfound. reflexivity.
    + apply clamped_inRange. split; assumption.
  - rewrite (findOverlappingRange_None _ _ _ Hfound Ho) in Hover.
    discriminate.
Qed.

(** *** Overlap as the specification means it *)

Lemma sharesTimestamp_true r o :
  sharesTimestamp r o = true <-> exists t, inRange r t /\ inRange o t.
Proof.
  unfold sharesTimestamp, inRange. rewrite Qltb_true. split.
  - intros Hlt. exists (Qmax (start r) (start o)).
    pose proof (Q.le_max_l (start r) (start o)).
    pose proof (Q.le_max_r (start r) (start o)).
    pose proof (Q.le_min_l (end_ r) (end_ o)).
    pose proof (Q.le_min_r (end_ r) (end_ o)).
    repeat split; lra.
  - intros (t & [H1 H2] & [H3 H4]).
    apply Qle_lt_trans with t.
    + apply Q.max_lub; assumption.
    + apply Q.min_glb_lt; assumption.
Qed.

(** The test of the code is that overlap, but for a range of [others]
    that ends where the range starts. *)
Lemma areOverlappingRanges_sharesTimestamp r o :
  nonEmpty r -> nonEmpty o -> ~ end_ o == start r ->
  areOverlappingRanges r o = sharesTimestamp r o.
Proof.
  unfold nonEmpty. intros Hr Ho Htouch.
  destruct (sharesTimestamp r o) eqn:Hshare.
  - apply sharesTimestamp_true in Hshare.
    destruct Hshare as (t & Hrt & Hot).
    exact (inRange_overlapping r o t Hrt Hot).
  - unfold sharesTimestamp in Hshare. apply Qltb_false in Hshare.
    unfold_tests.
    rewrite !orb_false_iff, !andb_false_iff, !Qle_bool_false, !Qltb_false.
    destruct (Qmax_cases (start r) (start o)) as [[Hs Es] | [Hs Es]];
      rewrite Es in Hshare;
      destruct (Qmin_cases (end_ r) (end_ o)) as [[He Ee] | [He Ee]];
      rewrite Ee in Hshare.
    + repeat split; (left; lra) || (right; lra).
    + assert (end_ o < start r \/ start r < end_ o) as [Hlt | Hlt].
      { destruct (Q_dec (end_ o) (start r)) as [[Hlt | Hgt] | Heq];
          [left; exact Hlt | right; exact Hgt | contradiction]. }
      * repeat split; (left; lra) || (right; lra).
      * lra.
    + repeat split; (left; lra) || (right; lra).
    + assert (end_ o < start r \/ start r < end_ o) as [Hlt | Hlt].
      { destruct (Q_dec (end_ o) (start r)) as [[Hlt | Hgt] | Heq];
          [left; exact Hlt | right; exact Hgt | contradiction]. }
      * repeat split; (left; lra) || (right; lra).
      * repeat split; (left; lra) || (right; lra).
Qed.

Lemma findOverlappingRange_find r others :
  nonEmpty r -> Forall nonEmpty others ->
  (forall o, In o others -> ~ end_ o == start r) ->
  findOverlappingRange r others = List.find (sharesTimestamp r) others.
Proof.
  intros Hr. induction others as [| o others IH]; intros Hall Htouch;
    [reflexivity |].
  apply Forall_cons in Hall. destruct Hall as [Ho Hall]. simpl.
  rewrite (areOverlappingRanges_sharesTimestamp r o Hr Ho)
    by (apply Htouch; left; reflexivity).
  destruct (sharesTimestamp r o); [reflexivity |].
  apply IH; [exact Hall |].
  intros o' Hin. apply Htouch. right. exact Hin.
Qed.

Lemma intersect_clamped_spec others : forall ranges,
  Forall nonEmpty ranges -> Forall nonEmpty others ->
  (forall r o, In r ranges -> In o others -> ~ end_ o == start r) ->
  intersect_clamped ranges others = intersect_spec ranges others.
Proof.
  unfold intersect_clamped, intersect_spec.
  induction ranges as [| r ranges IH]; intros Hall Hothers Htouch;
    [reflexivity |].
  apply Forall_cons in Hall. destruct Hall as [Hr Hall]. simpl.
  rewrite (findOverlappingRange_find r others Hr Hothers)
    by (intros o Hin; apply Htouch; [left; reflexivity | exact Hin]).
  assert (Hrest : omap (fun range =>
                          clamped range <$> findOverlappingRange range others)
                    ranges
                  = omap (fun range =>
                            clamped range
                            <$> List.find (sharesTimestamp range) others)
                      ranges).
  { apply IH; [exact Hall | exact Hothers |].
    intros r' o Hin. apply Htouch. right. exact Hin. }
  destruct (List.find (sharesTimestamp r) others); simpl;
    [f_equal |]; exact Hrest.
Qed.

(** A range clamped to one that shares a timestamp with it has
    [start < end]. *)
Lemma clamped_nonEmpty r o :
  sharesTimestamp r o = true -> nonEmpty (clamped r o).
Proof.
  intros Hshare. apply sharesTimestamp_true in Hshare.
  destruct Hshare as (t & Hshare).
  apply clamped_inRange in Hshare. destruct Hshare as [H1 H2].
  unfold nonEmpty. lra.
Qed.

Lemma intersect_spec_nonEmpty ranges others :
  Forall nonEmpty (intersect_spec ranges others).
Proof.
  apply Forall_forall. intros c Hc.
  apply list_elem_of_omap in Hc. destruct Hc as (r & _ & Hfound).
  destruct (List.find (sharesTimestamp r) others) as [o |] eqn:Ho;
    [| discriminate].
  injection Hfound as <-.
  apply List.find_some in Ho. apply clamped_nonEmpty. exact (proj2 Ho).
Qed.

(** C6, as amended.  The ranges of the engine and of [others] have
    [start < end], and no range of [others] ends where a range of the
    engine starts.  Then [intersect(others)] drops every range of the
    engine that overlaps no range of [others] (shares no timestamp with
    one) and clamps every other one to the first range of [others] that
    overlaps it, keeping its bitrate; the ranges it leaves have
    [start < end]; and what it leaves covers all that the engine and
    [others] both cover when no range of the engine overlaps two ranges
    of [others].  Whatever the ranges, what the result covers is covered
    by the engine and by [others].  The engine [{0, 10}] intersected with
    [{5, 8}] becomes [{5, 8}] with the engine's bitrate. *)
Theorem intersect_clamps_to_first_overlap (ranges others : list Range) :
  (Forall nonEmpty ranges -> Forall nonEmpty others ->
   (forall r o, In r ranges -> In o others -> ~ end_ o == start r) ->
   intersect ranges others = intersect_spec ranges others
   /\ Forall nonEmpty (intersect ranges others)
   /\ ((forall r o1 o2, In r ranges -> In o1 others -> In o2 others ->
          sharesTimestamp r o1 = true ->
          sharesTimestamp r o2 = true -> o1 = o2) ->
       forall t, covered ranges t -> covered others t ->
         covered (intersect ranges others) t))
  /\ (forall t, covered (intersect ranges others) t ->
        covered ranges t /\ covered others t)
  /\ (forall r o,
        sharesTimestamp r o = true <-> exists t, inRange r t /\ inRange o t)
  /\ BufferedRanges.intersect
       (snd (BufferedRanges.insert false BufferedRanges.new 1 0 10))
       [{| start := 5; end_ := 8; bitrate := 2 |}]
     = ([{| start := 5; end_ := 8; bitrate := 1 |}],
        {| BufferedRanges.ranges :=
             [{| start := 5; end_ := 8; bitrate := 1 |}];
           BufferedRanges.length := 1 |}).
Proof.
  assert (Heq : intersect ranges others = intersect_clamped ranges others).
  { rewrite intersect_eq. apply intersect_from_clamped. }
  rewrite Heq.
  split; [| split; [| split; [exact sharesTimestamp_true | reflexivity]]].
  - intros Hall Hothers Htouch.
    rewrite (intersect_clamped_spec others ranges Hall Hothers Htouch).
    split; [reflexivity |]. split; [apply intersect_spec_nonEmpty |].
    intros Hone t.
    rewrite <- (intersect_clamped_spec others ranges Hall Hothers Htouch).
    apply intersect_clamped_covers.
    intros r o1 o2 Hr Ho1 Ho2.
    rewrite !areOverlappingRanges_sharesTimestamp.
    + apply Hone; assumption.
    + exact (proj1 (Forall_forall _ _) Hall r
               (proj2 (list_elem_of_In _ _) Hr)).
    + exact (proj1 (Forall_forall _ _) Hothers o2
               (proj2 (list_elem_of_In _ _) Ho2)).
    + apply Htouch; assumption.
    + exact (proj1 (Forall_forall _ _) Hall r
               (proj2 (list_elem_of_In _ _) Hr)).
    + exact (proj1 (Forall_forall _ _) Hothers o1
               (proj2 (list_elem_of_In _ _) Ho1)).
    + apply Htouch; assumption.
  - intros t. apply intersect_clamped_covered.
Qed.

Lemma intersect_clamps_to_first_overlap_witness :
  covered
    (intersect [{| start := 0; end_ := 10; bitrate := 1 |};
                {| start := 12; end_ := 20; bitrate := 2 |}]
               [{| start := 5; end_ := 15; bitrate := 0 |}]) 13.
Proof.
  refine (proj2 (proj2 (proj1
            (intersect_clamps_to_first_overlap
               [{| start := 0; end_ := 10; bitrate := 1 |};
                {| start := 12; end_ := 20; bitrate := 2 |}]
               [{| start := 5; end_ := 15; bitrate := 0 |}]) _ _ _))
            _ 13 _ _).
  - repeat (apply Forall_cons; split); try constructor.
  - repeat (apply Forall_cons; split); try constructor.
  - intros r o [<- | [<- | []]] [<- | []]; discriminate.
  - intros r o1 o2 _ [<- | []] [<- | []] _ _. reflexivity.
  - apply Exists_cons_tl, Exists_cons_hd. unfold inRange. simpl. lra.
  - apply Exists_cons_hd. unfold inRange. simpl. lra.
Defined.

(** C6 as stated fails when a range of the engine overlaps two ranges of
    [others]: the engine [{0, 10}] intersected with [{1, 2}, {3, 4}]
    becomes [{1, 2}], and the timestamp [3.5], which the engine and
    [others] both cover, is lost. *)
Lemma intersect_keeps_first_overlap_only :
  let one := snd (BufferedRanges.insert false BufferedRanges.new 1 0 10) in
  let others := [{| start := 1; end_ := 2; bitrate := 0 |};
                 {| start := 3; end_ := 4; bitrate := 0 |}] in
  fst (BufferedRanges.intersect one others)
  = [{| start := 1; end_ := 2; bitrate := 1 |}]
  /\ covered (BufferedRanges.ranges one) (7 # 2)
  /\ covered others (7 # 2)
  /\ ~ covered (fst (BufferedRanges.intersect one others)) (7 # 2).
Proof.
  split; [reflexivity |]. split; [| split].
  - apply Exists_cons_hd. unfold inRange. simpl. lra.
  - apply Exists_cons_tl, Exists_cons_hd. unfold inRange. simpl. lra.
  - intros Hcov. apply Exists_cons in Hcov.
    destruct Hcov as [[_ Hlt] | Hcov]; [simpl in Hlt; lra | inversion Hcov].
Qed.

(** ** Zero-length ranges *)

Lemma adjacent_tail P r ranges : adjacent P (r :: ranges) -> adjacent P ranges.
Proof. destruct ranges as [| r' ranges]; simpl; tauto. Qed.

Lemma removeEmptyRanges_from_nonEmpty : forall ranges,
  Forall nonEmpty ranges -> removeEmptyRanges_from ranges = ranges.
Proof.
  induction ranges as [| r ranges IH]; intros Hall; [reflexivity |].
  apply Forall_cons in Hall. destruct Hall as [Hr Hall].
  simpl. replace (Qeq_bool (start r) (end_ r)) with false.
  - rewrite IH by exact Hall. reflexivity.
  - symmetry. apply Qeq_bool_false. unfold nonEmpty in Hr. lra.
Qed.

(** A single zero-length range is removed, wherever it is: the two
    ranges that the loop then steps over have [start < end]. *)
Lemma removeEmptyRanges_from_single l1 z l2 :
  Forall nonEmpty l1 -> start z == end_ z -> Forall nonEmpty l2 ->
  removeEmptyRanges_from (l1 ++ z :: l2) = l1 ++ l2.
Proof.
  intros H1 Hz H2. induction l1 as [| r l1 IH]; simpl.
  - rewrite (proj2 (Qeq_bool_true _ _) Hz).
    destruct l2 as [| r1 [| r2 l2]]; try reflexivity.
    apply Forall_cons in H2. destruct H2 as [_ H2].
    apply Forall_cons in H2. destruct H2 as [_ H2].
    rewrite removeEmptyRanges_from_nonEmpty by exact H2. reflexivity.
  - apply Forall_cons in H1. destruct H1 as [Hr H1].
    replace (Qeq_bool (start r) (end_ r)) with false
      by (symmetry; apply Qeq_bool_false; unfold nonEmpty in Hr; lra).
    rewrite IH by exact H1. reflexivity.
Qed.

Lemma removeEmptyRanges_from_oneEmpty ranges :
  oneEmptyAtMost ranges -> Forall nonEmpty (removeEmptyRanges_from ranges).
Proof.
  intros [Hall | (l1 & z & l2 & -> & Hz & H1 & H2)].
  - rewrite removeEmptyRanges_from_nonEmpty; assumption.
  - rewrite removeEmptyRanges_from_single by assumption.
    apply Forall_app. split; assumption.
Qed.

Lemma mergeContiguousRanges_from_nonEmpty : forall suf prevRange,
  nonEmpty prevRange -> Forall nonEmpty suf ->
  Forall nonEmpty (mergeContiguousRanges_from prevRange suf).
Proof.
  induction suf as [| currRange rest IH]; intros prevRange Hp Hall; simpl.
  - apply Forall_cons. split; [exact Hp | constructor].
  - apply Forall_cons in Hall. destruct Hall as [Hc Hall].
    destruct (sameBitrate prevRange currRange
              && areContiguousWithRanges prevRange currRange).
    + apply IH; [apply union_nonEmpty; exact Hp | exact Hall].
    + apply Forall_cons. split; [exact Hp | apply IH; assumption].
Qed.

(** Once the added range lies before all that is left to visit, and
    after the range that precedes the index, the scan stops or merges: it
    leaves the visited part alone and makes no zero-length range. *)
Lemma insertInto_from_after : forall suf pre addedRange,
  nonEmpty addedRange ->
  ordered (addedRange :: suf) ->
  Forall nonEmpty suf ->
  match last pre with
  | Some previous => end_ previous <= start addedRange
  | None => True
  end ->
  exists suf' addedRange',
    insertInto_from pre suf addedRange = (pre, suf', addedRange')
    /\ nonEmpty addedRange' /\ Forall nonEmpty suf'.
Proof.
  induction suf as [| currentRange rest IH];
    intros pre addedRange Hne Hord Hall Hlast.
  { exists [], addedRange. repeat split; [exact Hne | constructor]. }
  destruct Hord as [Hle Hord].
  apply Forall_cons in Hall. destruct Hall as [Hcur Hall].
  simpl insertInto_from.
  replace (areOverlappingRanges addedRange currentRange) with false.
  2:{ symmetry. unfold_tests.
      rewrite !orb_false_iff, !andb_false_iff, !Qle_bool_false, !Qltb_false.
      unfold nonEmpty in *. intuition lra. }
  cbn [orb].
  destruct (areContiguousWithRanges addedRange currentRange).
  - destruct (sameBitrate addedRange currentRange).
    + apply IH.
      * apply union_nonEmpty. exact Hne.
      * unfold ordered in *. destruct rest as [| next rest]; [exact I |].
        destruct Hord as [Hnext Hord]. split; [| exact Hord].
        simpl. unfold nonEmpty in *.
        destruct (Qmax_cases (end_ addedRange) (end_ currentRange))
          as [[? ->] | [? ->]]; lra.
      * exact Hall.
      * destruct (last pre) as [previous |]; [| exact I].
        simpl. unfold nonEmpty in *.
        destruct (Qmin_cases (start addedRange) (start currentRange))
          as [[? ->] | [? ->]]; lra.
    + exists (currentRange :: rest), addedRange.
      repeat split; [exact Hne |].
      apply Forall_cons. split; assumption.
  - assert (Hin : isOrdered addedRange currentRange = true)
      by (apply Qle_bool_true; exact Hle).
    rewrite Hin.
    destruct (last pre) as [previous |].
    + rewrite (proj2 (Qle_bool_true _ _) Hlast : isOrdered previous _ = true).
      simpl. exists (currentRange :: rest), addedRange.
      repeat split; [exact Hne |].
      apply Forall_cons. split; assumption.
    + exists (currentRange :: rest), addedRange.
      repeat split; [exact Hne |].
      apply Forall_cons. split; assumption.
Qed.

(** From an ordered array of ranges with [start < end], the scan leaves
    at most one zero-length range. *)
Lemma insertInto_from_oneEmpty : forall suf pre addedRange,
  nonEmpty addedRange ->
  ordered suf ->
  Forall nonEmpty suf ->
  Forall nonEmpty pre ->
  let '(pre', suf', addedRange') := insertInto_from pre suf addedRange in
  oneEmptyAtMost (pre' ++ addedRange' :: suf').
Proof.
  induction suf as [| currentRange rest IH];
    intros pre addedRange Hne Hord Hall Hpre.
  { simpl. left. apply Forall_app. split; [exact Hpre |].
    apply Forall_cons. split; [exact Hne | constructor]. }
  pose proof (adjacent_tail _ _ _ Hord) as Hord'.
  pose proof Hall as Hall0.
  apply Forall_cons in Hall. destruct Hall as [Hcur Hall].
  assert (Hbreak : oneEmptyAtMost (pre ++ addedRange :: currentRange :: rest)).
  { left. apply Forall_app. split; [exact Hpre |].
    apply Forall_cons. split; assumption. }
  assert (Hnext : forall x, nonEmpty x ->
    let '(pre', suf', addedRange') :=
      insertInto_from (pre ++ [x]) rest addedRange in
    oneEmptyAtMost (pre' ++ addedRange' :: suf')).
  { intros x Hx. apply IH; try assumption.
    apply Forall_app. split; [exact Hpre |].
    apply Forall_cons. split; [exact Hx | constructor]. }
  assert (Hmerge :
    let '(pre', suf', addedRange') :=
      insertInto_from pre rest
        (unionWithOverlappingOrContiguousRange addedRange currentRange
           (bitrate currentRange)) in
    oneEmptyAtMost (pre' ++ addedRange' :: suf')).
  { apply IH; try assumption. apply union_nonEmpty. exact Hne. }
  simpl insertInto_from.
  destruct (areOverlappingRanges addedRange currentRange) eqn:Hover.
  - cbn [orb].
    destruct (sameBitrate addedRange currentRange); [exact Hmerge |].
    destruct (isContainedInto currentRange addedRange) eqn:Hin1.
    { (* the split: the left remainder may be of zero length *)
      set (pre1 := pre ++ [set_end currentRange (start addedRange);
                           addedRange]).
      set (right := {| start := end_ addedRange;
                       end_ := end_ currentRange;
                       bitrate := bitrate currentRange |}).
      destruct (insertInto_from_after rest pre1 right)
        as (suf' & addedRange' & -> & Hne' & Hall').
      - apply split_nonEmpty. exact Hin1.
      - destruct rest as [| next rest']; [exact I |].
        destruct Hord as [Hle Hord]. split; [exact Hle | exact Hord].
      - exact Hall.
      - unfold pre1. rewrite last_app. simpl. apply Qle_refl.
      - unfold pre1. rewrite <- app_assoc. simpl.
        assert (Hleft : start currentRange <= start addedRange)
          by (clear Hover; solve_tests).
        destruct (Qlt_le_dec (start currentRange) (start addedRange))
          as [Hlt | Hge].
        + left. apply Forall_app. split; [exact Hpre |].
          repeat (apply Forall_cons; split); try assumption.
        + right.
          exists pre, (set_end currentRange (start addedRange)),
            (addedRange :: addedRange' :: suf').
          split; [reflexivity |]. split; [simpl; lra |].
          split; [exact Hpre |].
          repeat (apply Forall_cons; split); assumption. }
    destruct (isContainedInto addedRange currentRange) eqn:Hin2.
    { apply IH; assumption. }
    destruct (Qltb (start currentRange) (start addedRange)) eqn:Hlt.
    { apply Hnext. unfold nonEmpty. simpl. apply Qltb_true in Hlt. exact Hlt. }
    (* the start is pushed to the end of the added range *)
    assert (Hle : end_ addedRange <= end_ currentRange).
    { unfold nonEmpty in *. clear Hin1.
      destruct (Qlt_le_dec (end_ currentRange) (end_ addedRange));
        [exfalso; solve_tests | assumption]. }
    destruct (Qlt_le_dec (end_ addedRange) (end_ currentRange)) as [Hlt' | Hge].
    + left. apply Forall_app. split; [exact Hpre |].
      repeat (apply Forall_cons; split); assumption.
    + right.
      exists (pre ++ [addedRange]),
        (set_start currentRange (end_ addedRange)), rest.
      split; [rewrite <- app_assoc; reflexivity |].
      split; [simpl; lra |]. split; [| exact Hall].
      apply Forall_app. split; [exact Hpre |].
      apply Forall_cons. split; [exact Hne | constructor].
  - cbn [orb].
    destruct (areContiguousWithRanges addedRange currentRange).
    { destruct (sameBitrate addedRange currentRange);
        [exact Hmerge | exact Hbreak]. }
    pose proof (Hnext currentRange Hcur) as Hcontinue.
    destruct (last pre) as [previous |].
    + destruct (isOrdered previous addedRange
                && isOrdered addedRange currentRange); assumption.
    + destruct (isOrdered addedRange currentRange); assumption.
Qed.

Lemma insertInto_nonEmpty ranges b s e :
  Forall nonEmpty ranges -> ordered ranges -> s < e ->
  exists rs, insertInto ranges b s e = (Ok tt, rs) /\ Forall nonEmpty rs.
Proof.
  intros Hall Hord Hlt. rewrite insertInto_eq.
  rewrite (proj2 (Qle_bool_true s e)) by lra.
  replace (Qeq_bool s e) with false
    by (symmetry; apply Qeq_bool_false; lra).
  cbn [negb].
  pose proof (insertInto_from_oneEmpty ranges []
                {| start := s; end_ := e; bitrate := b |}
                Hlt Hord Hall (List.Forall_nil _)) as Hscan.
  destruct (insertInto_from [] ranges _) as [[pre suf] addedRange].
  apply removeEmptyRanges_from_oneEmpty in Hscan.
  eexists. split; [reflexivity |].
  destruct (removeEmptyRanges_from (pre ++ addedRange :: suf))
    as [| first rest]; [constructor |].
  apply Forall_cons in Hscan. destruct Hscan as [Hfirst Hrest].
  apply mergeContiguousRanges_from_nonEmpty; assumption.
Qed.

Lemma insert_accepted dev this b s e rs :
  0 <= s -> s < e ->
  insertInto (BufferedRanges.ranges this) b s e = (Ok tt, rs) ->
  BufferedRanges.insert dev this b s e
  = (Ok rs, {| BufferedRanges.ranges := rs;
               BufferedRanges.length := length rs |}).
Proof.
  intros H0 Hlt Hrs. unfold BufferedRanges.insert, assert.
  rewrite (proj2 (Qle_bool_true 0 s) H0).
  rewrite (proj2 (Qltb_true 0 (e - s))) by lra.
  destruct dev; simpl; rewrite Hrs; reflexivity.
Qed.

(** X23.  [insert] prunes the zero-length range that trimming may leave:
    after [insert(b, s, e)] with [0 <= s < e] on an engine whose ranges
    have [start < end] and are ordered without overlap
    ([end(i) <= start(i+1)]), every stored range has [start < end],
    whatever the bitrates and however close the ranges are. *)
Theorem insert_prunes_empty_ranges
  (dev : bool) (this : BufferedRanges.t) (b : Z) (s e : Q) :
  Forall nonEmpty (BufferedRanges.ranges this) ->
  ordered (BufferedRanges.ranges this) -> 0 <= s -> s < e ->
  exists rs,
    BufferedRanges.insert dev this b s e
    = (Ok rs, {| BufferedRanges.ranges := rs;
                 BufferedRanges.length := length rs |})
    /\ Forall nonEmpty rs.
Proof.
  intros Hall Hord H0 Hlt.
  destruct (insertInto_nonEmpty _ b s e Hall Hord Hlt) as (rs & Hrs & Hne).
  exists rs. split; [| exact Hne].
  apply insert_accepted; assumption.
Qed.

Lemma insert_prunes_empty_ranges_witness :
  exists rs,
    BufferedRanges.insert true
      {| BufferedRanges.ranges := [{| start := 0; end_ := 20; bitrate := 1 |}];
         BufferedRanges.length := 1 |} 2 0 10
    = (Ok rs, {| BufferedRanges.ranges := rs;
                 BufferedRanges.length := length rs |})
    /\ Forall nonEmpty rs.
Proof.
  refine (insert_prunes_empty_ranges true
            {| BufferedRanges.ranges :=
                 [{| start := 0; end_ := 20; bitrate := 1 |}];
               BufferedRanges.length := 1 |} 2 0 10 _ _ _ _).
  - apply Forall_cons. split; [reflexivity | constructor].
  - exact I.
  - discriminate.
  - reflexivity.
Defined.

(** C4: the code breaks the claim.  [intersect] has no pruning pass, and
    its overlap test takes a range of [others] that ends where a range of
    the engine starts for one that overlaps it
    ([isPointInRange(r1, r2.end)] in [areOverlappingRanges]), though the
    two share no timestamp and the test fails the other way round.  The
    engine that [insert(1, 5, 10)] builds, intersected with [{0, 5}], is
    left with the zero-length range [{5, 5}] instead of nothing;
    intersected with [{0, 5}, {5, 10}], it is left with [{5, 5}] instead
    of [{5, 10}]. *)
Theorem intersect_leaves_empty_range :
  let five := snd (BufferedRanges.insert true BufferedRanges.new 1 5 10) in
  let before := {| start := 0; end_ := 5; bitrate := 0 |} in
  let same := {| start := 5; end_ := 10; bitrate := 0 |} in
  (inserted five
   /\ BufferedRanges.ranges five = [{| start := 5; end_ := 10; bitrate := 1 |}])
  /\ (BufferedRanges.ranges (snd (BufferedRanges.intersect five [before]))
      = [{| start := 5; end_ := 5; bitrate := 1 |}]
      /\ ~ Forall nonEmpty
             (BufferedRanges.ranges
                (snd (BufferedRanges.intersect five [before]))))
  /\ BufferedRanges.ranges (snd (BufferedRanges.intersect five [before; same]))
     = [{| start := 5; end_ := 5; bitrate := 1 |}]
  /\ (areOverlappingRanges {| start := 5; end_ := 10; bitrate := 1 |} before
      = true
      /\ areOverlappingRanges before {| start := 5; end_ := 10; bitrate := 1 |}
         = false
      /\ sharesTimestamp {| start := 5; end_ := 10; bitrate := 1 |} before
         = false).
Proof.
  split; [split | split; [split | split; [| repeat split]]];
    try reflexivity.
  - apply inserted_insert; [apply inserted_new | discriminate | reflexivity].
  - intros Hall. apply Forall_cons in Hall. destruct Hall as [Hlt _].
    unfold nonEmpty in Hlt. simpl in Hlt. lra.
Qed.

(** ** The containment split *)

Lemma adjacent_app P : forall l1 l2,
  adjacent P (l1 ++ l2)
  <-> adjacent P l1 /\ adjacent P l2
      /\ match last l1, head l2 with
         | Some a, Some b => P a b
         | _, _ => True
         end.
Proof.
  induction l1 as [| a l1 IH]; intros l2.
  - simpl. tauto.
  - destruct l1 as [| a' l1].
    + destruct l2 as [| b l2]; simpl; tauto.
    + change (adjacent P ((a :: a' :: l1) ++ l2))
        with (P a a' /\ adjacent P ((a' :: l1) ++ l2)).
      change (adjacent P (a :: a' :: l1))
        with (P a a' /\ adjacent P (a' :: l1)).
      change (last (a :: a' :: l1)) with (last (a' :: l1)).
      rewrite IH. tauto.
Qed.

Lemma mergeContiguousRanges_from_unmergeable : forall suf prevRange,
  unmergeable (prevRange :: suf) ->
  mergeContiguousRanges_from prevRange suf = prevRange :: suf.
Proof.
  induction suf as [| currRange rest IH]; intros prevRange Hun;
    [reflexivity |].
  destruct Hun as [Hpair Hun]. simpl. rewrite Hpair.
  rewrite IH by exact Hun. reflexivity.
Qed.

(** The scan steps over the ranges that end before the added range
    starts, by more than the tolerance. *)
Lemma insertInto_from_skip addedRange : forall l pre rest,
  nonEmpty addedRange ->
  Forall (fun p => nonEmpty p /\ end_ p + EPSILON <= start addedRange) l ->
  insertInto_from pre (l ++ rest) addedRange
  = insertInto_from (pre ++ l) rest addedRange.
Proof.
  induction l as [| p l IH]; intros pre rest Hne Hall.
  { rewrite app_nil_r. reflexivity. }
  apply Forall_cons in Hall. destruct Hall as [[Hp Hend] Hall].
  simpl app. simpl insertInto_from.
  replace (areOverlappingRanges addedRange p) with false.
  2:{ symmetry. unfold_tests.
      rewrite !orb_false_iff, !andb_false_iff, !Qle_bool_false, !Qltb_false.
      unfold nonEmpty, EPSILON in *. intuition lra. }
  replace (areContiguousWithRanges addedRange p) with false.
  2:{ symmetry. unfold_tests.
      rewrite !orb_false_iff, !nearlyEqual_false.
      unfold nonEmpty, EPSILON in *. simpl. split; left; lra. }
  replace (isOrdered addedRange p) with false.
  2:{ symmetry. apply Qle_bool_false.
      unfold nonEmpty, EPSILON in *. lra. }
  cbn [orb].
  replace (pre ++ p :: l) with ((pre ++ [p]) ++ l)
    by (rewrite <- app_assoc; reflexivity).
  destruct (last pre); rewrite ?andb_false_r; apply IH; assumption.
Qed.

(** The scan stops where the added range lies between the range before
    the index and the one at the index, and is not merged with the
    latter. *)
Lemma insertInto_from_stop pre previous suf addedRange :
  last pre = Some previous ->
  end_ previous <= start addedRange ->
  nonEmpty addedRange ->
  Forall nonEmpty suf ->
  ordered (addedRange :: suf) ->
  unmergeable (addedRange :: suf) ->
  insertInto_from pre suf addedRange = (pre, suf, addedRange).
Proof.
  intros Hlast Hprev Hne Hall Hord Hun.
  destruct suf as [| currentRange rest]; [reflexivity |].
  destruct Hord as [Hle _]. destruct Hun as [Hpair _].
  apply Forall_cons in Hall. destruct Hall as [Hcur _].
  simpl insertInto_from.
  replace (areOverlappingRanges addedRange currentRange) with false.
  2:{ symmetry. unfold_tests.
      rewrite !orb_false_iff, !andb_false_iff, !Qle_bool_false, !Qltb_false.
      unfold nonEmpty in *. intuition lra. }
  cbn [orb].
  destruct (areContiguousWithRanges addedRange currentRange).
  - rewrite andb_true_r in Hpair. rewrite Hpair. reflexivity.
  - rewrite Hlast.
    rewrite (proj2 (Qle_bool_true _ _) Hprev : isOrdered previous _ = true).
    rewrite (proj2 (Qle_bool_true _ _) Hle : isOrdered _ currentRange = true).
    reflexivity.
Qed.

Section Split.
Variables (pre post : list Range) (currentRange : Range).
Variables (b : Z) (s e : Q).

Let ranges := pre ++ currentRange :: post.
Let addedRange := {| start := s; end_ := e; bitrate := b |}.
Let left := set_end currentRange s.
Let right := {| start := e;
                end_ := end_ currentRange;
                bitrate := bitrate currentRange |}.

Hypothesis Hall : Forall nonEmpty ranges.
Hypothesis Hord : ordered ranges.
Hypothesis Hun : unmergeable ranges.
Hypothesis Hstart : start currentRange <= s.
Hypothesis Hlt : s < e.
Hypothesis Hend : e < end_ currentRange.
Hypothesis Hbitrate : bitrate currentRange <> b.
Hypothesis Hpre : Forall (fun p => end_ p + EPSILON <= s) pre.

(** The right remainder is not merged with the range that follows the
    existing one. *)
Lemma split_right_unmergeable : unmergeable (right :: post).
Proof.
  unfold ranges in *.
  apply Forall_app in Hall. destruct Hall as [_ Hallpost].
  apply Forall_cons in Hallpost. destruct Hallpost as [Hcur Hallpost].
  apply adjacent_app in Hord. destruct Hord as (_ & Hordpost & _).
  apply adjacent_app in Hun. destruct Hun as (_ & Hunpost & _).
  destruct post as [| next post']; [exact I |].
  destruct Hunpost as [Hpair Hunpost]. split; [| exact Hunpost].
  destruct Hordpost as [Hle _].
  apply Forall_cons in Hallpost. destruct Hallpost as [Hnext _].
  unfold nonEmpty in *.
  unfold sameBitrate, areContiguousWithRanges in *. simpl.
  destruct (bitrate currentRange =? bitrate next)%Z; [| reflexivity].
  simpl in *. apply orb_false_iff in Hpair. destruct Hpair as [H1 H2].
  rewrite H1. simpl. apply nearlyEqual_false.
  apply nearlyEqual_false in H1. unfold EPSILON in *. lra.
Qed.

(** The scan: the existing range is cut at the start of the candidate,
    the candidate follows it, and the right remainder is the range left
    to splice in, before [post]. *)
Lemma split_scan :
  insertInto_from [] ranges addedRange
  = (pre ++ [left; addedRange], post, right).
Proof.
  pose proof split_right_unmergeable as Hright.
  unfold ranges in *.
  apply Forall_app in Hall. destruct Hall as [Hallpre Hallpost].
  apply Forall_cons in Hallpost. destruct Hallpost as [Hcur Hallpost].
  apply adjacent_app in Hord. destruct Hord as (_ & Hordpost & _).
  rewrite (insertInto_from_skip addedRange pre [] (currentRange :: post)).
  2:{ exact Hlt. }
  2:{ apply Forall_forall. intros p Hp. split.
      - exact (proj1 (Forall_forall _ _) Hallpre p Hp).
      - exact (proj1 (Forall_forall _ _) Hpre p Hp). }
  simpl app. simpl insertInto_from.
  replace (areOverlappingRanges addedRange currentRange) with true.
  2:{ symmetry. unfold_tests. simpl.
      rewrite !orb_true_iff, !andb_true_iff, !Qle_bool_true, !Qltb_true.
      right. lra. }
  cbn [orb].
  replace (sameBitrate addedRange currentRange) with false.
  2:{ symmetry. apply Z.eqb_neq. simpl. congruence. }
  replace (isContainedInto currentRange addedRange) with true.
  2:{ symmetry. unfold_tests. simpl.
      rewrite !andb_true_iff, !Qle_bool_true, !Qltb_true. lra. }
  apply (insertInto_from_stop _ addedRange).
  - rewrite last_app. reflexivity.
  - apply Qle_refl.
  - unfold nonEmpty. simpl. exact Hend.
  - exact Hallpost.
  - destruct post as [| next post']; [exact I |].
    destruct Hordpost as [Hle Hordpost]. split; assumption.
  - exact Hright.
Qed.

Lemma split_insertInto_eq :
  insertInto ranges b s e
  = (Ok tt,
     match removeEmptyRanges_from
             (pre ++ [left; addedRange; right] ++ post) with
     | [] => []
     | first :: rest => mergeContiguousRanges_from first rest
     end).
Proof.
  rewrite insertInto_eq.
  rewrite (proj2 (Qle_bool_true s e)) by lra.
  replace (Qeq_bool s e) with false
    by (symmetry; apply Qeq_bool_false; lra).
  cbn [negb]. fold addedRange. rewrite split_scan.
  rewrite <- app_assoc. reflexivity.
Qed.

(** Nothing of the ranges before the existing one is merged with what
    takes its place, be it the left remainder or, when this one is of
    zero length, the candidate. *)
Lemma split_left_unmergeable :
  unmergeable (pre ++ [left]) /\ unmergeable (pre ++ [addedRange]).
Proof.
  unfold ranges in *.
  apply Forall_app in Hall. destruct Hall as [Hallpre Hallpost].
  apply adjacent_app in Hun. destruct Hun as (Hunpre & _ & Hlast).
  assert (Hp : forall p, last pre = Some p ->
    nonEmpty p /\ end_ p + EPSILON <= s).
  { intros p Hp.
    assert (Hin : p ∈ pre).
    { apply list_elem_of_lookup. rewrite last_lookup in Hp.
      eexists. exact Hp. }
    split.
    - exact (proj1 (Forall_forall _ _) Hallpre p Hin).
    - exact (proj1 (Forall_forall _ _) Hpre p Hin). }
  split; apply adjacent_app; (split; [exact Hunpre |]); (split; [exact I |]);
    destruct (last pre) as [p |]; try exact I;
    destruct (Hp p eq_refl) as [Hp1 Hp2]; simpl in *;
    unfold nonEmpty in *;
    unfold sameBitrate, areContiguousWithRanges in *; simpl.
  - destruct (bitrate p =? bitrate currentRange)%Z; [| reflexivity].
    simpl in *. apply orb_false_iff in Hlast. destruct Hlast as [H1 H2].
    rewrite H1. simpl. apply nearlyEqual_false.
    unfold EPSILON in *. right. lra.
  - apply andb_false_iff. right.
    rewrite orb_false_iff, !nearlyEqual_false.
    unfold EPSILON in *. split; right; lra.
Qed.

(** The candidate starts after the existing range does: three ranges
    take the place of the existing one. *)
Lemma split_insertInto :
  start currentRange < s ->
  insertInto ranges b s e
  = (Ok tt, pre ++ [left; addedRange; right] ++ post).
Proof.
  intros Hstrict. rewrite split_insertInto_eq. f_equal.
  pose proof split_right_unmergeable as Hright.
  destruct split_left_unmergeable as [Hleft _].
  unfold ranges in *.
  apply Forall_app in Hall. destruct Hall as [Hallpre Hallpost].
  apply Forall_cons in Hallpost. destruct Hallpost as [Hcur Hallpost].
  rewrite removeEmptyRanges_from_nonEmpty.
  2:{ apply Forall_app. split; [exact Hallpre |].
      repeat (apply Forall_cons; split); try assumption;
        unfold nonEmpty; simpl; assumption. }
  assert (Hmerge : unmergeable (pre ++ [left; addedRange; right] ++ post)).
  { apply adjacent_app in Hleft. destruct Hleft as (Hunpre & _ & Hlink).
    apply adjacent_app. split; [exact Hunpre |]. split; [| exact Hlink].
    simpl. split; [| split; [| exact Hright]].
    - unfold sameBitrate. simpl.
      replace (bitrate currentRange =? b)%Z with false
        by (symmetry; apply Z.eqb_neq; exact Hbitrate).
      reflexivity.
    - unfold sameBitrate. simpl.
      replace (b =? bitrate currentRange)%Z with false
        by (symmetry; apply Z.eqb_neq; congruence).
      reflexivity. }
  destruct (pre ++ [left; addedRange; right] ++ post) as [| first rest];
    [reflexivity |].
  apply mergeContiguousRanges_from_unmergeable. exact Hmerge.
Qed.

(** The candidate starts where the existing range does: the left
    remainder is of zero length and is pruned. *)
Lemma split_insertInto_at_start :
  start currentRange == s ->
  insertInto ranges b s e = (Ok tt, pre ++ [addedRange; right] ++ post).
Proof.
  intros Heq. rewrite split_insertInto_eq. f_equal.
  pose proof split_right_unmergeable as Hright.
  destruct split_left_unmergeable as [_ Hleft].
  unfold ranges in *.
  apply Forall_app in Hall. destruct Hall as [Hallpre Hallpost].
  apply Forall_cons in Hallpost. destruct Hallpost as [Hcur Hallpost].
  change (pre ++ [left; addedRange; right] ++ post)
    with (pre ++ left :: ([addedRange; right] ++ post)).
  rewrite removeEmptyRanges_from_single.
  2:{ exact Hallpre. }
  2:{ simpl. exact Heq. }
  2:{ repeat (apply Forall_cons; split); try assumption;
        unfold nonEmpty; simpl; assumption. }
  assert (Hmerge : unmergeable (pre ++ [addedRange; right] ++ post)).
  { apply adjacent_app in Hleft. destruct Hleft as (Hunpre & _ & Hlink).
    apply adjacent_app. split; [exact Hunpre |]. split; [| exact Hlink].
    simpl. split; [| exact Hright].
    unfold sameBitrate. simpl.
    replace (b =? bitrate currentRange)%Z with false
      by (symmetry; apply Z.eqb_neq; congruence).
    reflexivity. }
  destruct (pre ++ [addedRange; right] ++ post) as [| first rest];
    [reflexivity |].
  apply mergeContiguousRanges_from_unmergeable. exact Hmerge.
Qed.
End Split.

(** C2, as amended.  [insert] is called with a candidate that lies
    inside one range of the engine, of a different bitrate
    ([existing.start <= start], [end < existing.end]); the ranges of the
    engine have [start < end], are ordered without overlap and
    unmergeable, and the earlier ones end more than the tolerance before
    the candidate starts.  When [existing.start < start], the existing
    range is replaced by its left remainder ([existing.start .. start],
    old bitrate), the candidate, and its right remainder
    ([end .. existing.end], old bitrate); when [existing.start == start],
    the left remainder is of zero length and is pruned: the candidate
    and the right remainder replace the existing range.  The other ranges
    stay as they are.  [insert(1, 0, 20)] followed by [insert(2, 5, 10)]
    on the empty engine yields [{0, 5, 1}, {5, 10, 2}, {10, 20, 1}]. *)
Theorem insert_splits_containing_range :
  (forall (dev : bool) (this : BufferedRanges.t)
          (pre post : list Range) (existing : Range) (b : Z) (s e : Q),
     BufferedRanges.ranges this = pre ++ existing :: post ->
     Forall nonEmpty (BufferedRanges.ranges this) ->
     ordered (BufferedRanges.ranges this) ->
     unmergeable (BufferedRanges.ranges this) ->
     0 <= s -> start existing <= s -> s < e -> e < end_ existing ->
     bitrate existing <> b ->
     Forall (fun p => end_ p + EPSILON <= s) pre ->
     let left := {| start := start existing; end_ := s;
                    bitrate := bitrate existing |} in
     let candidate := {| start := s; end_ := e; bitrate := b |} in
     let right := {| start := e; end_ := end_ existing;
                     bitrate := bitrate existing |} in
     (start existing < s ->
      let rs := pre ++ [left; candidate; right] ++ post in
      BufferedRanges.insert dev this b s e
      = (Ok rs, {| BufferedRanges.ranges := rs;
                   BufferedRanges.length := length rs |}))
     /\ (start existing == s ->
         let rs := pre ++ [candidate; right] ++ post in
         BufferedRanges.insert dev this b s e
         = (Ok rs, {| BufferedRanges.ranges := rs;
                      BufferedRanges.length := length rs |})))
  /\ BufferedRanges.ranges
       (snd (BufferedRanges.insert true
               (snd (BufferedRanges.insert true BufferedRanges.new 1 0 20))
               2 5 10))
     = [ {| start := 0; end_ := 5; bitrate := 1 |};
         {| start := 5; end_ := 10; bitrate := 2 |};
         {| start := 10; end_ := 20; bitrate := 1 |} ].
Proof.
  split; [| reflexivity].
  intros dev this pre post existing b s e Hthis Hall Hord Hun H0 Hstart Hlt
    Hend Hbitrate Hpre left candidate right.
  rewrite Hthis in *.
  split; intros Hcase rs; (apply insert_accepted; [exact H0 | exact Hlt |]);
    rewrite Hthis.
  - apply split_insertInto; assumption.
  - apply split_insertInto_at_start; assumption.
Qed.

Lemma insert_splits_containing_range_witness :
  BufferedRanges.insert true
    {| BufferedRanges.ranges :=
         [ {| start := 0; end_ := 3; bitrate := 3 |};
           {| start := 5; end_ := 20; bitrate := 1 |};
           {| start := 20; end_ := 30; bitrate := 2 |} ];
       BufferedRanges.length := 3 |} 2 7 10
  = (Ok [ {| start := 0; end_ := 3; bitrate := 3 |};
          {| start := 5; end_ := 7; bitrate := 1 |};
          {| start := 7; end_ := 10; bitrate := 2 |};
          {| start := 10; end_ := 20; bitrate := 1 |};
          {| start := 20; end_ := 30; bitrate := 2 |} ],
     {| BufferedRanges.ranges :=
          [ {| start := 0; end_ := 3; bitrate := 3 |};
            {| start := 5; end_ := 7; bitrate := 1 |};
            {| start := 7; end_ := 10; bitrate := 2 |};
            {| start := 10; end_ := 20; bitrate := 1 |};
            {| start := 20; end_ := 30; bitrate := 2 |} ];
        BufferedRanges.length := 5 |}).
Proof.
  refine (proj1
            (proj1 insert_splits_containing_range true
               {| BufferedRanges.ranges :=
                    [ {| start := 0; end_ := 3; bitrate := 3 |};
                      {| start := 5; end_ := 20; bitrate := 1 |};
                      {| start := 20; end_ := 30; bitrate := 2 |} ];
                  BufferedRanges.length := 3 |}
               [ {| start := 0; end_ := 3; bitrate := 3 |} ]
               [ {| start := 20; end_ := 30; bitrate := 2 |} ]
               {| start := 5; end_ := 20; bitrate := 1 |} 2%Z 7 10
               eq_refl _ _ _ _ _ _ _ _ _) _).
  - repeat (apply Forall_cons; split); try constructor.
  - simpl. split; [| split]; try exact I; discriminate.
  - simpl. split; [| split]; try exact I; reflexivity.
  - discriminate.
  - discriminate.
  - reflexivity.
  - reflexivity.
  - discriminate.
  - apply Forall_cons. split; [| constructor]. simpl. unfold EPSILON.
    discriminate.
  - reflexivity.
Defined.

(** C2 as stated fails when the candidate starts where the existing
    range starts: [insert(1, 0, 20)] followed by [insert(2, 0, 10)] leaves
    two ranges, the left remainder [{0, 0, 1}] being pruned.  It also
    fails when the candidate starts within the tolerance of an earlier
    range of its own bitrate: on [{0, 5, 2}, {5, 20, 1}],
    [insert(2, 5.000001, 10)] merges the candidate with [{0, 5, 2}] and
    leaves no left remainder either. *)
Lemma insert_at_existing_start_leaves_two :
  let existing := {| start := 0; end_ := 20; bitrate := 1 |} in
  let candidate := {| start := 0; end_ := 10; bitrate := 2 |} in
  let this := snd (BufferedRanges.insert true BufferedRanges.new 1 0 20) in
  let a := snd (BufferedRanges.insert true BufferedRanges.new 2 0 5) in
  let b := snd (BufferedRanges.insert true a 1 5 20) in
  (BufferedRanges.ranges this = [existing]
   /\ isContainedInto existing candidate = true
   /\ bitrate existing <> bitrate candidate
   /\ BufferedRanges.ranges (snd (BufferedRanges.insert true this 2 0 10))
      = [ {| start := 0; end_ := 10; bitrate := 2 |};
          {| start := 10; end_ := 20; bitrate := 1 |} ]
   /\ BufferedRanges.ranges (snd (BufferedRanges.insert true this 2 0 10))
      <> [ {| start := 0; end_ := 0; bitrate := 1 |};
           {| start := 0; end_ := 10; bitrate := 2 |};
           {| start := 10; end_ := 20; bitrate := 1 |} ])
  /\ (BufferedRanges.ranges b
      = [ {| start := 0; end_ := 5; bitrate := 2 |};
          {| start := 5; end_ := 20; bitrate := 1 |} ]
      /\ isContainedInto {| start := 5; end_ := 20; bitrate := 1 |}
           {| start := 5000001 # 1000000; end_ := 10; bitrate := 2 |} = true
      /\ BufferedRanges.ranges
           (snd (BufferedRanges.insert true b 2 (5000001 # 1000000) 10))
         = [ {| start := 0; end_ := 10; bitrate := 2 |};
             {| start := 10; end_ := 20; bitrate := 1 |} ]).
Proof. repeat split; discriminate. Qed.

(** ** Insertion and coverage *)

(** C10.  A call [insert(b, s, e)] with [0 <= s < e] returns, and, on
    any engine, reachable or not, every timestamp that some stored range
    held before the call is held by some stored range after it, as is
    every timestamp of [[s, e)]. *)
Theorem insert_keeps_coverage
  (dev : bool) (this : BufferedRanges.t) (b : Z) (s e : Q) :
  0 <= s -> s < e ->
  exists rs,
    BufferedRanges.insert dev this b s e
    = (Ok rs, {| BufferedRanges.ranges := rs;
                 BufferedRanges.length := length rs |})
    /\ (forall t, covered (BufferedRanges.ranges this) t -> covered rs t)
    /\ (forall t, s <= t < e -> covered rs t).
Proof.
  intros H0 Hlt.
  destruct (insertInto_covered (BufferedRanges.ranges this) b s e Hlt)
    as (rs & Hrs & Hcov).
  exists rs. split; [apply insert_accepted; assumption |].
  split; intros t Ht; apply Hcov; [left | right]; exact Ht.
Qed.

Lemma insert_keeps_coverage_witness :
  exists rs,
    BufferedRanges.insert true
      {| BufferedRanges.ranges :=
           [ {| start := 0; end_ := 10; bitrate := 1 |};
             {| start := 10; end_ := 20; bitrate := 2 |} ];
         BufferedRanges.length := 2 |} 3 5 15
    = (Ok rs, {| BufferedRanges.ranges := rs;
                 BufferedRanges.length := length rs |})
    /\ (forall t,
          covered [ {| start := 0; end_ := 10; bitrate := 1 |};
                    {| start := 10; end_ := 20; bitrate := 2 |} ] t ->
          covered rs t)
    /\ (forall t, 5 <= t < 15 -> covered rs t).
Proof.
  refine (insert_keeps_coverage true
            {| BufferedRanges.ranges :=
                 [ {| start := 0; end_ := 10; bitrate := 1 |};
                   {| start := 10; end_ := 20; bitrate := 2 |} ];
               BufferedRanges.length := 2 |} 3%Z 5 15 _ _).
  - discriminate.
  - reflexivity.
Defined.

(** ** Insertion next to a range of another bitrate *)

(** C1: the code breaks the claim.  A range inserted less than the
    tolerance after the end of a range of another bitrate is contiguous
    with it without overlapping it; the scan then stops and the range is
    spliced in before the one it follows.  [insert(1, 0, 10)] followed by
    [insert(2, 10.000001, 20)] leaves [{10.000001, 20, 2}, {0, 10, 1}],
    which is not ordered, even within the tolerance; four such calls
    leave the neighbours [{0, 1, 1}, {1, 3, 1}], contiguous and of the
    same bitrate. *)
Theorem insert_after_near_contiguous_breaks_order :
  let one := snd (BufferedRanges.insert true BufferedRanges.new 1 0 10) in
  let two :=
    snd (BufferedRanges.insert true one 2 (10000001 # 1000000) 20) in
  let a := snd (BufferedRanges.insert true BufferedRanges.new 1 1 2) in
  let b := snd (BufferedRanges.insert true a 2 (2000001 # 1000000) 3) in
  let c := snd (BufferedRanges.insert true b 1 0 1) in
  let d := snd (BufferedRanges.insert true c 1 2 3) in
  (inserted two
   /\ BufferedRanges.ranges two
      = [ {| start := 10000001 # 1000000; end_ := 20; bitrate := 2 |};
          {| start := 0; end_ := 10; bitrate := 1 |} ]
   /\ ~ nearlyOrdered (BufferedRanges.ranges two))
  /\ (inserted d
      /\ BufferedRanges.ranges d
         = [ {| start := 0; end_ := 1; bitrate := 1 |};
             {| start := 1; end_ := 3; bitrate := 1 |} ]
      /\ ~ unmergeable (BufferedRanges.ranges d)).
Proof.
  split; (split; [| split; [reflexivity |]]).
  - repeat (apply inserted_insert; [| discriminate | reflexivity]).
    apply inserted_new.
  - intros [Hle _]. simpl in Hle. unfold EPSILON in Hle. lra.
  - repeat (apply inserted_insert; [| discriminate | reflexivity]).
    apply inserted_new.
  - intros [Hpair _]. discriminate Hpair.
Qed.

(** C3: the code breaks the claim, by the same misplaced insertion as
    for C1.  On the engine that [insert(1, 0, 10)] and
    [insert(2, 10.000001, 20)] build, [insert(1, 0, 20)] leaves
    [{0, 20, 1}, {0, 10, 1}]: the scan stops at the first range, which it
    takes for the last one affected.  The same call once more leaves
    [{0, 20, 1}]. *)
Theorem insert_twice_differs_after_misplaced_insert :
  let one := snd (BufferedRanges.insert true BufferedRanges.new 1 0 10) in
  let two :=
    snd (BufferedRanges.insert true one 2 (10000001 # 1000000) 20) in
  let once := snd (BufferedRanges.insert true two 1 0 20) in
  let twice := snd (BufferedRanges.insert true once 1 0 20) in
  inserted two
  /\ BufferedRanges.ranges once
     = [ {| start := 0; end_ := 20; bitrate := 1 |};
         {| start := 0; end_ := 10; bitrate := 1 |} ]
  /\ BufferedRanges.ranges twice
     = [ {| start := 0; end_ := 20; bitrate := 1 |} ]
  /\ BufferedRanges.ranges twice <> BufferedRanges.ranges once.
Proof.
  split; [| split; [reflexivity | split; [reflexivity | discriminate]]].
  repeat (apply inserted_insert; [| discriminate | reflexivity]).
  apply inserted_new.
Qed.

(** The zero-length ranges that [insert] itself can leave, once the
    order is lost: after five valid calls the engine holds [{1, 1, 2}]. *)
Lemma insert_leaves_empty_range_after_misplaced_insert :
  let a := snd (BufferedRanges.insert true BufferedRanges.new 1 0 1) in
  let b := snd (BufferedRanges.insert true a 2 1 2) in
  let c := snd (BufferedRanges.insert true b 2 (1000001 # 1000000) 3) in
  let d := snd (BufferedRanges.insert true c 1 (1000001 # 1000000) 2) in
  let e := snd (BufferedRanges.insert true d 3 0 1) in
  inserted e
  /\ BufferedRanges.ranges e
     = [ {| start := 0; end_ := 1; bitrate := 3 |};
         {| start := 1; end_ := 1; bitrate := 2 |};
         {| start := 1; end_ := 2; bitrate := 1 |};
         {| start := 2; end_ := 3; bitrate := 2 |} ].
Proof.
  split; [| reflexivity].
  repeat (apply inserted_insert; [| discriminate | reflexivity]).
  apply inserted_new.
Qed.

(** ** The examples of the specification *)

Example merge_example :
  BufferedRanges.ranges
    (snd (BufferedRanges.insert true
            (snd (BufferedRanges.insert true BufferedRanges.new 1 0 10))
            1 10 20))
  = [ {| start := 0; end_ := 20; bitrate := 1 |} ].
Proof. reflexivity. Qed.

Example partial_overlap_example :
  BufferedRanges.ranges
    (snd (BufferedRanges.insert true
            (snd (BufferedRanges.insert true BufferedRanges.new 1 0 10))
            2 5 15))
  = [ {| start := 0; end_ := 5; bitrate := 1 |};
      {| start := 5; end_ := 15; bitrate := 2 |} ].
Proof. reflexivity. Qed.

Example containment_override_example :
  BufferedRanges.ranges
    (snd (BufferedRanges.insert true
            (snd (BufferedRanges.insert true BufferedRanges.new 1 0 20))
            2 0 20))
  = [ {| start := 0; end_ := 20; bitrate := 2 |} ].
Proof. reflexivity. Qed.

(** ** More on the queries *)

Section GetNextRangeGap.
Context {C : Type} `{Ranges.t C}.
Variables (ranges : C) (st en : nat -> Q) (ts : Q).
Hypothesis Hanswers : answers ranges st en.

Lemma getNextRangeGap_loop_found : forall n i k,
  (i + n <= Ranges.length ranges)%nat ->
  (i <= k < i + n)%nat ->
  ts < st k ->
  (forall j, (i <= j < k)%nat -> st j <= ts) ->
  getNextRangeGap_loop ts ranges i n = Ok (Finite (st k - ts)).
Proof.
  induction n as [| n IH]; intros i k Hn Hk Hlt Hlow; [lia |].
  simpl. destruct (Hanswers i) as [-> _]; [lia |]. simpl.
  destruct (Nat.eq_dec k i) as [-> | Hne].
  - rewrite (proj2 (Qltb_true _ _) Hlt). reflexivity.
  - assert (Hi : st i <= ts) by (apply Hlow; lia).
    rewrite (proj2 (Qltb_false _ _) Hi).
    apply IH; [lia | lia | exact Hlt |].
    intros j Hj. apply Hlow. lia.
Qed.

Lemma getNextRangeGap_loop_none : forall n i,
  (i + n <= Ranges.length ranges)%nat ->
  (forall j, (i <= j < i + n)%nat -> st j <= ts) ->
  getNextRangeGap_loop ts ranges i n = Ok Infinity.
Proof.
  induction n as [| n IH]; intros i Hn Hlow; [reflexivity |].
  simpl. destruct (Hanswers i) as [-> _]; [lia |]. simpl.
  assert (Hi : st i <= ts) by (apply Hlow; lia).
  rewrite (proj2 (Qltb_false _ _) Hi).
  apply IH; [lia |]. intros j Hj. apply Hlow. lia.
Qed.

(** The first range that starts after [ts], or none. *)
Lemma lowest_start_after : forall n,
  (exists k, (k < n)%nat /\ ts < st k
             /\ forall j, (j < k)%nat -> st j <= ts)
  \/ (forall k, (k < n)%nat -> st k <= ts).
Proof.
  induction n as [| n IH].
  - right. intros k Hk. lia.
  - destruct IH as [(k & Hk & Hlt & Hlow) | Hall].
    + left. exists k. split; [lia |]. split; assumption.
    + destruct (Qlt_le_dec ts (st n)) as [Hlt | Hle].
      * left. exists n. split; [lia |]. split; [exact Hlt |].
        intros j Hj. apply Hall. exact Hj.
      * right. intros k Hk.
        destruct (Nat.eq_dec k n) as [-> | Hne];
          [exact Hle | apply Hall; lia].
Qed.
End GetNextRangeGap.

(** X1.  [getNextRangeGap(ts, ranges)] is the distance from [ts] to the
    start of the lowest-indexed range that starts strictly after [ts]; it
    is [Infinity] exactly when no range starts after [ts], and a finite
    result is strictly positive. *)
Theorem getNextRangeGap_first_start_after {C : Type} `{Ranges.t C}
  (ranges : C) (st en : nat -> Q) (ts : Q) :
  answers ranges st en ->
  (forall k, (k < Ranges.length ranges)%nat ->
     ts < st k -> (forall j, (j < k)%nat -> st j <= ts) ->
     getNextRangeGap ts ranges = Ok (Finite (st k - ts)))
  /\ (getNextRangeGap ts ranges = Ok Infinity
      <-> forall k, (k < Ranges.length ranges)%nat -> st k <= ts)
  /\ (forall q, getNextRangeGap ts ranges = Ok (Finite q) -> 0 < q).
Proof.
  intros Hanswers.
  assert (Hfound : forall k, (k < Ranges.length ranges)%nat ->
    ts < st k -> (forall j, (j < k)%nat -> st j <= ts) ->
    getNextRangeGap ts ranges = Ok (Finite (st k - ts))).
  { intros k Hk Hlt Hlow. unfold getNextRangeGap.
    apply (getNextRangeGap_loop_found ranges st en ts Hanswers);
      [lia | lia | exact Hlt |].
    intros j Hj. apply Hlow. lia. }
  assert (Hnone : (forall k, (k < Ranges.length ranges)%nat -> st k <= ts) ->
    getNextRangeGap ts ranges = Ok Infinity).
  { intros Hall. unfold getNextRangeGap.
    apply (getNextRangeGap_loop_none ranges st en ts Hanswers); [lia |].
    intros j Hj. apply Hall. lia. }
  split; [exact Hfound |]. split; [split; [| exact Hnone] |].
  - intros Hinf.
    destruct (lowest_start_after st ts (Ranges.length ranges))
      as [(k & Hk & Hlt & Hlow) | Hall]; [| exact Hall].
    rewrite (Hfound k Hk Hlt Hlow) in Hinf. discriminate.
  - intros q Hq.
    destruct (lowest_start_after st ts (Ranges.length ranges))
      as [(k & Hk & Hlt & Hlow) | Hall].
    + rewrite (Hfound k Hk Hlt Hlow) in Hq. injection Hq as <-. lra.
    + rewrite (Hnone Hall) in Hq. discriminate.
Qed.

Lemma getNextRangeGap_first_start_after_witness :
  getNextRangeGap 12
    {| tr_length := 3;
       tr_start := fun i => inject_Z (10 * Z.of_nat i);
       tr_end := fun i => inject_Z (10 * Z.of_nat i) + 5 |}
  = Ok (Finite (inject_Z (10 * Z.of_nat 2) - 12)).
Proof.
  refine (proj1
            (getNextRangeGap_first_start_after
               {| tr_length := 3;
                  tr_start := fun i => inject_Z (10 * Z.of_nat i);
                  tr_end := fun i => inject_Z (10 * Z.of_nat i) + 5 |}
               (fun i => inject_Z (10 * Z.of_nat i))
               (fun i => inject_Z (10 * Z.of_nat i) + 5) 12 _)
            2%nat _ _ _).
  - intros i Hi. split; reflexivity.
  - simpl. lia.
  - reflexivity.
  - intros j Hj.
    destruct j as [| [| j]]; [discriminate | discriminate | lia].
Defined.

(** The range that the free [getRange] returns starts at or before
    [ts], whatever the collection. *)
Lemma getRange_start_le {C : Type} `{Ranges.t C} (ts : Q) (ranges : C) r :
  getRange ts ranges = Ok (Some r) -> se_start r <= ts.
Proof.
  unfold getRange.
  destruct (getRange_loop ts ranges (Ranges.length ranges) Unread)
    as [[| s e] | err]; simpl; try discriminate.
  destruct (Qle_bool s ts) eqn:Hle; [| discriminate].
  intros [= <-]. simpl. apply Qle_bool_true. exact Hle.
Qed.

(** X2.  [getGap], [getLoaded] and [getSize] resolve their argument in
    the same way: when [getGap] returns [Infinity], no range was found
    and [getLoaded] and [getSize] return [0]; when one of the three
    throws, the other two throw the same error.  On a collection, the
    range found starts at or before [ts], so that the loaded time is
    never negative. *)
Theorem getGap_getLoaded_getSize {C : Type} `{Ranges.t C}
  (ts : Q) (x : rangesOrRange C) (ranges : C) :
  (getGap ts x = Ok Infinity ->
   getLoaded ts x = Ok 0 /\ getSize ts x = Ok 0)
  /\ (forall err,
        (getGap ts x = Throw err <-> getLoaded ts x = Throw err)
        /\ (getGap ts x = Throw err <-> getSize ts x = Throw err))
  /\ (forall loaded,
        getLoaded ts (IsRanges ranges) = Ok loaded -> 0 <= loaded).
Proof.
  split; [| split].
  - unfold getGap, getLoaded, getSize.
    destruct (resolve ts x) as [[r |] | err]; simpl; try discriminate.
    intros _. split; reflexivity.
  - intros err. unfold getGap, getLoaded, getSize.
    destruct (resolve ts x) as [[r |] | err']; simpl;
      split; split; intros Heq; try discriminate;
      injection Heq as ->; reflexivity.
  - intros loaded. unfold getLoaded. simpl.
    destruct (getRange ts ranges) as [[r |] | err] eqn:Hr; simpl;
      try discriminate.
    + intros [= <-]. apply getRange_start_le in Hr. lra.
    + intros [= <-]. lra.
Qed.

Lemma getGap_getLoaded_getSize_witness :
  0 <= 4 - 0.
Proof.
  refine (proj2 (proj2
            (getGap_getLoaded_getSize 4
               (IsRanges
                  {| BufferedRanges.ranges :=
                       [{| start := 0; end_ := 10; bitrate := 1 |}];
                     BufferedRanges.length := 1 |})
               {| BufferedRanges.ranges :=
                    [{| start := 0; end_ := 10; bitrate := 1 |}];
                  BufferedRanges.length := 1 |}))
            (4 - 0) _).
  reflexivity.
Defined.

(** ** The engine's own [getRange] *)

Lemma getRange_loop_Some rs time r :
  BufferedRanges.getRange_loop rs time = Some r ->
  exists before after,
    rs = before ++ r :: after
    /\ inRange r time
    /\ Forall (fun r' => ~ inRange r' time) before.
Proof.
  induction rs as [| r0 rs IH]; simpl; [discriminate |].
  destruct (isPointInRange r0 time) eqn:Hin.
  - intros [= <-]. exists [], rs. split; [reflexivity |].
    split; [| constructor]. unfold inRange. solve_tests.
  - intros Hfound. destruct (IH Hfound) as (before & after & -> & Hr & Hall).
    exists (r0 :: before), after. split; [reflexivity |].
    split; [exact Hr |]. apply Forall_cons. split; [| exact Hall].
    unfold inRange. intros [H1 H2]. solve_tests.
Qed.

Lemma getRange_loop_None rs time :
  BufferedRanges.getRange_loop rs time = None <-> ~ covered rs time.
Proof.
  induction rs as [| r0 rs IH]; simpl.
  - split; [intros _ Hcov; inversion Hcov | reflexivity].
  - rewrite covered_cons. destruct (isPointInRange r0 time) eqn:Hin.
    + split; [discriminate |]. intros Hnot. exfalso. apply Hnot. left.
      unfold inRange. solve_tests.
    + rewrite IH. split.
      * intros Hnot [[H1 H2] | Hcov]; [solve_tests | exact (Hnot Hcov)].
      * intros Hnot Hcov. apply Hnot. right. exact Hcov.
Qed.

(** X3.  The method [getRange(time)] returns the first stored range
    with [start <= time < end], and [null] exactly when no stored range
    holds [time]. *)
Theorem getRange_first_holding (this : BufferedRanges.t) (time : Q) :
  (forall r, BufferedRanges.getRange this time = Some r ->
     exists before after,
       BufferedRanges.ranges this = before ++ r :: after
       /\ inRange r time
       /\ Forall (fun r' => ~ inRange r' time) before)
  /\ (BufferedRanges.getRange this time = None
      <-> ~ covered (BufferedRanges.ranges this) time).
Proof.
  split.
  - intros r. apply getRange_loop_Some.
  - apply getRange_loop_None.
Qed.

Lemma getRange_first_holding_witness :
  exists before after,
    [ {| start := 0; end_ := 5; bitrate := 1 |};
      {| start := 5; end_ := 10; bitrate := 2 |} ]
    = before ++ {| start := 5; end_ := 10; bitrate := 2 |} :: after
    /\ inRange {| start := 5; end_ := 10; bitrate := 2 |} 7
    /\ Forall (fun r' => ~ inRange r' 7) before.
Proof.
  refine (proj1
            (getRange_first_holding
               {| BufferedRanges.ranges :=
                    [ {| start := 0; end_ := 5; bitrate := 1 |};
                      {| start := 5; end_ := 10; bitrate := 2 |} ];
                  BufferedRanges.length := 2 |} 7)
            {| start := 5; end_ := 10; bitrate := 2 |} _).
  reflexivity.
Defined.

(** ** The tests on two ranges *)

(** X4.  For two ranges with [start < end], [areOverlappingRanges(r1, r2)]
    holds exactly when the ranges share a timestamp or [r2] ends where
    [r1] starts.  So the test is not symmetric: of two ranges that touch,
    the later one overlaps the earlier one, not the other way round. *)
Theorem areOverlappingRanges_share_or_touch (r1 r2 : Range) :
  nonEmpty r1 -> nonEmpty r2 ->
  (areOverlappingRanges r1 r2 = true
   <-> (exists t, inRange r1 t /\ inRange r2 t) \/ end_ r2 == start r1)
  /\ (end_ r2 == start r1 ->
      areOverlappingRanges r1 r2 = true
      /\ areOverlappingRanges r2 r1 = false).
Proof.
  unfold nonEmpty. intros H1 H2.
  assert (Hiff : areOverlappingRanges r1 r2 = true
    <-> (exists t, inRange r1 t /\ inRange r2 t) \/ end_ r2 == start r1).
  { split.
    - intros Hover. unfold inRange.
      destruct (Qeq_dec (end_ r2) (start r1)) as [Heq | Hne];
        [right; exact Heq | left].
      destruct (Qlt_le_dec (start r1) (start r2)).
      + exists (start r2). solve_tests.
      + exists (start r1). solve_tests.
    - intros [(t & Ht1 & Ht2) | Heq].
      + apply (inRange_overlapping r1 r2 t); assumption.
      + unfold_tests.
        rewrite !orb_true_iff, !andb_true_iff, !Qle_bool_true, !Qltb_true.
        left. right. lra. }
  split; [exact Hiff |].
  intros Heq. split; [apply Hiff; right; exact Heq |].
  unfold_tests.
  rewrite !orb_false_iff, !andb_false_iff, !Qle_bool_false, !Qltb_false.
  repeat split; lra.
Qed.

Lemma areOverlappingRanges_share_or_touch_witness :
  areOverlappingRanges {| start := 5; end_ := 10; bitrate := 2 |}
    {| start := 0; end_ := 5; bitrate := 1 |} = true
  /\ areOverlappingRanges {| start := 0; end_ := 5; bitrate := 1 |}
       {| start := 5; end_ := 10; bitrate := 2 |} = false.
Proof.
  refine (proj2
            (areOverlappingRanges_share_or_touch
               {| start := 5; end_ := 10; bitrate := 2 |}
               {| start := 0; end_ := 5; bitrate := 1 |} _ _) _);
    reflexivity.
Defined.

Lemma nearlyEqual_sym a b : nearlyEqual a b = nearlyEqual b a.
Proof.
  destruct (nearlyEqual b a) eqn:Hba.
  - apply nearlyEqual_true. apply nearlyEqual_true in Hba. lra.
  - apply nearlyEqual_false. apply nearlyEqual_false in Hba. lra.
Qed.

(** X5.  [isContainedInto(r1, r2)], for [r2] with [start < end], holds
    exactly when [r2] starts at or after the start of [r1] and ends
    strictly before its end: no range is contained into itself.
    [areContiguousWithRanges] is symmetric, and two ranges with
    [start < end] that are ordered and contiguous are less than the
    tolerance apart. *)
Theorem isContainedInto_strict_end (r1 r2 : Range) :
  nonEmpty r2 ->
  (isContainedInto r1 r2 = true
   <-> start r1 <= start r2 /\ end_ r2 < end_ r1)
  /\ isContainedInto r2 r2 = false
  /\ areContiguousWithRanges r1 r2 = areContiguousWithRanges r2 r1
  /\ (nonEmpty r1 -> end_ r1 <= start r2 ->
      (areContiguousWithRanges r1 r2 = true
       <-> start r2 - end_ r1 < EPSILON)).
Proof.
  unfold nonEmpty. intros H2. split; [| split; [| split]].
  - unfold_tests.
    rewrite !andb_true_iff, !Qle_bool_true, !Qltb_true. intuition lra.
  - unfold_tests.
    rewrite !andb_false_iff, !Qle_bool_false, !Qltb_false. right. right.
    apply Qle_refl.
  - unfold areContiguousWithRanges.
    rewrite (nearlyEqual_sym (start r2) (end_ r1)).
    rewrite (nearlyEqual_sym (end_ r2) (start r1)).
    apply orb_comm.
  - intros H1 Hord. unfold areContiguousWithRanges.
    rewrite orb_true_iff, !nearlyEqual_true. unfold EPSILON.
    intuition lra.
Qed.

Lemma isContainedInto_strict_end_witness :
  isContainedInto {| start := 0; end_ := 20; bitrate := 1 |}
    {| start := 0; end_ := 10; bitrate := 2 |} = true.
Proof.
  refine (proj2
            (proj1
               (isContainedInto_strict_end
                  {| start := 0; end_ := 20; bitrate := 1 |}
                  {| start := 0; end_ := 10; bitrate := 2 |} _)) _).
  - reflexivity.
  - split; [discriminate | reflexivity].
Defined.

(** ** The clean-up passes on their own *)

Lemma removeEmptyRanges_from_sublist : forall n suf,
  (length suf <= n)%nat ->
  sublist (removeEmptyRanges_from suf) suf
  /\ List.filter nonZero (removeEmptyRanges_from suf)
     = List.filter nonZero suf.
Proof.
  induction n as [| n IH]; intros suf Hlen.
  - destruct suf; [| simpl in Hlen; lia]. split; [constructor | reflexivity].
  - destruct suf as [| range rest]; [split; [constructor | reflexivity] |].
    simpl in Hlen. simpl removeEmptyRanges_from.
    destruct (Qeq_bool (start range) (end_ range)) eqn:Hempty.
    + assert (Hdrop : List.filter nonZero (range :: rest)
                      = List.filter nonZero rest).
      { simpl. unfold nonZero at 1. rewrite Hempty. reflexivity. }
      rewrite Hdrop.
      destruct rest as [| r1 [| r2 rest']].
      * split; [apply sublist_cons; constructor | reflexivity].
      * split; [apply sublist_cons; reflexivity | reflexivity].
      * destruct (IH rest') as [Hsub Hfilter]; [simpl in Hlen; lia |].
        split.
        -- apply sublist_cons. apply sublist_skip, sublist_skip. exact Hsub.
        -- simpl. rewrite Hfilter. reflexivity.
    + destruct (IH rest) as [Hsub Hfilter]; [lia |]. split.
      * apply sublist_skip. exact Hsub.
      * assert (Hnz : nonZero range = true)
          by (unfold nonZero; rewrite Hempty; reflexivity).
        simpl. rewrite Hnz, Hfilter. reflexivity.
Qed.

(** X6.  [removeEmptyRanges] only removes ranges with [start == end]:
    what it returns is its argument with some of its elements left out,
    and the ranges with [start != end] are all there, in their order.
    When no range of the result is of zero length, the result is the
    argument without its zero-length ranges. *)
Theorem removeEmptyRanges_keeps_others (ranges : list Range) :
  sublist (removeEmptyRanges ranges) ranges
  /\ List.filter nonZero (removeEmptyRanges ranges)
     = List.filter nonZero ranges
  /\ (Forall nonEmpty ranges -> removeEmptyRanges ranges = ranges)
  /\ (forallb nonZero (removeEmptyRanges ranges) = true ->
      removeEmptyRanges ranges = List.filter nonZero ranges).
Proof.
  rewrite removeEmptyRanges_eq.
  destruct (removeEmptyRanges_from_sublist (length ranges) ranges (Nat.le_refl _))
    as [Hsub Hfilter].
  split; [exact Hsub |]. split; [exact Hfilter |]. split.
  - apply removeEmptyRanges_from_nonEmpty.
  - intros Hall. rewrite <- Hfilter.
    generalize dependent (removeEmptyRanges_from ranges).
    intros l _ _ Hall. induction l as [| r l IH]; [reflexivity |].
    simpl in *. apply andb_true_iff in Hall. destruct Hall as [Hr Hall].
    rewrite Hr. rewrite <- IH by exact Hall. reflexivity.
Qed.

Lemma removeEmptyRanges_keeps_others_witness :
  removeEmptyRanges
    [ {| start := 0; end_ := 5; bitrate := 1 |};
      {| start := 5; end_ := 10; bitrate := 2 |} ]
  = [ {| start := 0; end_ := 5; bitrate := 1 |};
      {| start := 5; end_ := 10; bitrate := 2 |} ].
Proof.
  refine (proj1 (proj2 (proj2
            (removeEmptyRanges_keeps_others
               [ {| start := 0; end_ := 5; bitrate := 1 |};
                 {| start := 5; end_ := 10; bitrate := 2 |} ]))) _).
  repeat (apply Forall_cons; split); try constructor.
Defined.

Lemma adjacent_cons P a b l :
  adjacent P (a :: b :: l) <-> P a b /\ adjacent P (b :: l).
Proof. reflexivity. Qed.

(** On an ordered array the merged range that takes the place of
    [prevRange] starts where it starts, ends at or after its end and has
    its bitrate. *)
Lemma mergeContiguousRanges_from_ordered : forall suf prevRange,
  nonEmpty prevRange -> Forall nonEmpty suf -> ordered (prevRange :: suf) ->
  exists h t,
    mergeContiguousRanges_from prevRange suf = h :: t
    /\ start h = start prevRange
    /\ end_ prevRange <= end_ h
    /\ bitrate h = bitrate prevRange
    /\ ordered (h :: t) /\ unmergeable (h :: t) /\ Forall nonEmpty (h :: t)
    /\ (length t <= length suf)%nat.
Proof.
  induction suf as [| currRange rest IH]; intros prevRange Hp Hall Hord.
  { exists prevRange, []. simpl. repeat split; try exact I.
    - apply Qle_refl.
    - apply Forall_cons. split; [exact Hp | constructor].
    - lia. }
  apply Forall_cons in Hall. destruct Hall as [Hc Hall].
  apply adjacent_cons in Hord. destruct Hord as [Hle Hord].
  unfold nonEmpty in Hp, Hc. simpl mergeContiguousRanges_from.
  destruct (sameBitrate prevRange currRange
            && areContiguousWithRanges prevRange currRange) eqn:Hmerge.
  - apply andb_true_iff in Hmerge. destruct Hmerge as [Hsame _].
    apply Z.eqb_eq in Hsame.
    set (u := unionWithOverlappingOrContiguousRange prevRange currRange
                (bitrate currRange)).
    assert (Hstart : start u = start prevRange).
    { simpl. destruct (Qmin_cases (start prevRange) (start currRange))
        as [[_ ->] | [Hlt _]]; [reflexivity | lra]. }
    assert (Hend : end_ u = end_ currRange).
    { simpl. destruct (Qmax_cases (end_ prevRange) (end_ currRange))
        as [[_ ->] | [Hge _]]; [reflexivity | lra]. }
    destruct (IH u) as (h & t & -> & Hh1 & Hh2 & Hh3 & Hrest).
    + unfold nonEmpty. rewrite Hstart, Hend. lra.
    + exact Hall.
    + destruct rest as [| next rest']; [exact I |].
      apply adjacent_cons in Hord. destruct Hord as [Hnext Hord].
      apply adjacent_cons. split; [rewrite Hend; exact Hnext | exact Hord].
    + exists h, t. split; [reflexivity |].
      split; [congruence |]. split; [rewrite Hend in Hh2; lra |].
      split; [simpl in Hh3; congruence |].
      destruct Hrest as (H1 & H2 & H3 & H4).
      repeat split; try assumption. simpl. lia.
  - destruct (IH currRange Hc Hall Hord)
      as (h & t & Hm & Hh1 & Hh2 & Hh3 & H1 & H2 & H3 & H4).
    exists prevRange, (h :: t). rewrite Hm.
    split; [reflexivity |]. split; [reflexivity |].
    split; [apply Qle_refl |]. split; [reflexivity |].
    split; [| split; [| split]].
    + apply adjacent_cons. split; [rewrite Hh1; exact Hle | exact H1].
    + apply adjacent_cons. split; [| exact H2].
      unfold sameBitrate, areContiguousWithRanges in *.
      rewrite Hh1, Hh3.
      destruct (bitrate prevRange =? bitrate currRange)%Z; [| reflexivity].
      simpl in *. apply orb_false_iff in Hmerge. destruct Hmerge as [Hm1 Hm2].
      rewrite Hm1. simpl. apply nearlyEqual_false.
      apply nearlyEqual_false in Hm2. unfold EPSILON in *. lra.
    + apply Forall_cons. split; [exact Hp | exact H3].
    + simpl in *. lia.
Qed.

(** X7.  On an array of ranges with [start < end] that is ordered
    without overlap, [mergeContiguousRanges] returns an array that is
    ordered without overlap, holds only ranges with [start < end], has no
    two contiguous neighbours of the same bitrate, is not longer, and
    covers what the argument covers; running the pass again changes
    nothing. *)
Theorem mergeContiguousRanges_maximal (ranges : list Range) :
  Forall nonEmpty ranges -> ordered ranges ->
  ordered (mergeContiguousRanges ranges)
  /\ Forall nonEmpty (mergeContiguousRanges ranges)
  /\ unmergeable (mergeContiguousRanges ranges)
  /\ (length (mergeContiguousRanges ranges) <= length ranges)%nat
  /\ (forall t, covered ranges t -> covered (mergeContiguousRanges ranges) t)
  /\ mergeContiguousRanges (mergeContiguousRanges ranges)
     = mergeContiguousRanges ranges.
Proof.
  intros Hall Hord. rewrite !mergeContiguousRanges_eq.
  destruct ranges as [| first rest].
  { simpl. repeat split; try exact I; try constructor. intros t Ht. exact Ht. }
  apply Forall_cons in Hall. destruct Hall as [Hfirst Hall].
  destruct (mergeContiguousRanges_from_ordered rest first Hfirst Hall Hord)
    as (h & t & Hm & _ & _ & _ & H1 & H2 & H3 & H4).
  split; [rewrite Hm; exact H1 |]. split; [rewrite Hm; exact H3 |].
  split; [rewrite Hm; exact H2 |]. split; [rewrite Hm; simpl; lia |].
  split.
  - intros x Hx. apply mergeContiguousRanges_from_covered. exact Hx.
  - rewrite Hm. apply mergeContiguousRanges_from_unmergeable. exact H2.
Qed.

Lemma mergeContiguousRanges_maximal_witness :
  unmergeable
    (mergeContiguousRanges
       [ {| start := 0; end_ := 5; bitrate := 1 |};
         {| start := 5; end_ := 10; bitrate := 1 |};
         {| start := 10; end_ := 20; bitrate := 2 |} ]).
Proof.
  refine (proj1 (proj2 (proj2
            (mergeContiguousRanges_maximal
               [ {| start := 0; end_ := 5; bitrate := 1 |};
                 {| start := 5; end_ := 10; bitrate := 1 |};
                 {| start := 10; end_ := 20; bitrate := 2 |} ] _ _)))).
  - repeat (apply Forall_cons; split); try constructor.
  - simpl. repeat split; discriminate.
Defined.

(** ** More on [intersect] *)

Lemma ordered_after a : forall l,
  Forall weak l -> ordered (a :: l) ->
  Forall (fun r => end_ a <= start r) l.
Proof.
  intros l. revert a.
  induction l as [| b l IH]; intros a Hweak Hord; [constructor |].
  apply Forall_cons in Hweak. destruct Hweak as [Hb Hweak].
  apply adjacent_cons in Hord. destruct Hord as [Hle Hord].
  apply Forall_cons. split; [exact Hle |].
  apply (Forall_impl _ _ _ (IH b Hweak Hord)).
  intros r Hr. unfold weak in Hb. simpl in Hr. lra.
Qed.

Lemma ordered_cons_after a l :
  Forall (fun r => end_ a <= start r) l -> ordered l -> ordered (a :: l).
Proof.
  intros Hall Hord. destruct l as [| b l]; [exact I |].
  apply Forall_cons in Hall. destruct Hall as [Hb _].
  apply adjacent_cons. split; assumption.
Qed.

Lemma intersect_clamped_In ranges others r' :
  In r' (intersect_clamped ranges others) ->
  exists r o,
    In r ranges /\ In o others
    /\ areOverlappingRanges r o = true /\ r' = clamped r o.
Proof.
  unfold intersect_clamped. intros Hin.
  apply list_elem_of_In, list_elem_of_omap in Hin.
  destruct Hin as (r & Hr & Hfound).
  destruct (findOverlappingRange r others) as [o |] eqn:Ho; [| discriminate].
  injection Hfound as <-.
  destruct (findOverlappingRange_Some _ _ _ Ho) as [Hino Hover].
  exists r, o. split; [apply list_elem_of_In; exact Hr |].
  split; [exact Hino |]. split; [exact Hover | reflexivity].
Qed.

Lemma clamped_within range other :
  bitrate (clamped range other) = bitrate range
  /\ start range <= start (clamped range other)
  /\ end_ (clamped range other) <= end_ range
  /\ (areOverlappingRanges range other = true -> nonEmpty range ->
      nonEmpty other ->
      start other <= start (clamped range other)
      /\ end_ (clamped range other) <= end_ other).
Proof.
  unfold clamped. simpl.
  destruct (Qltb (start range) (start other)) eqn:H1;
    destruct (Qltb (end_ other) (end_ range)) eqn:H2;
    (split; [reflexivity |]); (split; [solve_tests |]);
    (split; [solve_tests |]); intros Hover Hr Ho; solve_tests.
Qed.

Lemma intersect_clamped_ordered others : forall ranges,
  Forall weak ranges -> ordered ranges ->
  ordered (intersect_clamped ranges others)
  /\ forall x, Forall (fun r => x <= start r) ranges ->
       Forall (fun r => x <= start r) (intersect_clamped ranges others).
Proof.
  unfold intersect_clamped.
  induction ranges as [| r rest IH]; intros Hweak Hord.
  { split; [exact I | intros x _; constructor]. }
  pose proof (ordered_after r rest) as Hafter.
  apply Forall_cons in Hweak. destruct Hweak as [Hr Hweak].
  specialize (Hafter Hweak Hord).
  destruct (IH Hweak (adjacent_tail _ _ _ Hord)) as [IH1 IH2].
  simpl. destruct (findOverlappingRange r others) as [o |]; simpl.
  - destruct (clamped_within r o) as (_ & Hs & He & _). split.
    + apply ordered_cons_after; [| exact IH1].
      apply (Forall_impl _ _ _ (IH2 (end_ r) Hafter)).
      intros q Hq. exact (Qle_trans _ _ _ He Hq).
    + intros x Hx. apply Forall_cons in Hx. destruct Hx as [Hxr Hx].
      apply Forall_cons.
      split; [exact (Qle_trans _ _ _ Hxr Hs) | apply IH2; exact Hx].
  - split; [exact IH1 |].
    intros x Hx. apply Forall_cons in Hx. destruct Hx as [_ Hx].
    apply IH2. exact Hx.
Qed.

Lemma intersect_clamped_length others : forall ranges,
  (length (intersect_clamped ranges others) <= length ranges)%nat.
Proof.
  unfold intersect_clamped.
  induction ranges as [| r rest IH]; [apply Nat.le_0_l |].
  simpl. destruct (findOverlappingRange r others); simpl.
  - apply le_n_S. exact IH.
  - apply Nat.le_le_succ_r. exact IH.
Qed.

(** X8.  [intersect] never adds a range: the array it leaves is not
    longer, and each of its ranges has the bitrate of a range of the
    engine within whose bounds it lies, and, when the ranges have
    [start < end], lies within the bounds of a range of [others] too.  It
    keeps an array with [start <= end] ordered without overlap.  With no
    [others], or on an empty engine, it leaves nothing. *)
Theorem intersect_shrinks (ranges others : list Range) :
  (length (intersect ranges others) <= length ranges)%nat
  /\ (forall r', In r' (intersect ranges others) ->
        exists r o,
          In r ranges /\ In o others
          /\ bitrate r' = bitrate r
          /\ start r <= start r' /\ end_ r' <= end_ r
          /\ (nonEmpty r -> nonEmpty o ->
              start o <= start r' /\ end_ r' <= end_ o))
  /\ (Forall weak ranges -> ordered ranges ->
      ordered (intersect ranges others))
  /\ intersect ranges [] = []
  /\ intersect [] others = [].
Proof.
  rewrite !intersect_eq, !intersect_from_clamped.
  split; [apply intersect_clamped_length |]. split; [| split; [| split]].
  - intros r' Hin.
    destruct (intersect_clamped_In _ _ _ Hin) as (r & o & Hr & Ho & Hover & ->).
    exists r, o. destruct (clamped_within r o) as (Hb & Hs & He & Hin').
    repeat split; try assumption; intros; apply Hin'; assumption.
  - intros Hweak Hord. apply intersect_clamped_ordered; assumption.
  - unfold intersect_clamped.
    induction ranges as [| r rest IH]; [reflexivity | exact IH].
  - reflexivity.
Qed.

Lemma intersect_shrinks_witness :
  ordered
    (intersect
       [ {| start := 0; end_ := 10; bitrate := 1 |};
         {| start := 12; end_ := 20; bitrate := 2 |} ]
       [ {| start := 5; end_ := 15; bitrate := 0 |} ]).
Proof.
  refine (proj1 (proj2 (proj2
            (intersect_shrinks
               [ {| start := 0; end_ := 10; bitrate := 1 |};
                 {| start := 12; end_ := 20; bitrate := 2 |} ]
               [ {| start := 5; end_ := 15; bitrate := 0 |} ]))) _ _).
  - repeat (apply Forall_cons; split); try constructor; discriminate.
  - simpl. repeat split. discriminate.
Defined.

(** ** What an insertion records *)

Section Recorded.
Variables (b : Z) (s e : Q).
Hypothesis Hlt : s < e.

(** A range of the bitrate [b] that holds [[s, e]]. *)
Let recorded (r : Range) : Prop := holds r s e /\ bitrate r = b.

Lemma recorded_nonZero r : recorded r -> nonZero r = true.
Proof.
  intros [[H1 H2] _]. unfold nonZero. apply negb_true_iff.
  apply Qeq_bool_false. lra.
Qed.

Lemma union_recorded r1 r2 :
  sameBitrate r1 r2 = true ->
  recorded r1 \/ recorded r2 ->
  recorded (unionWithOverlappingOrContiguousRange r1 r2 (bitrate r2)).
Proof.
  unfold recorded, holds. intros Hsame Hr. apply Z.eqb_eq in Hsame. simpl.
  destruct (Qmin_cases (start r1) (start r2)) as [[? ->] | [? ->]];
    destruct (Qmax_cases (end_ r1) (end_ r2)) as [[? ->] | [? ->]];
    destruct Hr as [[[? ?] ?] | [[? ?] ?]];
    (split; [split; lra | congruence]).
Qed.

Lemma removeEmptyRanges_from_recorded ranges :
  Exists recorded ranges -> Exists recorded (removeEmptyRanges_from ranges).
Proof.
  rewrite !Exists_exists. intros (r & Hin & Hr). exists r.
  split; [| exact Hr].
  apply list_elem_of_In. apply list_elem_of_In in Hin.
  destruct (removeEmptyRanges_from_sublist (length ranges) ranges
              (Nat.le_refl _)) as [_ Hfilter].
  assert (Hf : In r (List.filter nonZero ranges)).
  { apply filter_In. split; [exact Hin | apply recorded_nonZero; exact Hr]. }
  rewrite <- Hfilter in Hf. apply filter_In in Hf. exact (proj1 Hf).
Qed.

Lemma mergeContiguousRanges_from_recorded : forall suf prevRange,
  Exists recorded (prevRange :: suf) ->
  Exists recorded (mergeContiguousRanges_from prevRange suf).
Proof.
  induction suf as [| currRange rest IH]; intros prevRange Hex;
    [exact Hex |].
  simpl.
  destruct (sameBitrate prevRange currRange
            && areContiguousWithRanges prevRange currRange) eqn:Hmerge.
  - apply andb_true_iff in Hmerge. destruct Hmerge as [Hsame _].
    apply IH. apply Exists_cons in Hex. apply Exists_cons.
    destruct Hex as [H | Hex].
    { left. apply union_recorded; [exact Hsame | left; exact H]. }
    apply Exists_cons in Hex. destruct Hex as [H | Hex].
    { left. apply union_recorded; [exact Hsame | right; exact H]. }
    right. exact Hex.
  - apply Exists_cons in Hex. apply Exists_cons.
    destruct Hex as [H | Hex]; [left; exact H | right].
    apply IH. exact Hex.
Qed.

(** The scan never touches the ranges it has left behind, and the added
    range only grows until it is put into the array. *)
Lemma insertInto_from_recorded : forall suf pre addedRange,
  Exists recorded pre \/ recorded addedRange ->
  let '(pre', suf', addedRange') := insertInto_from pre suf addedRange in
  Exists recorded (pre' ++ addedRange' :: suf').
Proof.
  induction suf as [| currentRange rest IH]; intros pre addedRange Hrec.
  { simpl. apply Exists_app. destruct Hrec as [H | H]; [left; exact H |].
    right. apply Exists_cons. left. exact H. }
  assert (Hbreak : forall suf1,
    Exists recorded (pre ++ addedRange :: suf1)).
  { intros suf1. apply Exists_app.
    destruct Hrec as [H | H]; [left; exact H |].
    right. apply Exists_cons. left. exact H. }
  assert (Hnext : forall x,
    let '(pre', suf', addedRange') :=
      insertInto_from (pre ++ [x]) rest addedRange in
    Exists recorded (pre' ++ addedRange' :: suf')).
  { intros x. apply IH. destruct Hrec as [H | H]; [left | right; exact H].
    apply Exists_app. left. exact H. }
  simpl insertInto_from.
  destruct (areOverlappingRanges addedRange currentRange
            || areContiguousWithRanges addedRange currentRange).
  - destruct (sameBitrate addedRange currentRange) eqn:Hsame.
    { apply IH. destruct Hrec as [H | H]; [left; exact H | right].
      apply union_recorded; [exact Hsame | left; exact H]. }
    destruct (areOverlappingRanges addedRange currentRange);
      [| apply Hbreak].
    destruct (isContainedInto currentRange addedRange).
    { apply IH. left. apply Exists_app.
      destruct Hrec as [H | H]; [left; exact H | right].
      apply Exists_cons. right. apply Exists_cons. left. exact H. }
    destruct (isContainedInto addedRange currentRange).
    { apply IH. exact Hrec. }
    destruct (Qltb (start currentRange) (start addedRange));
      [apply Hnext | apply Hbreak].
  - destruct (last pre) as [previous |].
    + destruct (isOrdered previous addedRange
                && isOrdered addedRange currentRange);
        [apply Hbreak | apply Hnext].
    + destruct (isOrdered addedRange currentRange);
        [apply Hbreak | apply Hnext].
Qed.

Lemma insertInto_recorded ranges :
  exists rs,
    insertInto ranges b s e = (Ok tt, rs) /\ Exists recorded rs.
Proof.
  rewrite insertInto_eq.
  rewrite (proj2 (Qle_bool_true s e)) by lra.
  replace (Qeq_bool s e) with false
    by (symmetry; apply Qeq_bool_false; lra).
  cbn [negb].
  pose proof (insertInto_from_recorded ranges []
                {| start := s; end_ := e; bitrate := b |}) as Hscan.
  destruct (insertInto_from [] ranges _) as [[pre suf] addedRange].
  eexists. split; [reflexivity |].
  assert (Hex : Exists recorded (pre ++ addedRange :: suf)).
  { apply Hscan. right. split; [split; apply Qle_refl | reflexivity]. }
  apply removeEmptyRanges_from_recorded in Hex.
  destruct (removeEmptyRanges_from (pre ++ addedRange :: suf))
    as [| first rest]; [inversion Hex |].
  apply mergeContiguousRanges_from_recorded. exact Hex.
Qed.
End Recorded.

(** X9.  After [insert(b, s, e)] with [0 <= s < e], on any engine, one
    stored range of the bitrate [b] holds the whole of [[s, e]]; so
    [hasRange(s, duration)] then returns a range for every [duration]
    whose sum with [s], as [hasRange] forms it, lies in [[s, e]], and the
    method [getRange(t)] returns one for every [t] of [[s, e)]. *)
Theorem insert_records_candidate
  (dev : bool) (this : BufferedRanges.t) (b : Z) (s e : Q) :
  0 <= s -> s < e ->
  exists rs,
    BufferedRanges.insert dev this b s e
    = (Ok rs, {| BufferedRanges.ranges := rs;
                 BufferedRanges.length := length rs |})
    /\ (exists r, In r rs /\ holds r s e /\ bitrate r = b)
    /\ (forall duration endTime,
          add64 s duration = Some endTime -> s <= endTime -> endTime <= e ->
          exists r,
            BufferedRanges.hasRange
              (snd (BufferedRanges.insert dev this b s e)) s duration
            = Some r)
    /\ (forall t, s <= t < e ->
          exists r,
            BufferedRanges.getRange
              (snd (BufferedRanges.insert dev this b s e)) t = Some r).
Proof.
  intros H0 Hlt.
  destruct (insertInto_recorded b s e Hlt (BufferedRanges.ranges this))
    as (rs & Hrs & Hex).
  pose proof (insert_accepted dev this b s e rs H0 Hlt Hrs) as Hinsert.
  exists rs. split; [exact Hinsert |]. rewrite Hinsert. simpl.
  apply Exists_exists in Hex. destruct Hex as (r & Hin & [Hs He] & Hb).
  apply list_elem_of_In in Hin.
  split; [exists r; repeat split; assumption |]. split.
  - intros duration endTime Hsum Hge Hle.
    unfold BufferedRanges.hasRange. rewrite Hsum. simpl.
    destruct (BufferedRanges.hasRange_loop rs s endTime)
      as [r' |] eqn:Hfound; [exists r'; reflexivity |].
    exfalso. apply (proj1 (hasRange_loop_None _ _ _) Hfound r Hin).
    unfold toleranceContains, nearlyLe, EPSILON. lra.
  - intros t Ht. unfold BufferedRanges.getRange. simpl.
    destruct (BufferedRanges.getRange_loop rs t) as [r' |] eqn:Hfound;
      [exists r'; reflexivity |].
    exfalso. apply (proj1 (getRange_loop_None _ _) Hfound).
    apply covered_In. exists r. split; [exact Hin |].
    unfold inRange. lra.
Qed.

Lemma insert_records_candidate_witness :
  exists rs,
    BufferedRanges.insert true
      {| BufferedRanges.ranges :=
           [ {| start := 0; end_ := 10; bitrate := 1 |};
             {| start := 10; end_ := 20; bitrate := 2 |} ];
         BufferedRanges.length := 2 |} 3 5 15
    = (Ok rs, {| BufferedRanges.ranges := rs;
                 BufferedRanges.length := length rs |})
    /\ (exists r, In r rs /\ holds r 5 15 /\ bitrate r = 3%Z)
    /\ (forall duration endTime,
          add64 5 duration = Some endTime -> 5 <= endTime -> endTime <= 15 ->
          exists r,
            BufferedRanges.hasRange
              (snd (BufferedRanges.insert true
                      {| BufferedRanges.ranges :=
                           [ {| start := 0; end_ := 10; bitrate := 1 |};
                             {| start := 10; end_ := 20; bitrate := 2 |} ];
                         BufferedRanges.length := 2 |} 3 5 15))
              5 duration = Some r)
    /\ (forall t, 5 <= t < 15 ->
          exists r,
            BufferedRanges.getRange
              (snd (BufferedRanges.insert true
                      {| BufferedRanges.ranges :=
                           [ {| start := 0; end_ := 10; bitrate := 1 |};
                             {| start := 10; end_ := 20; bitrate := 2 |} ];
                         BufferedRanges.length := 2 |} 3 5 15))
              t = Some r).
Proof.
  refine (insert_records_candidate true
            {| BufferedRanges.ranges :=
                 [ {| start := 0; end_ := 10; bitrate := 1 |};
                   {| start := 10; end_ := 20; bitrate := 2 |} ];
               BufferedRanges.length := 2 |} 3%Z 5 15 _ _).
  - discriminate.
  - reflexivity.
Defined.

(** ** The length of the engine *)

Lemma insertInto_throws ranges b s e err rs :
  insertInto ranges b s e = (Throw err, rs) -> rs = ranges.
Proof.
  unfold insertInto, assert.
  destruct (Qle_bool s e); [| intros [= _ <-]; reflexivity].
  destruct (Qeq_bool s e); [discriminate |].
  destruct (insertInto_loop _ _ _ _) as [[ranges1 index] addedRange].
  discriminate.
Qed.

Lemma reachable_length this :
  reachable this ->
  BufferedRanges.length this = length (BufferedRanges.ranges this).
Proof.
  induction 1 as [| dev this b s e _ IH | this others _ _];
    [reflexivity | | reflexivity].
  unfold BufferedRanges.insert.
  destruct (if dev then _ else _) as [[] | err]; [| exact IH].
  destruct (insertInto (BufferedRanges.ranges this) b s e)
    as [[[] | err] rs] eqn:Hrs; [reflexivity |].
  simpl. rewrite (insertInto_throws _ _ _ _ _ _ Hrs). exact IH.
Qed.

Lemma getNextRangeGap_first_start_after_aux {C : Type} `{Ranges.t C}
  (ranges : C) (st en : nat -> Q) (ts : Q) :
  answers ranges st en ->
  (exists k, getNextRangeGap ts ranges = Ok (Finite (st k - ts)))
  \/ getNextRangeGap ts ranges = Ok Infinity.
Proof.
  intros Hanswers. unfold getNextRangeGap.
  destruct (lowest_start_after st ts (Ranges.length ranges))
    as [(k & Hk & Hlt & Hlow) | Hall].
  - left. exists k.
    apply (getNextRangeGap_loop_found ranges st en ts Hanswers);
      [apply Nat.le_refl | lia | exact Hlt |].
    intros j Hj. apply Hlow. lia.
  - right.
    apply (getNextRangeGap_loop_none ranges st en ts Hanswers);
      [apply Nat.le_refl |].
    intros j Hj. apply Hall. lia.
Qed.

(** X10.  On every engine that calls of [insert] and [intersect] have
    built from the empty one, whatever their arguments and whether they
    returned or threw, [length] is the number of stored ranges; so
    [start(i)] and [end(i)] answer for every [i] below [length] and throw
    for the others, and the free [getRange] and [getNextRangeGap] never
    throw on it. *)
Theorem reachable_length_answers (this : BufferedRanges.t) :
  reachable this ->
  BufferedRanges.length this = length (BufferedRanges.ranges this)
  /\ (forall i, (i < BufferedRanges.length this)%nat ->
        exists r,
          BufferedRanges.ranges this !! i = Some r
          /\ BufferedRanges.start this i = Ok (start r)
          /\ BufferedRanges.end_ this i = Ok (end_ r))
  /\ (forall i, (BufferedRanges.length this <= i)%nat ->
        BufferedRanges.start this i = Throw TypeError
        /\ BufferedRanges.end_ this i = Throw TypeError)
  /\ (forall ts, exists found, getRange ts this = Ok found)
  /\ (forall ts, exists gap, getNextRangeGap ts this = Ok gap).
Proof.
  intros Hreach. pose proof (reachable_length this Hreach) as Hlen.
  assert (Hbelow : forall i, (i < BufferedRanges.length this)%nat ->
    exists r,
      BufferedRanges.ranges this !! i = Some r
      /\ BufferedRanges.start this i = Ok (start r)
      /\ BufferedRanges.end_ this i = Ok (end_ r)).
  { intros i Hi. rewrite Hlen in Hi.
    destruct (lookup_lt_is_Some_2 _ _ Hi) as [r Hr].
    exists r. unfold BufferedRanges.start, BufferedRanges.end_.
    rewrite Hr. repeat split. }
  set (st := fun i =>
         match BufferedRanges.ranges this !! i with
         | Some r => start r
         | None => 0
         end).
  set (en := fun i =>
         match BufferedRanges.ranges this !! i with
         | Some r => end_ r
         | None => 0
         end).
  assert (Hanswers : answers this st en).
  { intros i Hi. destruct (Hbelow i Hi) as (r & Hr & Hs & He).
    unfold st, en. rewrite Hr. split; assumption. }
  split; [exact Hlen |]. split; [exact Hbelow |]. split; [| split].
  - intros i Hi. rewrite Hlen in Hi.
    unfold BufferedRanges.start, BufferedRanges.end_.
    rewrite (proj2 (lookup_ge_None _ _) Hi). split; reflexivity.
  - intros ts.
    destruct (highest_start st ts (Ranges.length this))
      as [(k & Hk & Hle & Hhigh) | Hall].
    + eexists. apply (getRange_found this st en ts Hanswers k Hk Hle Hhigh).
    + eexists. apply (getRange_null this st en ts Hanswers Hall).
  - intros ts.
    destruct (getNextRangeGap_first_start_after_aux this st en ts Hanswers)
      as [(k & Hk) | Hnone]; eexists; eassumption.
Qed.

Lemma reachable_length_answers_witness :
  BufferedRanges.length
    (snd (BufferedRanges.intersect
            (snd (BufferedRanges.insert true BufferedRanges.new 1 0 10))
            [ {| start := 20; end_ := 30; bitrate := 0 |} ]))
  = length
      (BufferedRanges.ranges
         (snd (BufferedRanges.intersect
                 (snd (BufferedRanges.insert true BufferedRanges.new 1 0 10))
                 [ {| start := 20; end_ := 30; bitrate := 0 |} ]))).
Proof.
  refine (proj1 (reachable_length_answers _ _)).
  apply reachable_intersect, reachable_insert, reachable_new.
Defined.

(** ** The order of the array through an insertion *)

Lemma ordered_app l1 l2 :
  ordered (l1 ++ l2)
  <-> ordered l1 /\ ordered l2
      /\ match last l1, head l2 with
         | Some a, Some b => end_ a <= start b
         | _, _ => True
         end.
Proof. apply adjacent_app. Qed.

Lemma ordered_spliced pre addedRange suf :
  ordered pre -> lastEndsBefore pre (start addedRange) ->
  firstStartsAfter (end_ addedRange) suf -> ordered suf ->
  ordered (pre ++ addedRange :: suf).
Proof.
  unfold lastEndsBefore, firstStartsAfter. intros Hpre Hlast Hfirst Hsuf.
  apply ordered_app. split; [exact Hpre |]. split.
  - destruct suf as [| q suf]; [exact I |]. split; assumption.
  - simpl. destruct (last pre); [exact Hlast | exact I].
Qed.

Lemma lastEndsBefore_snoc pre x y :
  lastEndsBefore (pre ++ [x]) y <-> end_ x <= y.
Proof. unfold lastEndsBefore. rewrite last_snoc. reflexivity. Qed.

Lemma ordered_snoc pre x :
  ordered pre -> lastEndsBefore pre (start x) -> ordered (pre ++ [x]).
Proof.
  intros Hpre Hlast. apply ordered_app. split; [exact Hpre |].
  split; [exact I |]. unfold lastEndsBefore in Hlast. simpl.
  destruct (last pre); [exact Hlast | exact I].
Qed.

Lemma firstStartsAfter_tail x q rest :
  nonEmpty q -> ordered (q :: rest) -> x <= end_ q ->
  firstStartsAfter x rest.
Proof.
  unfold firstStartsAfter, nonEmpty. intros Hq Hord Hx.
  destruct rest as [| q' rest]; [exact I |].
  destruct Hord as [Hle _]. simpl. lra.
Qed.

(** After the first contact: the added range starts at or before all
    that is left to visit, and after the range that precedes the index. *)
Lemma insertInto_from_ordered_after : forall suf pre addedRange,
  nonEmpty addedRange ->
  Forall nonEmpty suf -> ordered suf ->
  ordered pre -> lastEndsBefore pre (start addedRange) ->
  firstStartsAfter (start addedRange) suf ->
  let '(pre', suf', addedRange') := insertInto_from pre suf addedRange in
  ordered (pre' ++ addedRange' :: suf').
Proof.
  induction suf as [| q rest IH];
    intros pre addedRange Hne Hall Hord Hpre Hlast Hfirst.
  { simpl. apply ordered_spliced; [assumption | assumption | exact I | exact I]. }
  apply Forall_cons in Hall. destruct Hall as [Hq Hall].
  pose proof (adjacent_tail _ _ _ Hord) as Hrest.
  unfold firstStartsAfter in Hfirst. simpl in Hfirst.
  unfold nonEmpty in Hne, Hq.
  assert (Hbreak : isOrdered addedRange q = true ->
    ordered (pre ++ addedRange :: q :: rest)).
  { intros Hle. apply Qle_bool_true in Hle.
    apply ordered_spliced; assumption. }
  assert (Hmerge :
    let '(pre', suf', addedRange') :=
      insertInto_from pre rest
        (unionWithOverlappingOrContiguousRange addedRange q (bitrate q)) in
    ordered (pre' ++ addedRange' :: suf')).
  { assert (Hstart :
      start (unionWithOverlappingOrContiguousRange addedRange q (bitrate q))
      = start addedRange).
    { simpl. destruct (Qmin_cases (start addedRange) (start q))
        as [[_ ->] | [Hlt _]]; [reflexivity | lra]. }
    apply IH; try assumption.
    - apply union_nonEmpty. exact Hne.
    - rewrite Hstart. exact Hlast.
    - rewrite Hstart. apply (firstStartsAfter_tail _ q); try assumption. lra. }
  simpl insertInto_from.
  destruct (areOverlappingRanges addedRange q) eqn:Hover.
  - cbn [orb].
    destruct (sameBitrate addedRange q); [exact Hmerge |].
    destruct (isContainedInto q addedRange) eqn:Hin1.
    { assert (Hin : start q <= start addedRange
                    /\ end_ addedRange < end_ q)
        by (clear Hover; solve_tests).
      apply IH; try assumption.
      - apply split_nonEmpty. exact Hin1.
      - apply ordered_app. split; [exact Hpre |]. split.
        + simpl. split; [apply Qle_refl | exact I].
        + unfold lastEndsBefore in Hlast. simpl.
          destruct (last pre); [lra | exact I].
      - unfold lastEndsBefore. rewrite last_app. simpl. apply Qle_refl.
      - simpl. apply (firstStartsAfter_tail _ q); try assumption. lra. }
    destruct (isContainedInto addedRange q) eqn:Hin2.
    { apply IH; try assumption.
      apply (firstStartsAfter_tail _ q); try assumption. lra. }
    destruct (Qltb (start q) (start addedRange)) eqn:Hlt.
    { apply Qltb_true in Hlt. lra. }
    apply ordered_spliced; try assumption.
    unfold firstStartsAfter. simpl. apply Qle_refl.
  - cbn [orb].
    assert (Hle : isOrdered addedRange q = true).
    { apply Qle_bool_true.
      destruct (Qlt_le_dec (start q) (end_ addedRange));
        [exfalso; solve_tests | assumption]. }
    destruct (areContiguousWithRanges addedRange q).
    { destruct (sameBitrate addedRange q);
        [exact Hmerge | apply Hbreak; exact Hle]. }
    rewrite Hle. unfold lastEndsBefore in Hlast.
    destruct (last pre) as [p |] eqn:Hp.
    + rewrite (proj2 (Qle_bool_true _ _) Hlast : isOrdered p _ = true).
      simpl. apply Hbreak. exact Hle.
    + apply Hbreak. exact Hle.
Qed.

(** Before the first contact: the ranges left behind end before the
    added range starts, and no range of another bitrate ends less than
    the tolerance before it. *)
Lemma insertInto_from_ordered_before : forall suf pre addedRange,
  nonEmpty addedRange ->
  Forall nonEmpty suf -> ordered (pre ++ suf) ->
  lastEndsBefore pre (start addedRange) ->
  noneEndsJustBefore (bitrate addedRange) (start addedRange) suf ->
  let '(pre', suf', addedRange') := insertInto_from pre suf addedRange in
  ordered (pre' ++ addedRange' :: suf').
Proof.
  induction suf as [| q rest IH];
    intros pre addedRange Hne Hall Hord Hlast Hdefect.
  { simpl. rewrite app_nil_r in Hord.
    apply ordered_spliced; [assumption | assumption | exact I | exact I]. }
  apply Forall_cons in Hall. destruct Hall as [Hq Hall].
  apply Forall_cons in Hdefect. destruct Hdefect as [Hdq Hdefect].
  apply ordered_app in Hord. destruct Hord as (Hpre & Hsuf & Hlink).
  pose proof (adjacent_tail _ _ _ Hsuf) as Hrest.
  assert (Hlastq : lastEndsBefore pre (start q)).
  { unfold lastEndsBefore. simpl in Hlink.
    destruct (last pre); [exact Hlink | exact I]. }
  unfold nonEmpty in Hne, Hq.
  assert (Hbreak : isOrdered addedRange q = true ->
    ordered (pre ++ addedRange :: q :: rest)).
  { intros Hle. apply Qle_bool_true in Hle.
    apply ordered_spliced; assumption. }
  assert (Hafter : forall pre1 added1,
    nonEmpty added1 -> ordered pre1 ->
    lastEndsBefore pre1 (start added1) -> start added1 <= end_ q ->
    let '(pre', suf', addedRange') := insertInto_from pre1 rest added1 in
    ordered (pre' ++ addedRange' :: suf')).
  { intros pre1 added1 Hne1 Hpre1 Hlast1 Hle.
    apply insertInto_from_ordered_after; try assumption.
    apply (firstStartsAfter_tail _ q); assumption. }
  assert (Hcontinue : end_ q <= start addedRange ->
    let '(pre', suf', addedRange') :=
      insertInto_from (pre ++ [q]) rest addedRange in
    ordered (pre' ++ addedRange' :: suf')).
  { intros Hle. apply IH; try assumption.
    - rewrite <- app_assoc. apply ordered_app.
      split; [exact Hpre |]. split; [exact Hsuf | exact Hlink].
    - apply lastEndsBefore_snoc. exact Hle. }
  simpl insertInto_from.
  destruct (areOverlappingRanges addedRange q) eqn:Hover.
  - cbn [orb].
    destruct (sameBitrate addedRange q).
    { apply Hafter.
      - apply union_nonEmpty. exact Hne.
      - exact Hpre.
      - unfold lastEndsBefore in *. simpl.
        destruct (last pre); [| exact I].
        destruct (Qmin_cases (start addedRange) (start q))
          as [[_ ->] | [_ ->]]; assumption.
      - simpl. destruct (Qmin_cases (start addedRange) (start q))
          as [[? ->] | [? ->]]; lra. }
    destruct (isContainedInto q addedRange) eqn:Hin1.
    { assert (Hin : start q <= start addedRange
                    /\ end_ addedRange < end_ q)
        by (clear Hover; solve_tests).
      apply Hafter.
      - apply split_nonEmpty. exact Hin1.
      - apply ordered_app. split; [exact Hpre |]. split.
        + simpl. split; [apply Qle_refl | exact I].
        + unfold lastEndsBefore in Hlastq. simpl.
          destruct (last pre); [exact Hlastq | exact I].
      - unfold lastEndsBefore. rewrite last_app. simpl. apply Qle_refl.
      - simpl. lra. }
    destruct (isContainedInto addedRange q) eqn:Hin2.
    { apply Hafter; try assumption. clear Hover Hin1. solve_tests. }
    destruct (Qltb (start q) (start addedRange)) eqn:Hlt.
    { apply Hafter.
      - exact Hne.
      - apply ordered_snoc; assumption.
      - apply lastEndsBefore_snoc. simpl. apply Qle_refl.
      - clear Hin1 Hin2. solve_tests. }
    apply ordered_spliced; try assumption.
    unfold firstStartsAfter. simpl. apply Qle_refl.
  - cbn [orb].
    destruct (areContiguousWithRanges addedRange q) eqn:Hcont.
    { destruct (sameBitrate addedRange q) eqn:Hsame.
      { apply Hafter.
        - apply union_nonEmpty. exact Hne.
        - exact Hpre.
        - unfold lastEndsBefore in *. simpl.
          destruct (last pre); [| exact I].
          destruct (Qmin_cases (start addedRange) (start q))
            as [[_ ->] | [_ ->]]; assumption.
        - simpl. destruct (Qmin_cases (start addedRange) (start q))
            as [[? ->] | [? ->]]; lra. }
      apply Hbreak. apply Qle_bool_true.
      destruct (Qlt_le_dec (start q) (end_ addedRange)); [| assumption].
      exfalso. apply Z.eqb_neq in Hsame.
      destruct Hdq as [Hb | Hdq]; [congruence |].
      unfold EPSILON in Hdq. solve_tests. }
    assert (Hskip : isOrdered addedRange q = false ->
      end_ q <= start addedRange).
    { intros Hnot. solve_tests. }
    unfold lastEndsBefore in Hlast.
    destruct (last pre) as [p |] eqn:Hp.
    + rewrite (proj2 (Qle_bool_true _ _) Hlast : isOrdered p _ = true).
      simpl. destruct (isOrdered addedRange q) eqn:Hle;
        [apply Hbreak; reflexivity | apply Hcontinue, Hskip; reflexivity].
    + destruct (isOrdered addedRange q) eqn:Hle;
        [apply Hbreak; reflexivity | apply Hcontinue, Hskip; reflexivity].
Qed.

Lemma ordered_without_empty l1 z l2 :
  start z == end_ z -> ordered (l1 ++ z :: l2) -> ordered (l1 ++ l2).
Proof.
  intros Hz Hord.
  apply ordered_app in Hord. destruct Hord as (H1 & H2 & Hlink).
  apply ordered_app. split; [exact H1 |].
  split; [exact (adjacent_tail _ _ _ H2) |].
  simpl in Hlink. destruct (last l1) as [p |]; [| exact I].
  destruct l2 as [| q l2]; [exact I |].
  destruct H2 as [Hq _]. simpl. lra.
Qed.

Lemma removeEmptyRanges_from_ordered ranges :
  ordered ranges -> oneEmptyAtMost ranges ->
  ordered (removeEmptyRanges_from ranges)
  /\ Forall nonEmpty (removeEmptyRanges_from ranges).
Proof.
  intros Hord [Hall | (l1 & z & l2 & -> & Hz & H1 & H2)].
  - rewrite removeEmptyRanges_from_nonEmpty by exact Hall.
    split; assumption.
  - rewrite removeEmptyRanges_from_single by assumption. split.
    + apply (ordered_without_empty l1 z l2); assumption.
    + apply Forall_app. split; assumption.
Qed.

Lemma insertInto_ordered ranges b s e :
  Forall nonEmpty ranges -> ordered ranges ->
  noneEndsJustBefore b s ranges -> s < e ->
  exists rs,
    insertInto ranges b s e = (Ok tt, rs)
    /\ Forall nonEmpty rs /\ ordered rs /\ unmergeable rs.
Proof.
  intros Hall Hord Hdefect Hlt. rewrite insertInto_eq.
  rewrite (proj2 (Qle_bool_true s e)) by lra.
  replace (Qeq_bool s e) with false
    by (symmetry; apply Qeq_bool_false; lra).
  cbn [negb].
  pose proof (insertInto_from_oneEmpty ranges []
                {| start := s; end_ := e; bitrate := b |}
                Hlt Hord Hall (List.Forall_nil _)) as Hone.
  pose proof (insertInto_from_ordered_before ranges []
                {| start := s; end_ := e; bitrate := b |}
                Hlt Hall Hord I Hdefect) as Hsorted.
  destruct (insertInto_from [] ranges _) as [[pre suf] addedRange].
  destruct (removeEmptyRanges_from_ordered _ Hsorted Hone) as [Hord' Hall'].
  eexists. split; [reflexivity |].
  pose proof (mergeContiguousRanges_maximal _ Hall' Hord') as Hmerge.
  rewrite mergeContiguousRanges_eq in Hmerge.
  destruct Hmerge as (H1 & H2 & H3 & _).
  repeat split; assumption.
Qed.

(** X11.  [insert(b, s, e)] with [0 <= s < e] keeps the invariants of
    the range list, provided that no stored range of a bitrate other than
    [b] ends less than the tolerance before [s]: on an engine whose ranges
    have [start < end] and are ordered without overlap
    ([end(i) <= start(i+1)]), the ranges it leaves have [start < end],
    are ordered without overlap, and no two neighbours are contiguous and
    of the same bitrate. *)
Theorem insert_keeps_order
  (dev : bool) (this : BufferedRanges.t) (b : Z) (s e : Q) :
  Forall nonEmpty (BufferedRanges.ranges this) ->
  ordered (BufferedRanges.ranges this) ->
  noneEndsJustBefore b s (BufferedRanges.ranges this) ->
  0 <= s -> s < e ->
  exists rs,
    BufferedRanges.insert dev this b s e
    = (Ok rs, {| BufferedRanges.ranges := rs;
                 BufferedRanges.length := length rs |})
    /\ Forall nonEmpty rs /\ ordered rs /\ unmergeable rs.
Proof.
  intros Hall Hord Hdefect H0 Hlt.
  destruct (insertInto_ordered _ b s e Hall Hord Hdefect Hlt)
    as (rs & Hrs & Hinv).
  exists rs. split; [| exact Hinv].
  apply insert_accepted; assumption.
Qed.

Lemma insert_keeps_order_witness :
  exists rs,
    BufferedRanges.insert true
      {| BufferedRanges.ranges :=
           [ {| start := 0; end_ := 10; bitrate := 1 |};
             {| start := 10; end_ := 20; bitrate := 2 |} ];
         BufferedRanges.length := 2 |} 3 5 15
    = (Ok rs, {| BufferedRanges.ranges := rs;
                 BufferedRanges.length := length rs |})
    /\ Forall nonEmpty rs /\ ordered rs /\ unmergeable rs.
Proof.
  refine (insert_keeps_order true
            {| BufferedRanges.ranges :=
                 [ {| start := 0; end_ := 10; bitrate := 1 |};
                   {| start := 10; end_ := 20; bitrate := 2 |} ];
               BufferedRanges.length := 2 |} 3%Z 5 15 _ _ _ _ _).
  - repeat (apply Forall_cons; split); try constructor.
  - simpl. split; [discriminate | exact I].
  - apply Forall_cons. split; [right; right; discriminate |].
    apply Forall_cons. split; [right; right; discriminate | constructor].
  - discriminate.
  - reflexivity.
Defined.

(** In an ordered array of ranges with [start < end], the first range
    holding a timestamp is the only one. *)
Lemma ordered_unique ranges t r1 r2 :
  Forall nonEmpty ranges -> ordered ranges ->
  In r1 ranges -> In r2 ranges ->
  inRange r1 t -> inRange r2 t -> r1 = r2.
Proof.
  intros Hall Hord. revert r1 r2.
  induction ranges as [| a l IH]; intros r1 r2 H1 H2 Ht1 Ht2; [destruct H1 |].
  apply Forall_cons in Hall. destruct Hall as [Ha Hall].
  assert (Hweak : Forall weak l).
  { apply (Forall_impl _ _ _ Hall). intros r Hr.
    unfold weak, nonEmpty in *. lra. }
  pose proof (ordered_after a l Hweak Hord) as Hafter.
  assert (Hout : forall r, In r l -> inRange a t -> inRange r t -> False).
  { intros r Hr [_ Hlt] [Hge _].
    pose proof (proj1 (Forall_forall _ _) Hafter r
                  (proj2 (list_elem_of_In _ _) Hr)) as Hle.
    simpl in Hle. lra. }
  destruct H1 as [<- | H1], H2 as [<- | H2].
  - reflexivity.
  - exfalso. exact (Hout r2 H2 Ht1 Ht2).
  - exfalso. exact (Hout r1 H1 Ht2 Ht1).
  - apply (IH Hall (adjacent_tail _ _ _ Hord)); assumption.
Qed.

(** X12.  Priority to the candidate: under the conditions of X11, after
    [insert(b, s, e)] the method [getRange(t)] returns a range of the
    bitrate [b] for every [t] of [[s, e)], and that range holds the whole
    of [[s, e]]. *)
Theorem insert_gives_priority
  (dev : bool) (this : BufferedRanges.t) (b : Z) (s e t : Q) :
  Forall nonEmpty (BufferedRanges.ranges this) ->
  ordered (BufferedRanges.ranges this) ->
  noneEndsJustBefore b s (BufferedRanges.ranges this) ->
  0 <= s -> s <= t < e ->
  exists r,
    BufferedRanges.getRange
      (snd (BufferedRanges.insert dev this b s e)) t = Some r
    /\ bitrate r = b /\ holds r s e.
Proof.
  intros Hall Hord Hdefect H0 Ht.
  assert (Hlt : s < e) by lra.
  destruct (insertInto_ordered _ b s e Hall Hord Hdefect Hlt)
    as (rs & Hrs & Hall' & Hord' & _).
  destruct (insertInto_recorded b s e Hlt (BufferedRanges.ranges this))
    as (rs' & Hrs' & Hex).
  rewrite Hrs in Hrs'. injection Hrs' as <-.
  rewrite (insert_accepted dev this b s e rs H0 Hlt Hrs). simpl.
  apply Exists_exists in Hex. destruct Hex as (R & HR & [Hs He] & Hb).
  apply list_elem_of_In in HR.
  unfold BufferedRanges.getRange. simpl.
  destruct (BufferedRanges.getRange_loop rs t) as [r |] eqn:Hfound.
  - destruct (getRange_loop_Some _ _ _ Hfound)
      as (before & after & Heq & Hr & _).
    assert (Hin : In r rs).
    { rewrite Heq. apply in_or_app. right. left. reflexivity. }
    assert (r = R) as ->.
    { apply (ordered_unique rs t); try assumption.
      unfold inRange. unfold holds in *. lra. }
    exists R. repeat split; assumption.
  - exfalso. apply (proj1 (getRange_loop_None _ _) Hfound).
    apply covered_In. exists R. split; [exact HR |].
    unfold inRange. lra.
Qed.

Lemma insert_gives_priority_witness :
  exists r,
    BufferedRanges.getRange
      (snd (BufferedRanges.insert true
              {| BufferedRanges.ranges :=
                   [ {| start := 0; end_ := 10; bitrate := 1 |};
                     {| start := 10; end_ := 20; bitrate := 2 |} ];
                 BufferedRanges.length := 2 |} 3 5 15)) 12 = Some r
    /\ bitrate r = 3%Z /\ holds r 5 15.
Proof.
  refine (insert_gives_priority true
            {| BufferedRanges.ranges :=
                 [ {| start := 0; end_ := 10; bitrate := 1 |};
                   {| start := 10; end_ := 20; bitrate := 2 |} ];
               BufferedRanges.length := 2 |} 3%Z 5 15 12 _ _ _ _ _).
  - repeat (apply Forall_cons; split); try constructor.
  - simpl. split; [discriminate | exact I].
  - apply Forall_cons. split; [right; right; discriminate |].
    apply Forall_cons. split; [right; right; discriminate | constructor].
  - discriminate.
  - split; [discriminate | reflexivity].
Defined.

(** ** Where the bounds of the ranges come from *)

Section Bounds.
Variable B : Q -> Prop.

Lemma union_bounds r1 r2 b :
  bounds B r1 -> bounds B r2 ->
  bounds B (unionWithOverlappingOrContiguousRange r1 r2 b).
Proof.
  unfold bounds. simpl. intros [H1 H2] [H3 H4].
  destruct (Qmin_cases (start r1) (start r2)) as [[_ ->] | [_ ->]];
    destruct (Qmax_cases (end_ r1) (end_ r2)) as [[_ ->] | [_ ->]];
    split; assumption.
Qed.

Lemma removeEmptyRanges_from_bounds ranges :
  Forall (bounds B) ranges ->
  Forall (bounds B) (removeEmptyRanges_from ranges).
Proof.
  intros Hall. apply Forall_forall. intros r Hr.
  apply (proj1 (Forall_forall _ _) Hall).
  apply (elem_of_sublist _ _ _ Hr).
  apply (removeEmptyRanges_from_sublist (length ranges) ranges).
  apply Nat.le_refl.
Qed.

Lemma mergeContiguousRanges_from_bounds : forall suf prevRange,
  bounds B prevRange -> Forall (bounds B) suf ->
  Forall (bounds B) (mergeContiguousRanges_from prevRange suf).
Proof.
  induction suf as [| currRange rest IH]; intros prevRange Hp Hall; simpl.
  - apply Forall_cons. split; [exact Hp | constructor].
  - apply Forall_cons in Hall. destruct Hall as [Hc Hall].
    destruct (sameBitrate prevRange currRange
              && areContiguousWithRanges prevRange currRange).
    + apply IH; [apply union_bounds; assumption | exact Hall].
    + apply Forall_cons. split; [exact Hp | apply IH; assumption].
Qed.

Lemma insertInto_from_bounds : forall suf pre addedRange,
  Forall (bounds B) pre -> Forall (bounds B) suf -> bounds B addedRange ->
  let '(pre', suf', addedRange') := insertInto_from pre suf addedRange in
  Forall (bounds B) (pre' ++ addedRange' :: suf').
Proof.
  induction suf as [| q rest IH]; intros pre addedRange Hpre Hsuf Hadded.
  { simpl. apply Forall_app. split; [exact Hpre |].
    apply Forall_cons. split; [exact Hadded | constructor]. }
  apply Forall_cons in Hsuf. destruct Hsuf as [Hq Hrest].
  assert (Hbreak : forall q',
    bounds B q' -> Forall (bounds B) (pre ++ addedRange :: q' :: rest)).
  { intros q' Hq'. apply Forall_app. split; [exact Hpre |].
    repeat (apply Forall_cons; split); assumption. }
  assert (Hnext : forall x, Forall (bounds B) x ->
    let '(pre', suf', addedRange') :=
      insertInto_from (pre ++ x) rest addedRange in
    Forall (bounds B) (pre' ++ addedRange' :: suf')).
  { intros x Hx. apply IH; try assumption.
    apply Forall_app. split; assumption. }
  destruct Hq as [Hq1 Hq2]. destruct Hadded as [Ha1 Ha2].
  simpl insertInto_from.
  destruct (areOverlappingRanges addedRange q
            || areContiguousWithRanges addedRange q).
  - destruct (sameBitrate addedRange q).
    { apply IH; try assumption. apply union_bounds; split; assumption. }
    destruct (areOverlappingRanges addedRange q);
      [| apply Hbreak; split; assumption].
    destruct (isContainedInto q addedRange).
    { apply IH; try assumption.
      - apply Forall_app. split; [exact Hpre |].
        repeat (apply Forall_cons; split); try constructor; assumption.
      - split; assumption. }
    destruct (isContainedInto addedRange q).
    { apply IH; try assumption. split; assumption. }
    destruct (Qltb (start q) (start addedRange)).
    + apply (Hnext [set_end q (start addedRange)]).
      apply Forall_cons. split; [split; assumption | constructor].
    + apply Hbreak. split; assumption.
  - destruct (last pre) as [p |].
    + destruct (isOrdered p addedRange && isOrdered addedRange q).
      * apply Hbreak. split; assumption.
      * apply (Hnext [q]).
        apply Forall_cons. split; [split; assumption | constructor].
    + destruct (isOrdered addedRange q).
      * apply Hbreak. split; assumption.
      * apply (Hnext [q]).
        apply Forall_cons. split; [split; assumption | constructor].
Qed.

Lemma insertInto_bounds ranges b s e rs :
  B s -> B e -> Forall (bounds B) ranges ->
  insertInto ranges b s e = (Ok tt, rs) -> Forall (bounds B) rs.
Proof.
  intros Hs He Hall. rewrite insertInto_eq.
  destruct (negb (Qle_bool s e)); [discriminate |].
  destruct (Qeq_bool s e); [intros [= <-]; exact Hall |].
  pose proof (insertInto_from_bounds ranges []
                {| start := s; end_ := e; bitrate := b |}
                (List.Forall_nil _) Hall (conj Hs He)) as Hscan.
  destruct (insertInto_from [] ranges _) as [[pre suf] addedRange].
  intros [= <-].
  apply removeEmptyRanges_from_bounds in Hscan.
  destruct (removeEmptyRanges_from (pre ++ addedRange :: suf))
    as [| first rest]; [constructor |].
  apply Forall_cons in Hscan. destruct Hscan as [Hfirst Hrest].
  apply mergeContiguousRanges_from_bounds; assumption.
Qed.
End Bounds.

(** X13.  [insert] makes no new bound: after [insert(b, s, e)], the
    start and the end of every stored range are each [s], [e], or the
    start or the end of a range that was stored before the call. *)
Theorem insert_makes_no_bound
  (dev : bool) (this : BufferedRanges.t) (b : Z) (s e : Q) (rs : list Range) :
  BufferedRanges.insert dev this b s e
  = (Ok rs, {| BufferedRanges.ranges := rs;
               BufferedRanges.length := length rs |}) ->
  Forall
    (bounds (fun q => q = s \/ q = e
                      \/ boundOf (BufferedRanges.ranges this) q)) rs.
Proof.
  unfold BufferedRanges.insert.
  destruct (if dev then _ else _) as [[] | err]; [| discriminate].
  destruct (insertInto (BufferedRanges.ranges this) b s e)
    as [[[] | err] rs'] eqn:Hrs; [| discriminate].
  intros [= <-].
  apply (insertInto_bounds _ (BufferedRanges.ranges this) b s e);
    [left; reflexivity | right; left; reflexivity | | exact Hrs].
  apply Forall_forall. intros r Hr.
  split; right; right; apply Exists_exists; exists r;
    (split; [exact Hr |]); [left | right]; reflexivity.
Qed.

Lemma insert_makes_no_bound_witness :
  Forall
    (bounds (fun q => q = 5 \/ q = 15
                      \/ boundOf [{| start := 0; end_ := 10; bitrate := 1 |}]
                           q))
    [ {| start := 0; end_ := 5; bitrate := 1 |};
      {| start := 5; end_ := 15; bitrate := 2 |} ].
Proof.
  refine (insert_makes_no_bound true
            {| BufferedRanges.ranges :=
                 [{| start := 0; end_ := 10; bitrate := 1 |}];
               BufferedRanges.length := 1 |} 2%Z 5 15 _ _).
  reflexivity.
Defined.

(** ** Engines whose bounds are apart *)

Section Apart.
Variable B : Q -> Prop.
Hypothesis Hapart : forall a b, B a -> B b -> a < b -> a + EPSILON <= b.

Lemma insertedOn_invariants this :
  insertedOn B this ->
  Forall (bounds B) (BufferedRanges.ranges this)
  /\ Forall nonEmpty (BufferedRanges.ranges this)
  /\ ordered (BufferedRanges.ranges this)
  /\ unmergeable (BufferedRanges.ranges this).
Proof.
  induction 1 as [| dev this b s e _ IH Hs He H0 Hlt].
  { simpl. repeat split; try constructor. }
  destruct IH as (Hbounds & Hall & Hord & _).
  assert (Hdefect : noneEndsJustBefore b s (BufferedRanges.ranges this)).
  { apply Forall_forall. intros r Hr. right.
    destruct (proj1 (Forall_forall _ _) Hbounds r Hr) as [_ Hend].
    destruct (Qlt_le_dec (end_ r) s) as [Hlt' | Hge]; [left | right; exact Hge].
    pose proof (Hapart _ _ Hend Hs Hlt'). lra. }
  destruct (insertInto_ordered _ b s e Hall Hord Hdefect Hlt)
    as (rs & Hrs & Hinv).
  rewrite (insert_accepted dev this b s e rs H0 Hlt Hrs). simpl.
  split; [| exact Hinv].
  apply (insertInto_bounds B _ b s e rs Hs He Hbounds Hrs).
Qed.
End Apart.

Lemma wholeSeconds_apart a b :
  wholeSeconds a -> wholeSeconds b -> a < b -> a + EPSILON <= b.
Proof.
  intros [za ->] [zb ->] Hlt. rewrite <- Zlt_Qlt in Hlt.
  unfold Qle, Qplus, EPSILON, inject_Z. simpl. lia.
Qed.

(** X14.  The two invariants of the range list hold on every engine
    built from the empty one by calls [insert(b, s, e)] with [0 <= s < e]
    whose bounds are taken from a set of numbers that are at least the
    tolerance apart, such as the whole numbers of seconds: the stored
    ranges have [start < end], are ordered without overlap
    ([end(i) <= start(i+1)]), no two neighbours are contiguous and of the
    same bitrate, and every bound is one of those numbers. *)
Theorem insert_invariants_on_apart_bounds
  (B : Q -> Prop) (this : BufferedRanges.t) :
  (forall a b, B a -> B b -> a < b -> a + EPSILON <= b) ->
  insertedOn B this ->
  Forall nonEmpty (BufferedRanges.ranges this)
  /\ ordered (BufferedRanges.ranges this)
  /\ unmergeable (BufferedRanges.ranges this)
  /\ Forall (bounds B) (BufferedRanges.ranges this).
Proof.
  intros Hapart Hon.
  destruct (insertedOn_invariants B Hapart this Hon) as (H1 & H2 & H3 & H4).
  repeat split; assumption.
Qed.

Lemma insert_invariants_on_apart_bounds_witness :
  let this :=
    snd (BufferedRanges.insert true
           (snd (BufferedRanges.insert true BufferedRanges.new 1 0 10))
           2 5 15) in
  Forall nonEmpty (BufferedRanges.ranges this)
  /\ ordered (BufferedRanges.ranges this)
  /\ unmergeable (BufferedRanges.ranges this)
  /\ Forall (bounds wholeSeconds) (BufferedRanges.ranges this).
Proof.
  refine (insert_invariants_on_apart_bounds wholeSeconds _
            wholeSeconds_apart _).
  apply insertedOn_insert;
    [apply insertedOn_insert; [apply insertedOn_new | | | |] | | | |];
    try (eexists; reflexivity); try discriminate; reflexivity.
Defined.

(** ** What [insert] stores, range by range *)

Lemma cleanUp_nonEmpty ranges :
  Forall nonEmpty ranges -> unmergeable ranges -> cleanUp ranges = ranges.
Proof.
  intros Hall Hun. unfold cleanUp.
  rewrite removeEmptyRanges_from_nonEmpty by exact Hall.
  destruct ranges as [| first rest]; [reflexivity |].
  apply mergeContiguousRanges_from_unmergeable. exact Hun.
Qed.

Lemma insertInto_cleanUp ranges b s e pre suf addedRange :
  s < e ->
  insertInto_from [] ranges {| start := s; end_ := e; bitrate := b |}
  = (pre, suf, addedRange) ->
  insertInto ranges b s e = (Ok tt, cleanUp (pre ++ addedRange :: suf)).
Proof.
  intros Hlt Hscan. rewrite insertInto_eq.
  rewrite (proj2 (Qle_bool_true s e)) by lra.
  replace (Qeq_bool s e) with false
    by (symmetry; apply Qeq_bool_false; lra).
  cbn [negb]. rewrite Hscan. reflexivity.
Qed.

(** Two ranges of which the second starts more than the tolerance after
    the end of the first are not contiguous. *)
Lemma apart_not_contiguous a b :
  nonEmpty a -> nonEmpty b -> end_ a + EPSILON <= start b ->
  areContiguousWithRanges a b = false.
Proof.
  intros Ha Hb Hfar. unfold areContiguousWithRanges, nonEmpty in *.
  rewrite orb_false_iff, !nearlyEqual_false. unfold EPSILON in *.
  split; right; lra.
Qed.

(** The scan stops at a range that lies after the added one and is not
    merged with it. *)
Lemma insertInto_from_stops pre suf addedRange :
  lastEndsBefore pre (start addedRange) ->
  nonEmpty addedRange ->
  Forall nonEmpty suf ->
  firstStartsAfter (end_ addedRange) suf ->
  unmergeable (addedRange :: suf) ->
  insertInto_from pre suf addedRange = (pre, suf, addedRange).
Proof.
  unfold lastEndsBefore, firstStartsAfter.
  intros Hlast Hne Hall Hle Hun.
  destruct suf as [| currentRange rest]; [reflexivity |].
  destruct Hun as [Hpair _]. simpl in Hle.
  apply Forall_cons in Hall. destruct Hall as [Hcur _].
  simpl insertInto_from.
  replace (areOverlappingRanges addedRange currentRange) with false.
  2:{ symmetry. unfold_tests.
      rewrite !orb_false_iff, !andb_false_iff, !Qle_bool_false, !Qltb_false.
      unfold nonEmpty in *. intuition lra. }
  cbn [orb].
  destruct (areContiguousWithRanges addedRange currentRange).
  - rewrite andb_true_r in Hpair. rewrite Hpair. reflexivity.
  - rewrite (proj2 (Qle_bool_true _ _) Hle : isOrdered _ currentRange = true).
    destruct (last pre) as [previous |]; [| reflexivity].
    rewrite (proj2 (Qle_bool_true _ _) Hlast : isOrdered previous _ = true).
    reflexivity.
Qed.

Section Placed.
Variables (pre post : list Range) (b : Z) (s e : Q).

Let addedRange := {| start := s; end_ := e; bitrate := b |}.

Hypothesis Hlt : s < e.
Hypothesis Hallpre : Forall nonEmpty pre.
Hypothesis Hallpost : Forall nonEmpty post.
Hypothesis Hpre : Forall (fun p => end_ p + EPSILON <= s) pre.

Lemma placed_skip rest :
  insertInto_from [] (pre ++ rest) addedRange
  = insertInto_from pre rest addedRange.
Proof.
  apply (insertInto_from_skip addedRange pre [] rest); [exact Hlt |].
  apply Forall_forall. intros p Hp. split.
  - exact (proj1 (Forall_forall _ _) Hallpre p Hp).
  - exact (proj1 (Forall_forall _ _) Hpre p Hp).
Qed.

Lemma placed_last p :
  last pre = Some p -> nonEmpty p /\ end_ p + EPSILON <= s.
Proof.
  intros Hp.
  assert (Hin : p ∈ pre).
  { apply list_elem_of_lookup. rewrite last_lookup in Hp.
    eexists. exact Hp. }
  split.
  - exact (proj1 (Forall_forall _ _) Hallpre p Hin).
  - exact (proj1 (Forall_forall _ _) Hpre p Hin).
Qed.

Lemma placed_lastEndsBefore x : s - EPSILON <= x -> lastEndsBefore pre x.
Proof.
  intros Hx. unfold lastEndsBefore.
  pose proof placed_last as Hp.
  destruct (last pre) as [p |]; [| exact I].
  destruct (Hp p eq_refl) as [_ Hfar]. lra.
Qed.

(** A range that starts at or after [s] is not merged with the last one
    of [pre]. *)
Lemma placed_link_start m :
  nonEmpty m -> s <= start m ->
  match last pre with
  | Some p => sameBitrate p m && areContiguousWithRanges p m = false
  | None => True
  end.
Proof.
  intros Hm Hs. pose proof placed_last as Hp.
  destruct (last pre) as [p |]; [| exact I].
  destruct (Hp p eq_refl) as [Hne Hfar].
  rewrite apart_not_contiguous; [apply andb_false_r | | |];
    try assumption. lra.
Qed.

(** Nor is a range that takes the place of one that follows [pre] and
    is not merged with its last range, has its start and its bitrate, and
    ends after [s]. *)
Lemma placed_link_same currentRange m :
  match last pre with
  | Some p => end_ p <= start currentRange
              /\ sameBitrate p currentRange
                 && areContiguousWithRanges p currentRange = false
  | None => True
  end ->
  start m = start currentRange -> bitrate m = bitrate currentRange ->
  s <= end_ m ->
  match last pre with
  | Some p => sameBitrate p m && areContiguousWithRanges p m = false
  | None => True
  end.
Proof.
  intros Hlink Hstart Hbitrate Hend. pose proof placed_last as Hp.
  destruct (last pre) as [p |]; [| exact I].
  destruct (Hp p eq_refl) as [Hne Hfar]. destruct Hlink as [Hle Hlink].
  unfold sameBitrate, areContiguousWithRanges, nonEmpty in *.
  rewrite Hbitrate, Hstart.
  destruct (bitrate p =? bitrate currentRange)%Z; [| reflexivity].
  simpl in *. apply orb_false_iff in Hlink. destruct Hlink as [H1 _].
  rewrite H1. simpl. apply nearlyEqual_false.
  unfold EPSILON in *. right. lra.
Qed.

(** The array with [mid] between [pre] and [post] is unmergeable when
    its parts are and the two links are. *)
Lemma placed_unmergeable first mid :
  unmergeable pre -> unmergeable (first :: mid ++ post) ->
  match last pre with
  | Some p => sameBitrate p first && areContiguousWithRanges p first = false
  | None => True
  end ->
  unmergeable (pre ++ first :: mid ++ post).
Proof.
  intros Hunpre Hmid Hlink. apply adjacent_app.
  split; [exact Hunpre |]. split; [exact Hmid |].
  simpl. destruct (last pre); [exact Hlink | exact I].
Qed.
End Placed.

Lemma near_overlapping_or_contiguous addedRange currentRange :
  nonEmpty addedRange -> nonEmpty currentRange ->
  start currentRange < end_ addedRange + EPSILON ->
  start addedRange < end_ currentRange + EPSILON ->
  areOverlappingRanges addedRange currentRange
  || areContiguousWithRanges addedRange currentRange = true.
Proof.
  unfold nonEmpty. intros Ha Hc H1 H2. unfold_tests.
  rewrite !orb_true_iff, !andb_true_iff, !Qle_bool_true, !Qltb_true,
    !nearlyEqual_true.
  unfold EPSILON in *.
  destruct (Qlt_le_dec (end_ currentRange) (start addedRange));
    [right; right; lra |].
  destruct (Qlt_le_dec (end_ addedRange) (start currentRange));
    [right; left; lra |].
  destruct (Qlt_le_dec (start addedRange) (start currentRange)).
  - destruct (Qlt_le_dec (start currentRange) (end_ addedRange)).
    + left. left. left. lra.
    + right. left. lra.
  - destruct (Qlt_le_dec (start addedRange) (end_ currentRange)).
    + left. right. lra.
    + left. left. right. lra.
Qed.

Lemma cons_unmergeable m post :
  unmergeable post ->
  match head post with
  | Some q => sameBitrate m q && areContiguousWithRanges m q = false
  | None => True
  end ->
  unmergeable (m :: post).
Proof.
  intros Hun Hlink. destruct post as [| q post]; [exact I |].
  split; assumption.
Qed.

Lemma apart_unmergeable m post :
  nonEmpty m -> Forall nonEmpty post ->
  Forall (fun q => end_ m + EPSILON <= start q) post ->
  unmergeable post -> unmergeable (m :: post).
Proof.
  intros Hm Hall Hfar Hun. apply cons_unmergeable; [exact Hun |].
  destruct post as [| q post]; [exact I |]. simpl.
  apply Forall_cons in Hall. destruct Hall as [Hq _].
  apply Forall_cons in Hfar. destruct Hfar as [Hfar _].
  rewrite apart_not_contiguous by assumption. apply andb_false_r.
Qed.

Lemma apart_firstStartsAfter x post :
  Forall (fun q => x + EPSILON <= start q) post -> firstStartsAfter x post.
Proof.
  intros Hfar. unfold firstStartsAfter.
  destruct post as [| q post]; [exact I |]. simpl.
  apply Forall_cons in Hfar. destruct Hfar as [Hfar _].
  unfold EPSILON in *. lra.
Qed.

Lemma different_bitrate_unmergeable a b l :
  bitrate a <> bitrate b -> unmergeable (b :: l) -> unmergeable (a :: b :: l).
Proof.
  intros Hne Hun. split; [| exact Hun].
  unfold sameBitrate.
  replace (bitrate a =? bitrate b)%Z with false
    by (symmetry; apply Z.eqb_neq; exact Hne).
  reflexivity.
Qed.

(** *** Away from the stored ranges *)

Section Disjoint.
Variables (pre post : list Range) (b : Z) (s e : Q).

Let ranges := pre ++ post.
Let addedRange := {| start := s; end_ := e; bitrate := b |}.

Hypothesis Hall : Forall nonEmpty ranges.
Hypothesis Hun : unmergeable ranges.
Hypothesis Hlt : s < e.
Hypothesis Hpre : Forall (fun p => end_ p + EPSILON <= s) pre.
Hypothesis Hpost : Forall (fun q => e + EPSILON <= start q) post.

Lemma disjoint_insertInto :
  insertInto ranges b s e = (Ok tt, pre ++ addedRange :: post).
Proof.
  unfold ranges in *.
  apply Forall_app in Hall. destruct Hall as [Hallpre Hallpost].
  apply adjacent_app in Hun. destruct Hun as (Hunpre & Hunpost & _).
  assert (Hadded : unmergeable (addedRange :: post))
    by (apply apart_unmergeable; assumption).
  rewrite (insertInto_cleanUp _ b s e pre post addedRange Hlt).
  - f_equal. apply cleanUp_nonEmpty.
    + apply Forall_app. split; [exact Hallpre |].
      apply Forall_cons. split; assumption.
    + apply (placed_unmergeable pre post addedRange []);
        [exact Hunpre | exact Hadded |].
      apply (placed_link_start pre s Hallpre Hpre); [exact Hlt |].
      apply Qle_refl.
  - fold addedRange. rewrite (placed_skip pre b s e Hlt Hallpre Hpre).
    apply insertInto_from_stops; try assumption.
    + apply (placed_lastEndsBefore pre s Hallpre Hpre).
      simpl. unfold EPSILON. lra.
    + apply apart_firstStartsAfter. exact Hpost.
Qed.
End Disjoint.

(** *** On a stored range of the same bitrate *)

Section Union.
Variables (pre post : list Range) (currentRange : Range) (s e : Q).

Let ranges := pre ++ currentRange :: post.
Let addedRange := {| start := s; end_ := e; bitrate := bitrate currentRange |}.
Let unionRange :=
  {| start := Qmin s (start currentRange);
     end_ := Qmax e (end_ currentRange);
     bitrate := bitrate currentRange |}.

Hypothesis Hall : Forall nonEmpty ranges.
Hypothesis Hord : ordered ranges.
Hypothesis Hun : unmergeable ranges.
Hypothesis Hlt : s < e.
Hypothesis Hnear1 : start currentRange < e + EPSILON.
Hypothesis Hnear2 : s < end_ currentRange + EPSILON.
Hypothesis Hpre : Forall (fun p => end_ p + EPSILON <= s) pre.
Hypothesis Hpost : Forall (fun q => e + EPSILON <= start q) post.

Lemma union_insertInto :
  insertInto ranges (bitrate currentRange) s e
  = (Ok tt, pre ++ unionRange :: post).
Proof.
  unfold ranges in *.
  apply Forall_app in Hall. destruct Hall as [Hallpre Hallpost].
  apply Forall_cons in Hallpost. destruct Hallpost as [Hcur Hallpost].
  apply adjacent_app in Hun. destruct Hun as (Hunpre & Huncur & Hlink).
  apply adjacent_app in Hord. destruct Hord as (_ & Hordcur & Hlast).
  simpl in Hlink, Hlast.
  assert (Hstart : start unionRange = s /\ s <= start currentRange
                   \/ start unionRange = start currentRange
                      /\ start currentRange < s).
  { destruct (Qmin_cases s (start currentRange)) as [[H Heq] | [H Heq]];
      [left | right]; (split; [exact Heq | exact H]). }
  assert (Hend : end_ unionRange = e /\ end_ currentRange <= e
                 \/ end_ unionRange = end_ currentRange
                    /\ e < end_ currentRange).
  { destruct (Qmax_cases e (end_ currentRange)) as [[H Heq] | [H Heq]];
      [right | left]; (split; [exact Heq | exact H]). }
  assert (Hne : nonEmpty unionRange).
  { unfold nonEmpty in *. destruct Hstart as [[-> ?] | [-> ?]];
      destruct Hend as [[-> ?] | [-> ?]]; lra. }
  assert (Hunion : unmergeable (unionRange :: post)).
  { apply cons_unmergeable; [exact (adjacent_tail _ _ _ Huncur) |].
    destruct post as [| q post']; [exact I |]. simpl.
    destruct Huncur as [Hpair _]. destruct Hordcur as [Hle _].
    apply Forall_cons in Hallpost. destruct Hallpost as [Hq _].
    apply Forall_cons in Hpost. destruct Hpost as [Hfar _].
    change (sameBitrate unionRange q) with (sameBitrate currentRange q).
    destruct (sameBitrate currentRange q); [| reflexivity].
    rewrite andb_true_l in *. unfold areContiguousWithRanges in *.
    apply orb_false_iff in Hpair. destruct Hpair as [H1 _].
    apply nearlyEqual_false in H1.
    rewrite orb_false_iff, !nearlyEqual_false.
    unfold nonEmpty, EPSILON in *.
    destruct Hstart as [[-> ?] | [-> ?]];
      destruct Hend as [[-> ?] | [-> ?]]; split; right; lra. }
  assert (Hlast' : match last pre with
                   | Some p => end_ p <= start currentRange
                   | None => True
                   end)
    by (destruct (last pre); [exact Hlast | exact I]).
  rewrite (insertInto_cleanUp _ _ s e pre post unionRange Hlt).
  - f_equal. apply cleanUp_nonEmpty.
    + apply Forall_app. split; [exact Hallpre |].
      apply Forall_cons. split; assumption.
    + apply (placed_unmergeable pre post unionRange []);
        [exact Hunpre | exact Hunion |].
      destruct Hstart as [[Hs Hle] | [Hs Hlt']].
      * apply (placed_link_start pre s Hallpre Hpre); [exact Hne |].
        rewrite Hs. apply Qle_refl.
      * apply (placed_link_same pre s Hallpre Hpre currentRange);
          [| exact Hs | reflexivity |].
        -- destruct (last pre); [split; assumption | exact I].
        -- unfold nonEmpty in Hne.
           destruct Hend as [[-> ?] | [-> ?]]; lra.
  - rewrite (placed_skip pre (bitrate currentRange) s e Hlt Hallpre Hpre).
    fold addedRange.
    simpl insertInto_from.
    rewrite near_overlapping_or_contiguous by assumption.
    unfold sameBitrate at 1. simpl bitrate. rewrite Z.eqb_refl.
    apply insertInto_from_stops; try assumption.
    + unfold lastEndsBefore.
      pose proof (placed_last pre s Hallpre Hpre) as Hp.
      destruct (last pre) as [p |]; [| exact I].
      destruct (Hp p eq_refl) as [_ Hfar]. unfold EPSILON in *.
      change (end_ p <= start unionRange).
      destruct Hstart as [[-> ?] | [-> ?]]; lra.
    + unfold firstStartsAfter.
      destruct post as [| q post']; [exact I |].
      destruct Hordcur as [Hle _].
      apply Forall_cons in Hpost. destruct Hpost as [Hfar _].
      unfold EPSILON in *. change (end_ unionRange <= start q).
      destruct Hend as [[-> ?] | [-> ?]]; lra.
Qed.
End Union.

(** *** On a stored range of another bitrate *)

Section Other.
Variables (pre post : list Range) (currentRange : Range).
Variables (b : Z) (s e : Q).

Let ranges := pre ++ currentRange :: post.
Let addedRange := {| start := s; end_ := e; bitrate := b |}.

Hypothesis Hall : Forall nonEmpty ranges.
Hypothesis Hord : ordered ranges.
Hypothesis Hun : unmergeable ranges.
Hypothesis Hlt : s < e.
Hypothesis Hbitrate : bitrate currentRange <> b.
Hypothesis Hpre : Forall (fun p => end_ p + EPSILON <= s) pre.

Lemma other_sameBitrate : sameBitrate addedRange currentRange = false.
Proof. apply Z.eqb_neq. simpl. congruence. Qed.

Lemma other_parts :
  Forall nonEmpty pre /\ nonEmpty currentRange /\ Forall nonEmpty post
  /\ unmergeable pre /\ unmergeable post.
Proof.
  unfold ranges in *.
  apply Forall_app in Hall. destruct Hall as [Hallpre Hallpost].
  apply Forall_cons in Hallpost. destruct Hallpost as [Hcur Hallpost].
  apply adjacent_app in Hun. destruct Hun as (Hunpre & Huncur & _).
  repeat split; try assumption. exact (adjacent_tail _ _ _ Huncur).
Qed.

Lemma other_link :
  match last pre with
  | Some p => end_ p <= start currentRange
              /\ sameBitrate p currentRange
                 && areContiguousWithRanges p currentRange = false
  | None => True
  end.
Proof.
  unfold ranges in *.
  apply adjacent_app in Hun. destruct Hun as (_ & _ & Hlink).
  apply adjacent_app in Hord. destruct Hord as (_ & _ & Hlast).
  simpl in Hlink, Hlast.
  destruct (last pre); [split; assumption | exact I].
Qed.

(** The existing range starts first and ends inside the candidate, or
    where it starts: its end is moved to the start of the candidate. *)
Lemma other_trims_end :
  start currentRange < s -> s <= end_ currentRange ->
  end_ currentRange <= e ->
  Forall (fun q => e + EPSILON <= start q) post ->
  insertInto ranges b s e
  = (Ok tt, pre ++ set_end currentRange s :: addedRange :: post).
Proof.
  intros Hstart Hs Hend Hpost.
  destruct other_parts as (Hallpre & Hcur & Hallpost & Hunpre & Hunpost).
  pose proof other_link as Hlink. pose proof other_sameBitrate as Hsame.
  assert (Hadded : unmergeable (addedRange :: post))
    by (apply apart_unmergeable; assumption).
  unfold ranges.
  rewrite (insertInto_cleanUp _ b s e (pre ++ [set_end currentRange s]) post
             addedRange Hlt).
  - rewrite <- app_assoc. simpl app. f_equal. apply cleanUp_nonEmpty.
    + apply Forall_app. split; [exact Hallpre |].
      repeat (apply Forall_cons; split); assumption.
    + apply (placed_unmergeable pre post (set_end currentRange s)
               [addedRange]); [exact Hunpre | |].
      * apply different_bitrate_unmergeable; assumption.
      * apply (placed_link_same pre s Hallpre Hpre currentRange);
          try reflexivity; [exact Hlink | apply Qle_refl].
  - rewrite (placed_skip pre b s e Hlt Hallpre Hpre). fold addedRange.
    simpl insertInto_from. rewrite Hsame.
    replace (areOverlappingRanges addedRange currentRange) with true.
    2:{ symmetry. unfold_tests. simpl.
        rewrite !orb_true_iff, !andb_true_iff, !Qle_bool_true, !Qltb_true.
        unfold nonEmpty in Hcur.
        destruct (Qlt_le_dec s (end_ currentRange));
          [right | left; right]; lra. }
    cbn [orb].
    replace (isContainedInto currentRange addedRange) with false.
    2:{ symmetry. unfold_tests. simpl.
        rewrite !andb_false_iff, !Qle_bool_false, !Qltb_false. right. lra. }
    replace (isContainedInto addedRange currentRange) with false.
    2:{ symmetry. unfold_tests. simpl.
        rewrite !andb_false_iff, !Qle_bool_false, !Qltb_false.
        left. left. lra. }
    rewrite (proj2 (Qltb_true _ _) Hstart).
    apply insertInto_from_stops; try assumption.
    + apply lastEndsBefore_snoc. apply Qle_refl.
    + apply apart_firstStartsAfter. exact Hpost.
Qed.

(** The existing range starts inside the candidate and ends after it:
    its start is moved to the end of the candidate. *)
Lemma other_trims_start :
  s < start currentRange -> start currentRange < e ->
  e < end_ currentRange ->
  insertInto ranges b s e
  = (Ok tt, pre ++ addedRange :: set_start currentRange e :: post).
Proof.
  intros Hs Hstart Hend.
  destruct other_parts as (Hallpre & Hcur & Hallpost & Hunpre & Hunpost).
  pose proof other_sameBitrate as Hsame.
  unfold ranges in *.
  rewrite (insertInto_cleanUp _ b s e pre
             (set_start currentRange e :: post) addedRange Hlt).
  - f_equal. apply cleanUp_nonEmpty.
    + apply Forall_app. split; [exact Hallpre |].
      repeat (apply Forall_cons; split); assumption.
    + apply (placed_unmergeable pre post addedRange
               [set_start currentRange e]); [exact Hunpre | |].
      * apply different_bitrate_unmergeable; [simpl; congruence |].
        apply cons_unmergeable; [exact Hunpost |].
        apply adjacent_app in Hun. destruct Hun as (_ & Huncur & _).
        apply adjacent_app in Hord. destruct Hord as (_ & Hordcur & _).
        destruct post as [| q post']; [exact I |]. simpl.
        destruct Huncur as [Hpair _]. destruct Hordcur as [Hle _].
        apply Forall_cons in Hallpost. destruct Hallpost as [Hq _].
        change (sameBitrate (set_start currentRange e) q)
          with (sameBitrate currentRange q).
        destruct (sameBitrate currentRange q); [| reflexivity].
        rewrite andb_true_l in *. unfold areContiguousWithRanges in *.
        apply orb_false_iff in Hpair. destruct Hpair as [H1 _].
        simpl. rewrite H1. simpl. apply nearlyEqual_false.
        apply nearlyEqual_false in H1.
        unfold nonEmpty, EPSILON in *. right. lra.
      * apply (placed_link_start pre s Hallpre Hpre); [exact Hlt |].
        apply Qle_refl.
  - rewrite (placed_skip pre b s e Hlt Hallpre Hpre). fold addedRange.
    simpl insertInto_from. rewrite Hsame.
    replace (areOverlappingRanges addedRange currentRange) with true.
    2:{ symmetry. unfold_tests. simpl.
        rewrite !orb_true_iff, !andb_true_iff, !Qle_bool_true, !Qltb_true.
        left. left. lra. }
    cbn [orb].
    replace (isContainedInto currentRange addedRange) with false.
    2:{ symmetry. unfold_tests. simpl.
        rewrite !andb_false_iff, !Qle_bool_false, !Qltb_false.
        left. left. lra. }
    replace (isContainedInto addedRange currentRange) with false.
    2:{ symmetry. unfold_tests. simpl.
        rewrite !andb_false_iff, !Qle_bool_false, !Qltb_false.
        right. right. lra. }
    replace (Qltb (start currentRange) s) with false
      by (symmetry; apply Qltb_false; simpl; lra).
    reflexivity.
Qed.

(** The candidate covers the existing range: the existing range goes. *)
Lemma other_overrides :
  s <= start currentRange -> end_ currentRange <= e ->
  Forall (fun q => e + EPSILON <= start q) post ->
  insertInto ranges b s e = (Ok tt, pre ++ addedRange :: post).
Proof.
  intros Hs Hend Hpost.
  destruct other_parts as (Hallpre & Hcur & Hallpost & Hunpre & Hunpost).
  pose proof other_sameBitrate as Hsame.
  assert (Hadded : unmergeable (addedRange :: post))
    by (apply apart_unmergeable; assumption).
  assert (Hresult : unmergeable (pre ++ addedRange :: post)).
  { apply (placed_unmergeable pre post addedRange []);
      [exact Hunpre | exact Hadded |].
    apply (placed_link_start pre s Hallpre Hpre); [exact Hlt |].
    apply Qle_refl. }
  assert (Hover : areOverlappingRanges addedRange currentRange = true).
  { unfold_tests. simpl.
    rewrite !orb_true_iff, !andb_true_iff, !Qle_bool_true, !Qltb_true.
    unfold nonEmpty in Hcur. left. left. lra. }
  assert (Hin : isContainedInto currentRange addedRange = false).
  { unfold_tests. simpl.
    rewrite !andb_false_iff, !Qle_bool_false, !Qltb_false. right. lra. }
  unfold ranges.
  destruct (Qlt_le_dec (end_ currentRange) e) as [Hstrict | Hge].
  - rewrite (insertInto_cleanUp _ b s e pre post addedRange Hlt).
    + f_equal. apply cleanUp_nonEmpty; [| exact Hresult].
      apply Forall_app. split; [exact Hallpre |].
      apply Forall_cons. split; assumption.
    + rewrite (placed_skip pre b s e Hlt Hallpre Hpre). fold addedRange.
      simpl insertInto_from. rewrite Hsame, Hover, Hin. cbn [orb].
      replace (isContainedInto addedRange currentRange) with true.
      2:{ symmetry. unfold_tests. simpl.
          rewrite !andb_true_iff, !Qle_bool_true, !Qltb_true.
          unfold nonEmpty in Hcur. lra. }
      apply insertInto_from_stops; try assumption.
      * apply (placed_lastEndsBefore pre s Hallpre Hpre).
        simpl. unfold EPSILON. lra.
      * apply apart_firstStartsAfter. exact Hpost.
  - rewrite (insertInto_cleanUp _ b s e pre
               (set_start currentRange e :: post) addedRange Hlt).
    + f_equal. unfold cleanUp.
      change (pre ++ addedRange :: set_start currentRange e :: post)
        with (pre ++ [addedRange] ++ set_start currentRange e :: post).
      rewrite app_assoc.
      rewrite removeEmptyRanges_from_single.
      * rewrite <- app_assoc. simpl app.
        destruct (pre ++ addedRange :: post) as [| first rest];
          [reflexivity |].
        apply mergeContiguousRanges_from_unmergeable. exact Hresult.
      * apply Forall_app. split; [exact Hallpre |].
        apply Forall_cons. split; [exact Hlt | constructor].
      * simpl. lra.
      * exact Hallpost.
    + rewrite (placed_skip pre b s e Hlt Hallpre Hpre). fold addedRange.
      simpl insertInto_from. rewrite Hsame, Hover, Hin. cbn [orb].
      replace (isContainedInto addedRange currentRange) with false.
      2:{ symmetry. unfold_tests. simpl.
          rewrite !andb_false_iff, !Qle_bool_false, !Qltb_false.
          right. right. lra. }
      replace (Qltb (start currentRange) s) with false
        by (symmetry; apply Qltb_false; simpl; lra).
      reflexivity.
Qed.

End Other.

(** X15.  A candidate away from every stored range is stored as it is,
    at its place: on an engine whose ranges have [start < end] and are
    unmergeable, of which the first ones ([pre]) end at least the
    tolerance before [s] and the others ([post]) start at least the
    tolerance after [e], [insert(b, s, e)] with [0 <= s < e] leaves
    [pre], [{s, e, b}], [post].  This covers the empty engine and the
    insertion at either end. *)
Theorem insert_places_disjoint_range
  (dev : bool) (this : BufferedRanges.t) (pre post : list Range)
  (b : Z) (s e : Q) :
  BufferedRanges.ranges this = pre ++ post ->
  Forall nonEmpty (BufferedRanges.ranges this) ->
  unmergeable (BufferedRanges.ranges this) ->
  0 <= s -> s < e ->
  Forall (fun p => end_ p + EPSILON <= s) pre ->
  Forall (fun q => e + EPSILON <= start q) post ->
  let rs := pre ++ [{| start := s; end_ := e; bitrate := b |}] ++ post in
  BufferedRanges.insert dev this b s e
  = (Ok rs, {| BufferedRanges.ranges := rs;
               BufferedRanges.length := length rs |}).
Proof.
  intros Hthis Hall Hun H0 Hlt Hpre Hpost rs.
  apply insert_accepted; [exact H0 | exact Hlt |].
  rewrite Hthis in *. apply disjoint_insertInto; assumption.
Qed.

Lemma insert_places_disjoint_range_witness :
  BufferedRanges.insert true
    {| BufferedRanges.ranges :=
         [ {| start := 0; end_ := 3; bitrate := 1 |};
           {| start := 20; end_ := 30; bitrate := 2 |} ];
       BufferedRanges.length := 2 |} 1 5 10
  = (Ok [ {| start := 0; end_ := 3; bitrate := 1 |};
          {| start := 5; end_ := 10; bitrate := 1 |};
          {| start := 20; end_ := 30; bitrate := 2 |} ],
     {| BufferedRanges.ranges :=
          [ {| start := 0; end_ := 3; bitrate := 1 |};
            {| start := 5; end_ := 10; bitrate := 1 |};
            {| start := 20; end_ := 30; bitrate := 2 |} ];
        BufferedRanges.length := 3 |}).
Proof.
  refine (insert_places_disjoint_range true
            {| BufferedRanges.ranges :=
                 [ {| start := 0; end_ := 3; bitrate := 1 |};
                   {| start := 20; end_ := 30; bitrate := 2 |} ];
               BufferedRanges.length := 2 |}
            [ {| start := 0; end_ := 3; bitrate := 1 |} ]
            [ {| start := 20; end_ := 30; bitrate := 2 |} ]
            1%Z 5 10 eq_refl _ _ _ _ _ _).
  - repeat (apply Forall_cons; split); try constructor.
  - simpl. split; [reflexivity | exact I].
  - discriminate.
  - reflexivity.
  - apply Forall_cons. split; [| constructor]. simpl. unfold EPSILON.
    discriminate.
  - apply Forall_cons. split; [| constructor]. simpl. unfold EPSILON.
    discriminate.
Defined.

(** X16.  A candidate that overlaps a stored range of its own bitrate,
    or lies less than the tolerance from it, is merged with it: on an
    engine whose ranges have [start < end], are ordered without overlap
    and unmergeable, where the earlier ranges end at least the tolerance
    before [s] and the later ones start at least the tolerance after
    [e], [insert(b, s, e)] with [0 <= s < e] replaces the stored range by
    [{min(s, existing.start), max(e, existing.end), b}] and leaves the
    others as they are. *)
Theorem insert_unions_same_bitrate
  (dev : bool) (this : BufferedRanges.t) (pre post : list Range)
  (existing : Range) (b : Z) (s e : Q) :
  BufferedRanges.ranges this = pre ++ existing :: post ->
  Forall nonEmpty (BufferedRanges.ranges this) ->
  ordered (BufferedRanges.ranges this) ->
  unmergeable (BufferedRanges.ranges this) ->
  0 <= s -> s < e ->
  bitrate existing = b ->
  start existing < e + EPSILON -> s < end_ existing + EPSILON ->
  Forall (fun p => end_ p + EPSILON <= s) pre ->
  Forall (fun q => e + EPSILON <= start q) post ->
  let rs := pre ++ [{| start := Qmin s (start existing);
                       end_ := Qmax e (end_ existing);
                       bitrate := b |}] ++ post in
  BufferedRanges.insert dev this b s e
  = (Ok rs, {| BufferedRanges.ranges := rs;
               BufferedRanges.length := length rs |}).
Proof.
  intros Hthis Hall Hord Hun H0 Hlt <- Hnear1 Hnear2 Hpre Hpost rs.
  apply insert_accepted; [exact H0 | exact Hlt |].
  rewrite Hthis in *. apply union_insertInto; assumption.
Qed.

Lemma insert_unions_same_bitrate_witness :
  BufferedRanges.insert true
    {| BufferedRanges.ranges :=
         [ {| start := 0; end_ := 3; bitrate := 2 |};
           {| start := 5; end_ := 10; bitrate := 1 |};
           {| start := 20; end_ := 30; bitrate := 2 |} ];
       BufferedRanges.length := 3 |} 1 10 15
  = (Ok [ {| start := 0; end_ := 3; bitrate := 2 |};
          {| start := 5; end_ := 15; bitrate := 1 |};
          {| start := 20; end_ := 30; bitrate := 2 |} ],
     {| BufferedRanges.ranges :=
          [ {| start := 0; end_ := 3; bitrate := 2 |};
            {| start := 5; end_ := 15; bitrate := 1 |};
            {| start := 20; end_ := 30; bitrate := 2 |} ];
        BufferedRanges.length := 3 |}).
Proof.
  refine (insert_unions_same_bitrate true
            {| BufferedRanges.ranges :=
                 [ {| start := 0; end_ := 3; bitrate := 2 |};
                   {| start := 5; end_ := 10; bitrate := 1 |};
                   {| start := 20; end_ := 30; bitrate := 2 |} ];
               BufferedRanges.length := 3 |}
            [ {| start := 0; end_ := 3; bitrate := 2 |} ]
            [ {| start := 20; end_ := 30; bitrate := 2 |} ]
            {| start := 5; end_ := 10; bitrate := 1 |} 1%Z 10 15
            eq_refl _ _ _ _ _ _ _ _ _ _).
  - repeat (apply Forall_cons; split); try constructor.
  - simpl. split; [| split]; try exact I; discriminate.
  - simpl. split; [| split]; try exact I; reflexivity.
  - discriminate.
  - reflexivity.
  - reflexivity.
  - reflexivity.
  - reflexivity.
  - apply Forall_cons. split; [| constructor]. simpl. unfold EPSILON.
    discriminate.
  - apply Forall_cons. split; [| constructor]. simpl. unfold EPSILON.
    discriminate.
Defined.

(** X17.  A candidate that covers one side of a stored range of another
    bitrate trims it.  On an engine whose ranges have [start < end], are
    ordered without overlap and unmergeable, where the earlier ranges
    end at least the tolerance before [s], [insert(b, s, e)] with
    [0 <= s < e]: when the stored range starts before [s] and ends in
    [[s, e]], and the later ranges start at least the tolerance after
    [e], its end is moved to [s] and the candidate follows it; when it
    starts in [(s, e)] and ends after [e], its start is moved to [e] and
    the candidate precedes it.  The other ranges stay as they are. *)
Theorem insert_trims_partly_covered_range
  (dev : bool) (this : BufferedRanges.t) (pre post : list Range)
  (existing : Range) (b : Z) (s e : Q) :
  BufferedRanges.ranges this = pre ++ existing :: post ->
  Forall nonEmpty (BufferedRanges.ranges this) ->
  ordered (BufferedRanges.ranges this) ->
  unmergeable (BufferedRanges.ranges this) ->
  0 <= s -> s < e ->
  bitrate existing <> b ->
  Forall (fun p => end_ p + EPSILON <= s) pre ->
  let candidate := {| start := s; end_ := e; bitrate := b |} in
  (start existing < s -> s <= end_ existing -> end_ existing <= e ->
   Forall (fun q => e + EPSILON <= start q) post ->
   let rs := pre ++ [{| start := start existing; end_ := s;
                        bitrate := bitrate existing |}; candidate]
             ++ post in
   BufferedRanges.insert dev this b s e
   = (Ok rs, {| BufferedRanges.ranges := rs;
                BufferedRanges.length := length rs |}))
  /\ (s < start existing -> start existing < e -> e < end_ existing ->
      let rs := pre ++ [candidate;
                        {| start := e; end_ := end_ existing;
                           bitrate := bitrate existing |}] ++ post in
      BufferedRanges.insert dev this b s e
      = (Ok rs, {| BufferedRanges.ranges := rs;
                   BufferedRanges.length := length rs |})).
Proof.
  intros Hthis Hall Hord Hun H0 Hlt Hbitrate Hpre candidate.
  rewrite Hthis in *.
  split; intros; (apply insert_accepted; [exact H0 | exact Hlt |]);
    rewrite Hthis.
  - apply other_trims_end; assumption.
  - apply other_trims_start; assumption.
Qed.

Lemma insert_trims_partly_covered_range_witness :
  BufferedRanges.insert true
    {| BufferedRanges.ranges :=
         [ {| start := 0; end_ := 3; bitrate := 3 |};
           {| start := 5; end_ := 10; bitrate := 1 |};
           {| start := 20; end_ := 30; bitrate := 2 |} ];
       BufferedRanges.length := 3 |} 2 7 15
  = (Ok [ {| start := 0; end_ := 3; bitrate := 3 |};
          {| start := 5; end_ := 7; bitrate := 1 |};
          {| start := 7; end_ := 15; bitrate := 2 |};
          {| start := 20; end_ := 30; bitrate := 2 |} ],
     {| BufferedRanges.ranges :=
          [ {| start := 0; end_ := 3; bitrate := 3 |};
            {| start := 5; end_ := 7; bitrate := 1 |};
            {| start := 7; end_ := 15; bitrate := 2 |};
            {| start := 20; end_ := 30; bitrate := 2 |} ];
        BufferedRanges.length := 4 |}).
Proof.
  refine (proj1
            (insert_trims_partly_covered_range true
               {| BufferedRanges.ranges :=
                    [ {| start := 0; end_ := 3; bitrate := 3 |};
                      {| start := 5; end_ := 10; bitrate := 1 |};
                      {| start := 20; end_ := 30; bitrate := 2 |} ];
                  BufferedRanges.length := 3 |}
               [ {| start := 0; end_ := 3; bitrate := 3 |} ]
               [ {| start := 20; end_ := 30; bitrate := 2 |} ]
               {| start := 5; end_ := 10; bitrate := 1 |} 2%Z 7 15
               eq_refl _ _ _ _ _ _ _) _ _ _ _).
  - repeat (apply Forall_cons; split); try constructor.
  - simpl. split; [| split]; try exact I; discriminate.
  - simpl. split; [| split]; try exact I; reflexivity.
  - discriminate.
  - reflexivity.
  - discriminate.
  - apply Forall_cons. split; [| constructor]. simpl. unfold EPSILON.
    discriminate.
  - reflexivity.
  - discriminate.
  - discriminate.
  - apply Forall_cons. split; [| constructor]. simpl. unfold EPSILON.
    discriminate.
Defined.

(** X18.  A candidate that covers a stored range of another bitrate
    takes its place: on an engine whose ranges have [start < end], are
    ordered without overlap and unmergeable, where the earlier ranges
    end at least the tolerance before [s] and the later ones start at
    least the tolerance after [e], [insert(b, s, e)] with [0 <= s < e],
    [s <= existing.start] and [existing.end <= e] leaves the candidate
    where the stored range was; when the two end together, the stored
    range is first cut to zero length and then pruned. *)
Theorem insert_overrides_covered_range
  (dev : bool) (this : BufferedRanges.t) (pre post : list Range)
  (existing : Range) (b : Z) (s e : Q) :
  BufferedRanges.ranges this = pre ++ existing :: post ->
  Forall nonEmpty (BufferedRanges.ranges this) ->
  ordered (BufferedRanges.ranges this) ->
  unmergeable (BufferedRanges.ranges this) ->
  0 <= s -> s < e ->
  bitrate existing <> b ->
  s <= start existing -> end_ existing <= e ->
  Forall (fun p => end_ p + EPSILON <= s) pre ->
  Forall (fun q => e + EPSILON <= start q) post ->
  let rs := pre ++ [{| start := s; end_ := e; bitrate := b |}] ++ post in
  BufferedRanges.insert dev this b s e
  = (Ok rs, {| BufferedRanges.ranges := rs;
               BufferedRanges.length := length rs |}).
Proof.
  intros Hthis Hall Hord Hun H0 Hlt Hbitrate Hs He Hpre Hpost rs.
  apply insert_accepted; [exact H0 | exact Hlt |].
  rewrite Hthis in *. apply other_overrides; assumption.
Qed.

Lemma insert_overrides_covered_range_witness :
  BufferedRanges.insert true
    {| BufferedRanges.ranges :=
         [ {| start := 0; end_ := 3; bitrate := 3 |};
           {| start := 5; end_ := 10; bitrate := 1 |};
           {| start := 20; end_ := 30; bitrate := 2 |} ];
       BufferedRanges.length := 3 |} 2 4 10
  = (Ok [ {| start := 0; end_ := 3; bitrate := 3 |};
          {| start := 4; end_ := 10; bitrate := 2 |};
          {| start := 20; end_ := 30; bitrate := 2 |} ],
     {| BufferedRanges.ranges :=
          [ {| start := 0; end_ := 3; bitrate := 3 |};
            {| start := 4; end_ := 10; bitrate := 2 |};
            {| start := 20; end_ := 30; bitrate := 2 |} ];
        BufferedRanges.length := 3 |}).
Proof.
  refine (insert_overrides_covered_range true
            {| BufferedRanges.ranges :=
                 [ {| start := 0; end_ := 3; bitrate := 3 |};
                   {| start := 5; end_ := 10; bitrate := 1 |};
                   {| start := 20; end_ := 30; bitrate := 2 |} ];
               BufferedRanges.length := 3 |}
            [ {| start := 0; end_ := 3; bitrate := 3 |} ]
            [ {| start := 20; end_ := 30; bitrate := 2 |} ]
            {| start := 5; end_ := 10; bitrate := 1 |} 2%Z 4 10
            eq_refl _ _ _ _ _ _ _ _ _ _).
  - repeat (apply Forall_cons; split); try constructor.
  - simpl. split; [| split]; try exact I; discriminate.
  - simpl. split; [| split]; try exact I; reflexivity.
  - discriminate.
  - reflexivity.
  - discriminate.
  - discriminate.
  - discriminate.
  - apply Forall_cons. split; [| constructor]. simpl. unfold EPSILON.
    discriminate.
  - apply Forall_cons. split; [| constructor]. simpl. unfold EPSILON.
    discriminate.
Defined.



(** ** The free queries on an engine *)







(** ** Inserting what is stored *)

Lemma ordered_before : forall pre r,
  Forall weak pre -> ordered (pre ++ [r]) ->
  Forall (fun p => end_ p <= start r) pre.
Proof.
  induction pre as [| p pre IH]; intros r Hweak Hord; [constructor |].
  apply Forall_cons in Hweak. destruct Hweak as [Hp Hweak].
  pose proof (IH r Hweak (adjacent_tail _ _ _ Hord)) as Hall.
  apply Forall_cons. split; [| exact Hall].
  destruct pre as [| p' pre'].
  - destruct Hord as [Hle _]. exact Hle.
  - simpl in Hord. destruct Hord as [Hle _].
    apply Forall_cons in Hweak. destruct Hweak as [Hp' _].
    apply Forall_cons in Hall. destruct Hall as [Hle' _].
    unfold weak in *. lra.
Qed.

Lemma nonEmpty_weak ranges : Forall nonEmpty ranges -> Forall weak ranges.
Proof.
  intros Hall. apply (Forall_impl _ _ _ Hall).
  intros r Hr. unfold nonEmpty, weak in *. lra.
Qed.

Lemma set_end_same r x : end_ r = x -> set_end r x = r.
Proof. intros <-. destruct r. reflexivity. Qed.

(** The ranges before a range that starts at or before [s] end at least
    the tolerance before [s], but for the last one, which may end at
    [s], where that range then starts. *)
Lemma ends_before_cases (B : Q -> Prop) (pre : list Range) (r : Range)
  (s : Q) :
  apart B -> B s -> bounds B r -> Forall (bounds B) pre ->
  Forall nonEmpty pre -> ordered (pre ++ [r]) -> start r <= s ->
  Forall (fun p => end_ p + EPSILON <= s) pre
  \/ exists pre0 p,
       pre = pre0 ++ [p] /\ end_ p = s /\ start r = s
       /\ Forall (fun p0 => end_ p0 + EPSILON <= s) pre0.
Proof.
  intros Hapart Hs [Hb _] Hbpre Hallpre Hordpre H1.
  pose proof (ordered_before pre r (nonEmpty_weak _ Hallpre) Hordpre)
    as Hends.
  assert (Hcases : forall p, p ∈ pre ->
            end_ p = s \/ end_ p + EPSILON <= s).
  { intros p Hp.
    pose proof (proj1 (Forall_forall _ _) Hends p Hp) as Hle. simpl in Hle.
    destruct (proj1 (Forall_forall _ _) Hbpre p Hp) as [_ Hbp].
    destruct (Hapart (end_ p) s Hbp Hs) as [Hsame | [Hfar | Hfar]];
      [left; exact Hsame | right; exact Hfar |].
    unfold EPSILON in *. lra. }
  destruct pre as [| x pre1 _] using rev_ind; [left; constructor |].
  apply Forall_app in Hallpre. destruct Hallpre as [Hallpre1 Hx].
  apply Forall_cons in Hx. destruct Hx as [Hx _].
  apply Forall_app in Hends. destruct Hends as [_ Hxe].
  apply Forall_cons in Hxe. destruct Hxe as [Hxe _]. simpl in Hxe.
  assert (Hordx : ordered (pre1 ++ [x])).
  { apply ordered_app in Hordpre. tauto. }
  pose proof (ordered_before pre1 x (nonEmpty_weak _ Hallpre1) Hordx)
    as Hbx.
  assert (Hfar0 : Forall (fun p0 => end_ p0 + EPSILON <= s) pre1).
  { apply Forall_forall. intros p0 Hp0.
    destruct (Hcases p0) as [Hsame | Hfar];
      [apply elem_of_app; left; exact Hp0 | | exact Hfar].
    exfalso.
    pose proof (proj1 (Forall_forall _ _) Hbx p0 Hp0) as Hle0.
    simpl in Hle0. unfold nonEmpty in Hx. rewrite Hsame in Hle0. lra. }
  destruct (Hcases x) as [Hsame | Hfar].
  - apply elem_of_app. right. apply list_elem_of_singleton. reflexivity.
  - right. exists pre1, x. repeat split; try assumption.
    destruct (Hapart (start r) s Hb Hs) as [Heq | [Hfar | Hfar]];
      [exact Heq | |]; unfold EPSILON in *; rewrite Hsame in Hxe; lra.
  - left. apply Forall_app. split; [exact Hfar0 |].
    apply Forall_cons. split; [exact Hfar | constructor].
Qed.

Section Stored.
Variable B : Q -> Prop.
Hypothesis Hapart : apart B.

Variables (pre post : list Range) (stored : Range) (s e : Q).

Let ranges := pre ++ stored :: post.
Let addedRange := {| start := s; end_ := e; bitrate := bitrate stored |}.

Hypothesis Hbounds : Forall (bounds B) ranges.
Hypothesis Hs : B s.
Hypothesis He : B e.
Hypothesis Hall : Forall nonEmpty ranges.
Hypothesis Hord : ordered ranges.
Hypothesis Hun : unmergeable ranges.
Hypothesis Hlt : s < e.
Hypothesis Hholds : holds stored s e.

Lemma stored_parts :
  Forall nonEmpty pre /\ nonEmpty stored /\ Forall nonEmpty post
  /\ unmergeable pre /\ unmergeable (stored :: post)
  /\ ordered (pre ++ [stored]) /\ ordered (stored :: post)
  /\ Forall (bounds B) pre /\ bounds B stored.
Proof.
  unfold ranges in *.
  apply Forall_app in Hall. destruct Hall as [Hallpre Hallpost].
  apply Forall_cons in Hallpost. destruct Hallpost as [Hcur Hallpost].
  apply Forall_app in Hbounds. destruct Hbounds as [Hbpre Hbpost].
  apply Forall_cons in Hbpost. destruct Hbpost as [Hbcur _].
  apply adjacent_app in Hun. destruct Hun as (Hunpre & Huncur & _).
  assert (Hord' : ordered ((pre ++ [stored]) ++ post)).
  { rewrite <- app_assoc. exact Hord. }
  apply ordered_app in Hord'. destruct Hord' as (Hordpre & _ & _).
  apply ordered_app in Hord. destruct Hord as (_ & Hordcur & _).
  destruct Hbcur as [Hb1 Hb2].
  repeat split; assumption.
Qed.

(** The union of the candidate with the range that holds it is that
    range. *)
Lemma stored_union :
  unionWithOverlappingOrContiguousRange addedRange stored (bitrate stored)
  = stored.
Proof.
  destruct stored_parts as (_ & _ & _ & _ & _ & _ & _ & _ & [Hb1 Hb2]).
  destruct Hholds as [H1 H2].
  unfold unionWithOverlappingOrContiguousRange. simpl.
  assert (Hmin : Qmin s (start stored) = start stored).
  { destruct (Qmin_cases s (start stored)) as [[Hle Heq] | [_ Heq]];
      [| exact Heq].
    rewrite Heq.
    destruct (Hapart s (start stored) Hs Hb1) as [Hsame | [Hfar | Hfar]];
      [exact Hsame | |]; unfold EPSILON in *; lra. }
  assert (Hmax : Qmax e (end_ stored) = end_ stored).
  { destruct (Qmax_cases e (end_ stored)) as [[_ Heq] | [Hle Heq]];
      [exact Heq |].
    rewrite Heq.
    destruct (Hapart e (end_ stored) He Hb2) as [Hsame | [Hfar | Hfar]];
      [exact Hsame | |]; unfold EPSILON in *; lra. }
  rewrite Hmin, Hmax. destruct stored. reflexivity.
Qed.

(** The scan from the range that holds the candidate on. *)
Lemma stored_scan_from pre' :
  lastEndsBefore pre' (start stored) ->
  insertInto_from pre' (stored :: post) addedRange = (pre', post, stored).
Proof.
  intros Hlast.
  destruct stored_parts
    as (_ & Hcur & Hallpost & _ & Huncur & _ & Hordcur & _).
  destruct Hholds as [H1 H2].
  simpl insertInto_from.
  rewrite near_overlapping_or_contiguous;
    [| exact Hlt | exact Hcur | |];
    try (simpl; unfold nonEmpty, EPSILON in *; lra).
  unfold sameBitrate at 1. simpl bitrate. rewrite Z.eqb_refl.
  rewrite stored_union.
  apply insertInto_from_stops; try assumption.
  - unfold firstStartsAfter. destruct post as [| q post']; [exact I |].
    destruct Hordcur as [Hle _]. exact Hle.
Qed.

Lemma stored_before :
  Forall (fun p => end_ p + EPSILON <= s) pre
  \/ exists pre0 p,
       pre = pre0 ++ [p] /\ end_ p = s /\ start stored = s
       /\ Forall (fun p0 => end_ p0 + EPSILON <= s) pre0.
Proof.
  destruct stored_parts
    as (Hallpre & _ & _ & _ & _ & Hordpre & _ & Hbpre & Hbcur).
  destruct Hholds as [H1 _].
  apply (ends_before_cases B pre stored s); assumption.
Qed.

Lemma stored_scan :
  insertInto_from [] ranges addedRange = (pre, post, stored).
Proof.
  destruct stored_parts
    as (Hallpre & Hcur & _ & Hunpre & _ & Hordpre & _ & _).
  assert (Hlast : lastEndsBefore pre (start stored)).
  { unfold lastEndsBefore. apply ordered_app in Hordpre.
    destruct Hordpre as (_ & _ & Hlink). simpl in Hlink.
    destruct (last pre); [exact Hlink | exact I]. }
  unfold ranges, addedRange.
  destruct stored_before as [Hfar | (pre0 & p & Hpre & Hend & Hstart & Hfar)].
  - rewrite (placed_skip pre (bitrate stored) s e Hlt Hallpre Hfar).
    apply stored_scan_from. exact Hlast.
  - rewrite Hpre in *.
    apply Forall_app in Hallpre. destruct Hallpre as [Hallpre0 Hp].
    apply Forall_cons in Hp. destruct Hp as [Hp _].
    rewrite <- app_assoc.
    rewrite (placed_skip pre0 (bitrate stored) s e Hlt Hallpre0 Hfar).
    fold addedRange. simpl app. simpl insertInto_from.
    assert (Hdiff : sameBitrate addedRange p = false).
    { pose proof Hun as Hlink. unfold ranges in Hlink.
      rewrite Hpre in Hlink.
      apply adjacent_app in Hlink. destruct Hlink as (_ & _ & Hlink).
      rewrite last_snoc in Hlink. simpl in Hlink.
      unfold sameBitrate in *. simpl.
      rewrite Z.eqb_sym.
      destruct (bitrate p =? bitrate stored)%Z; [| reflexivity].
      rewrite andb_true_l in Hlink. unfold areContiguousWithRanges in Hlink.
      apply orb_false_iff in Hlink. destruct Hlink as [Hnear _].
      apply nearlyEqual_false in Hnear.
      rewrite Hstart, Hend in Hnear. unfold EPSILON in Hnear. lra. }
    rewrite Hdiff.
    replace (areOverlappingRanges addedRange p) with true.
    2:{ symmetry. unfold_tests. simpl.
        rewrite !orb_true_iff, !andb_true_iff, !Qle_bool_true, !Qltb_true.
        left. right. rewrite Hend. lra. }
    cbn [orb].
    replace (isContainedInto p addedRange) with false.
    2:{ symmetry. unfold_tests. simpl.
        rewrite !andb_false_iff, !Qle_bool_false, !Qltb_false.
        left. right. rewrite Hend. lra. }
    replace (isContainedInto addedRange p) with false.
    2:{ symmetry. unfold_tests. simpl.
        rewrite !andb_false_iff, !Qle_bool_false, !Qltb_false.
        unfold nonEmpty in Hp. left. left. rewrite <- Hend. exact Hp. }
    replace (Qltb (start p) s) with true
      by (symmetry; apply Qltb_true; rewrite <- Hend; exact Hp).
    rewrite (set_end_same p s Hend).
    apply stored_scan_from. exact Hlast.
Qed.

Lemma stored_insertInto :
  insertInto ranges (bitrate stored) s e = (Ok tt, ranges).
Proof.
  rewrite (insertInto_cleanUp _ _ s e pre post stored Hlt stored_scan).
  f_equal. apply cleanUp_nonEmpty; assumption.
Qed.
End Stored.

Lemma wholeSeconds_are_apart : apart wholeSeconds.
Proof.
  intros a b [za ->] [zb ->].
  destruct (Z.lt_trichotomy za zb) as [Hlt | [-> | Hgt]].
  - right. left. unfold Qle, Qplus, EPSILON, inject_Z. simpl. lia.
  - left. reflexivity.
  - right. right. unfold Qle, Qplus, EPSILON, inject_Z. simpl. lia.
Qed.

Lemma apart_lt (B : Q -> Prop) :
  apart B -> forall a b, B a -> B b -> a < b -> a + EPSILON <= b.
Proof.
  intros Hapart a b Ha Hb Hlt.
  destruct (Hapart a b Ha Hb) as [-> | [Hfar | Hfar]]; [| exact Hfar |];
    unfold EPSILON in *; lra.
Qed.

Lemma insert_stored (B : Q -> Prop) (dev : bool) (this : BufferedRanges.t)
  (b : Z) (s e : Q) :
  apart B -> B s -> B e ->
  Forall (bounds B) (BufferedRanges.ranges this) ->
  Forall nonEmpty (BufferedRanges.ranges this) ->
  ordered (BufferedRanges.ranges this) ->
  unmergeable (BufferedRanges.ranges this) ->
  BufferedRanges.length this = length (BufferedRanges.ranges this) ->
  0 <= s -> s < e ->
  Exists (fun r => holds r s e /\ bitrate r = b)
    (BufferedRanges.ranges this) ->
  BufferedRanges.insert dev this b s e
  = (Ok (BufferedRanges.ranges this), this).
Proof.
  intros Hapart Hs He Hbounds Hall Hord Hun Hlen H0 Hlt Hex.
  apply Exists_exists in Hex. destruct Hex as (r & Hin & Hholds & <-).
  apply list_elem_of_split in Hin. destruct Hin as (pre & post & Heq).
  rewrite (insert_accepted dev this (bitrate r) s e
             (BufferedRanges.ranges this) H0 Hlt).
  - f_equal. destruct this as [rs len]. simpl in *. rewrite Hlen.
    reflexivity.
  - rewrite Heq in *.
    apply (stored_insertInto B Hapart pre post r s e); assumption.
Qed.

(** X21.  Inserting what is stored changes nothing.  On an engine whose
    bounds, with [s] and [e], are taken from a set of numbers that are
    the same or at least the tolerance apart, whose ranges have
    [start < end], are ordered without overlap and unmergeable, and
    whose [length] is the number of its ranges: when a stored range of
    the bitrate [b] holds [[s, e]], [insert(b, s, e)] with [0 <= s < e]
    leaves the ranges and the length as they are. *)
Theorem insert_stored_changes_nothing
  (B : Q -> Prop) (dev : bool) (this : BufferedRanges.t) (b : Z) (s e : Q) :
  apart B -> B s -> B e ->
  Forall (bounds B) (BufferedRanges.ranges this) ->
  Forall nonEmpty (BufferedRanges.ranges this) ->
  ordered (BufferedRanges.ranges this) ->
  unmergeable (BufferedRanges.ranges this) ->
  BufferedRanges.length this = length (BufferedRanges.ranges this) ->
  0 <= s -> s < e ->
  (exists r, In r (BufferedRanges.ranges this)
             /\ holds r s e /\ bitrate r = b) ->
  BufferedRanges.insert dev this b s e
  = (Ok (BufferedRanges.ranges this), this).
Proof.
  intros Hapart Hs He Hbounds Hall Hord Hun Hlen H0 Hlt (r & Hin & Hr).
  apply (insert_stored B); try assumption.
  apply Exists_exists. exists r. split; [| exact Hr].
  apply list_elem_of_In. exact Hin.
Qed.

Lemma insert_stored_changes_nothing_witness :
  let this :=
    {| BufferedRanges.ranges :=
         [ {| start := 0; end_ := 10; bitrate := 1 |};
           {| start := 10; end_ := 20; bitrate := 2 |} ];
       BufferedRanges.length := 2 |} in
  BufferedRanges.insert true this 2 10 15
  = (Ok (BufferedRanges.ranges this), this).
Proof.
  refine (insert_stored_changes_nothing wholeSeconds true
            {| BufferedRanges.ranges :=
                 [ {| start := 0; end_ := 10; bitrate := 1 |};
                   {| start := 10; end_ := 20; bitrate := 2 |} ];
               BufferedRanges.length := 2 |} 2%Z 10 15
            wholeSeconds_are_apart _ _ _ _ _ _ eq_refl _ _ _).
  - exists 10%Z. reflexivity.
  - exists 15%Z. reflexivity.
  - repeat (apply Forall_cons; split); try constructor;
      eexists; reflexivity.
  - repeat (apply Forall_cons; split); try constructor.
  - simpl. split; [| exact I]. discriminate.
  - simpl. split; [| exact I]. reflexivity.
  - discriminate.
  - reflexivity.
  - exists {| start := 10; end_ := 20; bitrate := 2 |}.
    split; [right; left; reflexivity |].
    split; [split; discriminate | reflexivity].
Defined.

(** X22.  On bounds that are apart, [insert] is idempotent.  On every
    engine built from the empty one by calls [insert(b, s, e)] with
    [0 <= s < e] whose bounds are taken from a set of numbers that are the
    same or at least the tolerance apart, such as the whole numbers of
    seconds, a second call of [insert] with the arguments of the one just
    made leaves the ranges and the length as they are. *)
Theorem insert_twice_on_apart_bounds
  (B : Q -> Prop) (dev dev' : bool) (this : BufferedRanges.t)
  (b : Z) (s e : Q) :
  apart B -> insertedOn B this -> B s -> B e -> 0 <= s -> s < e ->
  let one := snd (BufferedRanges.insert dev this b s e) in
  BufferedRanges.insert dev' one b s e = (Ok (BufferedRanges.ranges one), one).
Proof.
  intros Hapart Hon Hs He H0 Hlt one.
  assert (Hone : insertedOn B one)
    by (apply insertedOn_insert; assumption).
  destruct (insertedOn_invariants B (apart_lt B Hapart) one Hone)
    as (Hbounds & Hall & Hord & Hun).
  destruct (insertInto_recorded b s e Hlt (BufferedRanges.ranges this))
    as (rs & Hrs & Hex).
  pose proof (insert_accepted dev this b s e rs H0 Hlt Hrs) as Hins.
  assert (Heq : one = {| BufferedRanges.ranges := rs;
                         BufferedRanges.length := length rs |})
    by (unfold one; rewrite Hins; reflexivity).
  apply (insert_stored B); try assumption.
  - rewrite Heq. reflexivity.
  - rewrite Heq. exact Hex.
Qed.

Lemma insert_twice_on_apart_bounds_witness :
  let one :=
    snd (BufferedRanges.insert true
           (snd (BufferedRanges.insert true BufferedRanges.new 1 0 10))
           2 5 15) in
  BufferedRanges.insert true one 2 5 15
  = (Ok (BufferedRanges.ranges one), one).
Proof.
  refine (insert_twice_on_apart_bounds wholeSeconds true true
            (snd (BufferedRanges.insert true BufferedRanges.new 1 0 10))
            2%Z 5 15 wholeSeconds_are_apart _ _ _ _ _).
  - apply insertedOn_insert; [apply insertedOn_new | | | |];
      try (eexists; reflexivity); try discriminate; reflexivity.
  - exists 5%Z. reflexivity.
  - exists 15%Z. reflexivity.
  - discriminate.
  - reflexivity.
Defined.
